(** * GF(2^e) PRNG tool: a shallow embedding of the code-generation engine

    The development follows the Python sources file by file:
    each Python file is a module of the same name ([gf2_poly_utils],
    [xor_tree_generator], [gf2_poly_affine_generator],
    [gf2_poly_mod_generator], [gf2_poly_affine_mod_generator],
    [gf2e_prng_tool]); the modules [XorTree], [Affine], [ModReducer],
    [AffineMod] and [Prng] hold the Verilog that the generators write, and
    [Semantics] what that Verilog computes.

    Python integers are modelled as [Z]; bit operations are [Z.land],
    [Z.lxor], [Z.shiftl] and [Z.shiftr].  Python [while] loops that are not
    structurally bounded take a fuel argument; running out of fuel is the
    outcome [OutOfFuel].  Exceptions are the outcome [Raise]. *)

From Stdlib Require Import String Ascii.
From Stdlib Require Import ZArith List Lia Bool Sorted.
From Stdlib Require Import DecimalString DecimalN.
From Equations Require Import Equations.
Import ListNotations.

Local Open Scope Z_scope.

(** ** Outcomes of a Python computation *)

Inductive exn : Type :=
| IndexError
| ValueError
| TypeError
| ArgumentTypeError.

Inductive result (A : Type) : Type :=
| Ok (x : A)
| Raise (e : exn)
| OutOfFuel.

Arguments Ok {A} x.
Arguments Raise {A} e.
Arguments OutOfFuel {A}.

Definition bind {A B : Type} (m : result A) (f : A -> result B) : result B :=
  match m with
  | Ok x => f x
  | Raise e => Raise e
  | OutOfFuel => OutOfFuel
  end.

Declare Scope result_scope.
Delimit Scope result_scope with result.
Bind Scope result_scope with result.
Notation "x <- m ;; k" := (bind m (fun x => k))
  (at level 61, m at next level, right associativity) : result_scope.
Local Open Scope result_scope.

(** Python's [x << k]: a negative shift count raises [ValueError]. *)
Definition py_shl (x k : Z) : result Z :=
  if k <? 0 then Raise ValueError else Ok (Z.shiftl x k).

(** Python's [int.bit_length]: the number of bits of the absolute value. *)
Definition int_bit_length (n : Z) : Z :=
  if n =? 0 then 0 else Z.log2 (Z.abs n) + 1.

(** Python's [range(n)] for an integer [n]. *)
Definition range (n : Z) : list Z :=
  map Z.of_nat (seq 0 (Z.to_nat n)).

(** Python's [l[0]]. *)
Definition first {A : Type} (l : list A) : result A :=
  match l with
  | [] => Raise IndexError
  | x :: _ => Ok x
  end.

(** ** gf2_poly_utils.py *)

Module gf2_poly_utils.

(** [get_bit_positions]: the loop [while n: ...; n >>= 1; position += 1]. *)
Fixpoint get_bit_positions_loop (fuel : nat) (n position : Z)
    (positions : list Z) : result (list Z) :=
  match fuel with
  | O => OutOfFuel
  | S fuel' =>
      if n =? 0 then Ok positions
      else
        let positions' :=
          if Z.land n 1 =? 0 then positions else positions ++ [position] in
        get_bit_positions_loop fuel' (Z.shiftr n 1) (position + 1) positions'
  end.

(** One iteration per bit of [n], and one more test to leave the loop. *)
Definition get_bit_positions_fuel (n : Z) : nat :=
  S (Z.to_nat (int_bit_length n)).

Definition get_bit_positions (n : Z) : result (list Z) :=
  get_bit_positions_loop (get_bit_positions_fuel n) n 0 [].

Definition poly_degree (p : Z) : Z :=
  if p =? 0 then -1 else int_bit_length p - 1.

(** [poly_mod]: the loop [while poly_degree(rem) >= deg_h: ...]. *)
Fixpoint poly_mod_loop (fuel : nat) (h deg_h rem : Z) : result Z :=
  match fuel with
  | O => OutOfFuel
  | S fuel' =>
      if poly_degree rem >=? deg_h then
        let shift := poly_degree rem - deg_h in
        poly_mod_loop fuel' h deg_h (Z.lxor rem (Z.shiftl h shift))
      else Ok rem
  end.

(** The degree of the remainder drops at each iteration, so
    [poly_degree y + 2] tests of the loop condition are enough. *)
Definition poly_mod_fuel (y : Z) : nat :=
  Z.to_nat (poly_degree y + 2).

Definition poly_mod (y h : Z) : result Z :=
  let deg_h := poly_degree h in
  poly_mod_loop (poly_mod_fuel y) h deg_h y.

Definition poly_affine (a p c : Z) : result Z :=
  positions <- get_bit_positions a ;;
  let out := fold_left (fun out i => Z.lxor out (Z.shiftl p i)) positions 0 in
  Ok (Z.lxor out c).

Definition poly_affine_mod (a p c h : Z) : result Z :=
  result <- poly_affine a p c ;;
  poly_mod result h.

End gf2_poly_utils.

Import gf2_poly_utils.

(** ** The generated Verilog modules and test benches

    A generated file is kept as the data that the generator writes into its
    text: the bit widths, the instantiated sub-modules and the assignments.
    The comment header and the spelling of the Verilog text carry no other
    information. *)

Module XorTree.

(** The wire [vec_{stage}_{index}] of the generated module. *)
Definition wire : Type := Z * Z.

(** The continuous assignments that [generate_src] emits. *)
Inductive stmt : Type :=
| Unpack (dst : wire) (end_idx begin_idx : Z)
    (* assign vec_0_i = in_vectors[end_idx:begin_idx]; *)
| Xor2 (dst a b : wire)
    (* assign vec_s_j = vec_a ^ vec_b; *)
| Pass (dst a : wire).
    (* assign vec_s_j = vec_a; *)

(** The module [xor_tree_{num_vectors}_{bit_length}]: an input
    [in_vectors] of [num_vectors * bit_length] bits, wires of [bit_length]
    bits, and [assign out_xor = vec_{final_stage}_{final_idx}]. *)
Record verilog_module : Type := {
  num_vectors : Z;
  bit_length : Z;
  body : list stmt;
  out_xor : wire
}.

(** The test bench [tb_xor_tree_{num_vectors}_{bit_length}]: it drives
    [in_vectors] with the concatenation of [code_input] and compares
    [out_xor] with [expected_code_output]. *)
Record testbench : Type := {
  tb_num_vectors : Z;
  tb_bit_length : Z;
  code_input : list Z;
  expected_code_output : Z
}.

(** *** Meaning of the generated module *)

(** A valuation of the wires assigned so far. *)
Definition valuation : Type := wire -> option Z.

Definition wire_eqb (w1 w2 : wire) : bool :=
  (fst w1 =? fst w2) && (snd w1 =? snd w2).

Definition assign (w : wire) (v : Z) (env : valuation) : valuation :=
  fun w' => if wire_eqb w w' then Some v else env w'.

(** The part select [x[end_idx:begin_idx]] of a vector. *)
Definition part_select (x end_idx begin_idx : Z) : Z :=
  Z.land (Z.shiftr x begin_idx) (Z.ones (end_idx - begin_idx + 1)).

(** One continuous assignment to a wire of [width] bits. Reading a wire
    that no earlier assignment drives has no value. *)
Definition exec_stmt (width in_vectors : Z) (st : stmt) (env : valuation)
    : option valuation :=
  match st with
  | Unpack dst end_idx begin_idx =>
      let v := part_select in_vectors end_idx begin_idx in
      Some (assign dst (Z.land v (Z.ones width)) env)
  | Xor2 dst a b =>
      match env a, env b with
      | Some va, Some vb => Some (assign dst (Z.lxor va vb) env)
      | _, _ => None
      end
  | Pass dst a =>
      match env a with
      | Some va => Some (assign dst va env)
      | None => None
      end
  end.

Fixpoint exec_body (width in_vectors : Z) (stmts : list stmt)
    (env : valuation) : option valuation :=
  match stmts with
  | [] => Some env
  | st :: stmts' =>
      match exec_stmt width in_vectors st env with
      | Some env' => exec_body width in_vectors stmts' env'
      | None => None
      end
  end.

(** The value on [out_xor] for a given value on [in_vectors]; the input
    port keeps [num_vectors * bit_length] bits. *)
Definition eval (m : verilog_module) (in_vectors : Z) : option Z :=
  let port := Z.land in_vectors (Z.ones (num_vectors m * bit_length m)) in
  match exec_body (bit_length m) port (body m) (fun _ => None) with
  | Some env => env (out_xor m)
  | None => None
  end.

(** The Verilog concatenation [{W'd v0, W'd v1, ...}] that
    [int_list_to_verilog_vector] writes: the first element is the most
    significant. *)
Fixpoint concatenation (bit_length : Z) (int_list : list Z) : Z :=
  match int_list with
  | [] => 0
  | v :: rest =>
      Z.lor (Z.shiftl (Z.land v (Z.ones bit_length))
               (bit_length * Z.of_nat (length rest)))
            (concatenation bit_length rest)
  end.

End XorTree.

Module Affine.

(** What drives one part of the bus [w_in_vectors]. *)
Inductive driver : Type :=
| Shifted (ti : Z)               (* in_poly << ti *)
| Unshifted                      (* in_poly *)
| Constant (width value : Z).    (* {width}'d{value} *)

(** [assign w_in_vectors[msb:lsb] = source;] *)
Record part_assign : Type := {
  msb : Z;
  lsb : Z;
  source : driver
}.

(** The module [gf2_poly_affine_{bit_length}]: input [in_poly] of
    [bit_length] bits, output [out_poly] of [out_bit_length] bits, one
    instance of [xor_tree_{xor_tree_num_vectors}_{xor_tree_bit_length}]
    fed by [w_in_vectors], and [assign out_poly = w_out_xor]. *)
Record verilog_module : Type := {
  bit_length : Z;
  out_bit_length : Z;
  xor_tree_num_vectors : Z;
  xor_tree_bit_length : Z;
  assigns : list part_assign
}.

Record testbench : Type := {
  tb_bit_length : Z;
  tb_out_bit_length : Z;
  code_input : Z;
  expected_code_output : Z
}.

End Affine.

Module ModReducer.

(** What drives one part of the bus [w_in_vectors]. *)
Inductive driver : Type :=
| Gated (y_idx width constant : Z)
    (* in_poly[y_idx]? {width}'d{constant} : {width}'d0 *)
| LowBits (msb_in lsb_in : Z).
    (* in_poly[msb_in:lsb_in] *)

Record part_assign : Type := {
  msb : Z;
  lsb : Z;
  source : driver
}.

(** The module [gf2_poly_mod_{y_bit_length}]: input [in_poly] of
    [in_bit_length] bits, output [out_poly] of [out_bit_length] bits, one
    instance of [xor_tree_{xor_tree_num_vectors}_{xor_tree_bit_length}]
    fed by [w_in_vectors], and [assign out_poly = w_out_xor]. *)
Record verilog_module : Type := {
  in_bit_length : Z;
  out_bit_length : Z;
  xor_tree_num_vectors : Z;
  xor_tree_bit_length : Z;
  assigns : list part_assign
}.

Record testbench : Type := {
  tb_in_bit_length : Z;
  tb_out_bit_length : Z;
  code_input : Z;
  expected_code_output : Z
}.

End ModReducer.

Module AffineMod.

(** The module [gf2_poly_affine_mod_{bit_length}]: [in_poly] goes through
    the instance [gf2_poly_affine_{affine_in_bit_length}], whose output
    [w_out_affine] feeds the instance [gf2_poly_mod_{mod_in_bit_length}],
    whose output [w_out_mod] is [out_poly]. *)
Record verilog_module : Type := {
  in_bit_length : Z;
  out_bit_length : Z;
  affine_in_bit_length : Z;
  affine_out_bit_length : Z;
  mod_in_bit_length : Z;
  mod_out_bit_length : Z
}.

Record testbench : Type := {
  tb_in_bit_length : Z;
  tb_out_bit_length : Z;
  code_input : Z;
  expected_code_output : Z
}.

End AffineMod.

Module Prng.

(** The module [gf2_{e}_prng]: a register [state] of [bit_length] bits,
    the instance [gf2_poly_affine_mod_{bit_length}] from [state] to
    [next_state], and the clocked process
    [if (rst) state <= seed; else if (enable) state <= next_state;]
    with [assign prng_out = state]. *)
Record verilog_module : Type := {
  e : Z;
  bit_length : Z
}.

(** The test bench loads [code_input] as seed, enables the generator for
    [iterations] clock edges and compares [prng_out] with
    [expected_code_output]. *)
Record testbench : Type := {
  tb_bit_length : Z;
  code_input : Z;
  iterations : Z;
  expected_code_output : Z
}.

End Prng.

(** ** The output directory of a generation run *)

(** The files [src/<name>.v] and [tb/tb_<name>.v] are keyed by the name of
    the module they hold. *)
Inductive module_name : Type :=
| xor_tree (num_vectors bit_length : Z)    (* xor_tree_{N}_{W} *)
| gf2_poly_affine (bit_length : Z)         (* gf2_poly_affine_{b} *)
| gf2_poly_mod (y_bit_length : Z)          (* gf2_poly_mod_{b} *)
| gf2_poly_affine_mod (bit_length : Z)     (* gf2_poly_affine_mod_{b} *)
| gf2_prng (e : Z).                        (* gf2_{e}_prng *)

Definition module_name_eqb (n1 n2 : module_name) : bool :=
  match n1, n2 with
  | xor_tree n w, xor_tree n' w' => (n =? n') && (w =? w')
  | gf2_poly_affine b, gf2_poly_affine b' => b =? b'
  | gf2_poly_mod b, gf2_poly_mod b' => b =? b'
  | gf2_poly_affine_mod b, gf2_poly_affine_mod b' => b =? b'
  | gf2_prng e, gf2_prng e' => e =? e'
  | _, _ => false
  end.

Inductive source_file : Type :=
| XorTreeSrc (m : XorTree.verilog_module)
| AffineSrc (m : Affine.verilog_module)
| ModSrc (m : ModReducer.verilog_module)
| AffineModSrc (m : AffineMod.verilog_module)
| PrngSrc (m : Prng.verilog_module).

Inductive testbench_file : Type :=
| XorTreeTb (t : XorTree.testbench)
| AffineTb (t : Affine.testbench)
| ModTb (t : ModReducer.testbench)
| AffineModTb (t : AffineMod.testbench)
| PrngTb (t : Prng.testbench).

(** Python's [random] module: seeding replaces the generator state, and
    [randint(lo, hi)] draws an integer between [lo] and [hi]. Called with
    a bound that is a float, [randint] draws nothing and raises
    [rng_float_bound]: [ValueError] up to Python 3.11, [TypeError] from
    Python 3.12 on. The generator itself is not part of the repository. *)
Class Random : Type := {
  rng_state : Type;
  rng_seed : Z -> rng_state;
  rng_randint : Z -> Z -> rng_state -> Z * rng_state;
  rng_float_bound : exn;
  rng_randint_range :
    forall lo hi g, lo <= hi -> lo <= fst (rng_randint lo hi g) <= hi
}.

(** What a run can change: the directories [src] and [tb] under
    [save_dir], the files in them (the latest write first), and the state
    of the global random generator. Every call of a run receives the same
    [save_dir], which is left out. Messages printed on the console are left
    out too. *)
Record world `{Random} : Type := {
  src_dir : bool;
  tb_dir : bool;
  src_files : list (module_name * source_file);
  tb_files : list (module_name * testbench_file);
  rng : rng_state
}.

(** A step of a run: it returns or raises, and changes the world either
    way. *)
Definition gen `{Random} (A : Type) : Type := world -> result A * world.

Definition gen_ret `{Random} {A : Type} (x : A) : gen A :=
  fun w => (Ok x, w).

Definition gen_bind `{Random} {A B : Type} (m : gen A) (f : A -> gen B)
    : gen B :=
  fun w =>
    match m w with
    | (Ok x, w') => f x w'
    | (Raise e, w') => (Raise e, w')
    | (OutOfFuel, w') => (OutOfFuel, w')
    end.

Declare Scope gen_scope.
Delimit Scope gen_scope with gen.
Bind Scope gen_scope with gen.
Notation "x <- m ;; k" := (gen_bind m (fun x => k))
  (at level 61, m at next level, right associativity) : gen_scope.

(** A computation without effects. *)
Definition pure `{Random} {A : Type} (r : result A) : gen A :=
  fun w => (r, w).

(** A computation that only uses the random generator. *)
Definition with_rng `{Random} {A : Type}
    (f : rng_state -> result A * rng_state) : gen A :=
  fun w =>
    let '(r, g) := f (rng w) in
    (r, {| src_dir := src_dir w; tb_dir := tb_dir w;
           src_files := src_files w; tb_files := tb_files w; rng := g |}).

(** [os.makedirs(src_dir, exist_ok=True); os.makedirs(tb_dir, exist_ok=True)] *)
Definition makedirs `{Random} : gen unit :=
  fun w =>
    (Ok tt, {| src_dir := true; tb_dir := true;
               src_files := src_files w; tb_files := tb_files w;
               rng := rng w |}).

(** [with open(path_out_filename, "w") as f: f.write(verilog_code)] *)
Definition write_src `{Random} (name : module_name) (code : source_file)
    : gen unit :=
  fun w =>
    (Ok tt, {| src_dir := src_dir w; tb_dir := tb_dir w;
               src_files := (name, code) :: src_files w;
               tb_files := tb_files w; rng := rng w |}).

(** [with open(path_out_tb_filename, "w") as f: f.write(verilog_tb_code)] *)
Definition write_tb `{Random} (name : module_name) (code : testbench_file)
    : gen unit :=
  fun w =>
    (Ok tt, {| src_dir := src_dir w; tb_dir := tb_dir w;
               src_files := src_files w;
               tb_files := (name, code) :: tb_files w; rng := rng w |}).

(** The file that a module name resolves to. *)
Fixpoint lookup {A : Type} (name : module_name)
    (files : list (module_name * A)) : option A :=
  match files with
  | [] => None
  | (name', code) :: files' =>
      if module_name_eqb name name' then Some code else lookup name files'
  end.

(** The draws of [generate_random_integers]: integers of at most
    [bit_length] bits. With a negative [bit_length] the power
    [2**bit_length] is a float, so is the bound [2**bit_length - 1], and
    [randint] raises. *)
Fixpoint draw_integers `{Random} (count : nat) (bit_length : Z)
    (g : rng_state) : result (list Z) * rng_state :=
  match count with
  | O => (Ok [], g)
  | S count' =>
      if bit_length <? 0 then (Raise rng_float_bound, g)
      else
        let max_val := 2 ^ bit_length - 1 in
        let '(v, g') := rng_randint 0 max_val g in
        match draw_integers count' bit_length g' with
        | (Ok vs, g'') => (Ok (v :: vs), g'')
        | (Raise e, g'') => (Raise e, g'')
        | (OutOfFuel, g'') => (OutOfFuel, g'')
        end
  end.

(** [enumerate(l)] *)
Definition enumerate {A : Type} (l : list A) : list (Z * A) :=
  combine (map Z.of_nat (seq 0 (length l))) l.

(** A loop body applied to each element of a list, stopping at the first
    exception. *)
Fixpoint for_each {A B : Type} (f : A -> result B) (l : list A)
    : result (list B) :=
  match l with
  | [] => Ok []
  | x :: l' => y <- f x ;; ys <- for_each f l' ;; Ok (y :: ys)
  end.

Local Open Scope gen_scope.

(** [generate_random_integers(num_vectors, bit_length, seed)], the same
    function in each generator. *)
Definition generate_random_integers `{Random} (num_vectors bit_length : Z)
    (seed : Z) : gen (list Z) :=
  with_rng (fun _ => (* random.seed(seed) *)
              draw_integers (Z.to_nat num_vectors) bit_length (rng_seed seed)).

(** ** xor_tree_generator.py *)

Module xor_tree_generator.

Import XorTree.

(** The inner loop [while i < len(current_level)], by recursion on the
    elements of [current_level] from index [i] on. *)
Fixpoint tree_stage (stage : Z) (current_level next_level : list wire)
    (lines : list stmt) : list wire * list stmt :=
  match current_level with
  | a :: b :: rest =>
      let new_idx := Z.of_nat (length next_level) in
      tree_stage stage rest (next_level ++ [(stage, new_idx)])
        (lines ++ [Xor2 (stage, new_idx) a b])
  | [a] =>
      (* Odd element, just propagate *)
      let new_idx := Z.of_nat (length next_level) in
      (next_level ++ [(stage, new_idx)], lines ++ [Pass (stage, new_idx) a])
  | [] => (next_level, lines)
  end.

Lemma tree_stage_length (stage : Z) (current_level : list wire) :
  forall next_level lines,
    (length (fst (tree_stage stage current_level next_level lines))
     = length next_level + Nat.div2 (S (length current_level)))%nat.
Proof.
  assert (H : forall n (l : list wire), (length l <= n)%nat ->
    forall next_level lines,
      (length (fst (tree_stage stage l next_level lines))
       = length next_level + Nat.div2 (S (length l)))%nat).
  { induction n as [|n IH]; intros l Hl next_level lines.
    - destruct l; simpl in *; lia.
    - destruct l as [|a [|b rest]]; simpl in *.
      + lia.
      + rewrite length_app. simpl. lia.
      + rewrite IH by lia. rewrite length_app. simpl. lia. }
  intros. now apply (H (length current_level)).
Qed.

Lemma tree_stage_shrinks (stage : Z) (current_level : list wire)
    (lines : list stmt) :
  (1 < length current_level)%nat ->
  (length (fst (tree_stage stage current_level [] lines))
   < length current_level)%nat.
Proof.
  intros H. rewrite tree_stage_length. cbn [length Nat.add].
  rewrite Nat.div2_div.
  pose proof (Nat.div_mod_eq (S (length current_level)) 2).
  pose proof (Nat.mod_upper_bound (S (length current_level)) 2). lia.
Qed.

(** The outer loop [while len(current_level) > 1]: each stage is shorter
    than the one before. *)
Equations? tree_loop (stage : Z) (current_level : list wire)
    (lines : list stmt) : list wire * list stmt
    by wf (length current_level) lt :=
  tree_loop stage current_level lines with le_lt_dec (length current_level) 1 => {
    | left _ => (current_level, lines)
    | right _ =>
        tree_loop (stage + 1)
          (fst (tree_stage stage current_level [] lines))
          (snd (tree_stage stage current_level [] lines)) }.
Proof. now apply tree_stage_shrinks. Qed.

Definition generate_src (num_vectors bit_length : Z)
    : result verilog_module :=
  ((* Unpack input *)
  let lines :=
    map (fun i =>
           let begin_idx := i * bit_length in
           let end_idx := (i + 1) * bit_length - 1 in
           Unpack (0, i) end_idx begin_idx)
        (range num_vectors) in
  (* Tree structure *)
  let current_level := map (fun i => (0, i)) (range num_vectors) in
  let '(current_level, lines) := tree_loop 1 current_level lines in
  (* Final output *)
  final <- first current_level ;;
  Ok {| num_vectors := num_vectors; bit_length := bit_length;
        body := lines; out_xor := final |})%result.

(** [xor_integers]: the golden model of the test bench. *)
Definition xor_integers (int_list : list Z) : Z :=
  fold_left (fun result v => Z.lxor result v) int_list 0.

Definition random_computation_example `{Random}
    (num_vectors bit_length seed : Z) : gen (list Z * Z) :=
  code_input <- generate_random_integers num_vectors bit_length seed ;;
  let expected_code_output := xor_integers code_input in
  gen_ret (code_input, expected_code_output).

Definition generate_tb `{Random} (num_vectors bit_length : Z)
    : gen testbench :=
  example <- random_computation_example num_vectors bit_length 42 ;;
  let '(int_list_code_input, expected_code_output) := example in
  gen_ret {| tb_num_vectors := num_vectors;
             tb_bit_length := bit_length;
             code_input := int_list_code_input;
             expected_code_output := expected_code_output |}.

Definition generate_verilog_and_tb_to_files `{Random}
    (num_vectors bit_length : Z) : gen unit :=
  (* Create directory to put src and tb files *)
  _ <- makedirs ;;
  let out_filename := xor_tree num_vectors bit_length in
  (* Generate and save verilog code *)
  verilog_code <- pure (generate_src num_vectors bit_length) ;;
  _ <- write_src out_filename (XorTreeSrc verilog_code) ;;
  (* Generate and save tb files *)
  verilog_tb_code <- generate_tb num_vectors bit_length ;;
  write_tb out_filename (XorTreeTb verilog_tb_code).

End xor_tree_generator.

(** ** gf2_poly_affine_generator.py *)

Module gf2_poly_affine_generator.

Import Affine.

Definition generate_src (a c bit_length : Z) : result verilog_module :=
  ((* Get positions were bits in a(x) are 1 *)
  positions <- get_bit_positions a ;;
  let a_ones := rev positions in
  let num_a_ones := Z.of_nat (length a_ones) in
  (* Get the max number of bits that a(x)p(x)+c(x) can have *)
  a_ones_0 <- first a_ones ;;
  let out_bit_length := a_ones_0 + bit_length in
  let xor_tree_num_vectors :=
    if c =? 0 then num_a_ones else num_a_ones + 1 in
  let xor_tree_bit_length := out_bit_length in
  (* Multiplication step *)
  let lines :=
    map (fun '(i, ti) =>
           {| msb := (i + 1) * xor_tree_bit_length - 1;
              lsb := i * xor_tree_bit_length;
              source := if ti =? 0 then Unshifted else Shifted ti |})
        (enumerate a_ones) in
  let lines :=
    if c =? 0 then lines (* only add c(x) to XOR tree if it is not null *)
    else
      lines ++
      [{| msb := xor_tree_num_vectors * xor_tree_bit_length - 1;
          lsb := (xor_tree_num_vectors - 1) * xor_tree_bit_length;
          source := Constant xor_tree_bit_length c |}] in
  Ok {| bit_length := bit_length;
        out_bit_length := out_bit_length;
        xor_tree_num_vectors := xor_tree_num_vectors;
        xor_tree_bit_length := xor_tree_bit_length;
        assigns := lines |})%result.

Definition random_computation_example `{Random} (a c bit_length seed : Z)
    : gen (Z * Z) :=
  integers <- generate_random_integers 1 bit_length seed ;;
  code_input <- pure (first integers) ;;
  expected_code_output <- pure (poly_affine a code_input c) ;;
  gen_ret (code_input, expected_code_output).

Definition generate_tb `{Random} (a c bit_length : Z) : gen testbench :=
  (* Generate random test *)
  example <- random_computation_example a c bit_length 42 ;;
  let '(code_input, expected_code_output) := example in
  (* Get positions were bits in a(x) are 1 *)
  positions <- pure (get_bit_positions a) ;;
  let a_ones := rev positions in
  a_ones_0 <- pure (first a_ones) ;;
  let out_bit_length := a_ones_0 + bit_length in
  gen_ret {| tb_bit_length := bit_length;
             tb_out_bit_length := out_bit_length;
             code_input := code_input;
             expected_code_output := expected_code_output |}.

Definition generate_submodules_verilog_and_tb_to_files `{Random}
    (a c bit_length : Z) : gen unit :=
  positions <- pure (get_bit_positions a) ;;
  let a_ones := rev positions in
  let num_a_ones := Z.of_nat (length a_ones) in
  a_ones_0 <- pure (first a_ones) ;;
  let out_bit_length := a_ones_0 + bit_length in
  (* Get XOR tree parameters *)
  let num_vectors := if c =? 0 then num_a_ones else num_a_ones + 1 in
  let bit_length := out_bit_length in
  xor_tree_generator.generate_verilog_and_tb_to_files num_vectors bit_length.

Definition generate_verilog_and_tb_to_files `{Random} (a c bit_length : Z)
    : gen unit :=
  (* Generate and save submodule files *)
  _ <- generate_submodules_verilog_and_tb_to_files a c bit_length ;;
  _ <- makedirs ;;
  let out_filename := gf2_poly_affine bit_length in
  verilog_code <- pure (generate_src a c bit_length) ;;
  _ <- write_src out_filename (AffineSrc verilog_code) ;;
  verilog_tb_code <- generate_tb a c bit_length ;;
  write_tb out_filename (AffineTb verilog_tb_code).

End gf2_poly_affine_generator.

(** ** gf2_poly_mod_generator.py *)

Module gf2_poly_mod_generator.

Import ModReducer.

Definition get_reduction_constants (h y_bit_length : Z) : result (list Z) :=
  ((* Get polynomials degrees *)
  let deg_h := poly_degree h in
  let deg_y := y_bit_length - 1 in
  (* Compute number of constants needed *)
  let num_consts := Z.max (deg_y - deg_h + 1) 0 in
  (* Compute constants *)
  for_each (fun i => y <- py_shl 1 (deg_h + i) ;; poly_mod y h)
           (range num_consts))%result.

Definition generate_src (h y_bit_length : Z) : result verilog_module :=
  (let h_bit_length := int_bit_length h in
  let in_bit_length := y_bit_length in
  let out_bit_length := h_bit_length - 1 in
  reduction_constants <- get_reduction_constants h y_bit_length ;;
  let xor_tree_num_vectors := Z.of_nat (length reduction_constants) + 1 in
  let xor_tree_bit_length := out_bit_length in
  (* Reduction step *)
  let lines :=
    map (fun '(i, constant) =>
           let y_idx := out_bit_length + i in
           {| msb := (i + 1) * xor_tree_bit_length - 1;
              lsb := i * xor_tree_bit_length;
              source := Gated y_idx xor_tree_bit_length constant |})
        (enumerate reduction_constants) in
  (* Assign the least signficant bits of input y *)
  let lines :=
    lines ++
    [{| msb := xor_tree_num_vectors * xor_tree_bit_length - 1;
        lsb := (xor_tree_num_vectors - 1) * xor_tree_bit_length;
        source := LowBits (xor_tree_bit_length - 1) 0 |}] in
  Ok {| in_bit_length := in_bit_length;
        out_bit_length := out_bit_length;
        xor_tree_num_vectors := xor_tree_num_vectors;
        xor_tree_bit_length := xor_tree_bit_length;
        assigns := lines |})%result.

Definition random_computation_example `{Random} (h y_bit_length seed : Z)
    : gen (Z * Z) :=
  integers <- generate_random_integers 1 y_bit_length seed ;;
  code_input <- pure (first integers) ;;
  expected_code_output <- pure (poly_mod code_input h) ;;
  gen_ret (code_input, expected_code_output).

(** [len(f"{h:b}")]: the binary digits of [h], and its sign if any. *)
Definition binary_length (h : Z) : Z :=
  if h =? 0 then 1
  else if h <? 0 then int_bit_length h + 1
  else int_bit_length h.

Definition generate_tb `{Random} (h y_bit_length : Z) : gen testbench :=
  example <- random_computation_example h y_bit_length 42 ;;
  let '(code_input, expected_code_output) := example in
  let h_bit_length := binary_length h in
  let in_bit_length := y_bit_length in
  let out_bit_length := h_bit_length - 1 in
  gen_ret {| tb_in_bit_length := in_bit_length;
             tb_out_bit_length := out_bit_length;
             code_input := code_input;
             expected_code_output := expected_code_output |}.

Definition generate_submodules_verilog_and_tb_to_files `{Random}
    (h y_bit_length : Z) : gen unit :=
  (* Get XOR tree parameters *)
  let h_bit_length := int_bit_length h in
  let out_bit_length := h_bit_length - 1 in
  let num_vectors := Z.max (y_bit_length - out_bit_length + 1) 0 in
  let bit_length := out_bit_length in
  xor_tree_generator.generate_verilog_and_tb_to_files num_vectors bit_length.

Definition generate_verilog_and_tb_to_files `{Random} (h y_bit_length : Z)
    : gen unit :=
  (* Generate and save submodule files *)
  _ <- generate_submodules_verilog_and_tb_to_files h y_bit_length ;;
  _ <- makedirs ;;
  let out_filename := gf2_poly_mod y_bit_length in
  verilog_code <- pure (generate_src h y_bit_length) ;;
  _ <- write_src out_filename (ModSrc verilog_code) ;;
  verilog_tb_code <- generate_tb h y_bit_length ;;
  write_tb out_filename (ModTb verilog_tb_code).

End gf2_poly_mod_generator.

(** ** gf2_poly_affine_mod_generator.py *)

Module gf2_poly_affine_mod_generator.

Import AffineMod.

Definition generate_src (a c h bit_length : Z) : verilog_module :=
  (* Get input and output bit lengths *)
  let in_bit_length := bit_length in
  let out_bit_length := int_bit_length h - 1 in
  let affine_in_bit_length := in_bit_length in
  let affine_out_bit_length := in_bit_length + poly_degree a in
  let mod_in_bit_length := affine_out_bit_length in
  let mod_out_bit_length := out_bit_length in
  {| in_bit_length := in_bit_length;
     out_bit_length := out_bit_length;
     affine_in_bit_length := affine_in_bit_length;
     affine_out_bit_length := affine_out_bit_length;
     mod_in_bit_length := mod_in_bit_length;
     mod_out_bit_length := mod_out_bit_length |}.

Definition random_computation_example `{Random} (a c h bit_length seed : Z)
    : gen (Z * Z) :=
  integers <- generate_random_integers 1 bit_length seed ;;
  code_input <- pure (first integers) ;;
  expected_code_output <- pure (poly_affine_mod a code_input c h) ;;
  gen_ret (code_input, expected_code_output).

Definition generate_tb `{Random} (a c h bit_length : Z) : gen testbench :=
  let in_bit_length := bit_length in
  let out_bit_length := int_bit_length h - 1 in
  example <- random_computation_example a c h bit_length 42 ;;
  let '(code_input, expected_code_output) := example in
  gen_ret {| tb_in_bit_length := in_bit_length;
             tb_out_bit_length := out_bit_length;
             code_input := code_input;
             expected_code_output := expected_code_output |}.

Definition generate_submodules_verilog_and_tb_to_files `{Random}
    (a c h bit_length : Z) : gen unit :=
  let affine_in_bit_length := bit_length in
  let affine_out_bit_length := bit_length + poly_degree a in
  let mod_in_bit_length := affine_out_bit_length in
  (* Generate submodules *)
  _ <- gf2_poly_affine_generator.generate_verilog_and_tb_to_files
         a c affine_in_bit_length ;;
  gf2_poly_mod_generator.generate_verilog_and_tb_to_files h mod_in_bit_length.

Definition generate_verilog_and_tb_to_files `{Random} (a c h bit_length : Z)
    : gen unit :=
  _ <- generate_submodules_verilog_and_tb_to_files a c h bit_length ;;
  _ <- makedirs ;;
  let out_filename := gf2_poly_affine_mod bit_length in
  let verilog_code := generate_src a c h bit_length in
  _ <- write_src out_filename (AffineModSrc verilog_code) ;;
  verilog_tb_code <- generate_tb a c h bit_length ;;
  write_tb out_filename (AffineModTb verilog_tb_code).

End gf2_poly_affine_mod_generator.

(** ** gf2e_prng_tool.py *)

Module gf2e_prng_tool.

Import Prng.

Definition generate_src (a c h : Z) : verilog_module :=
  let bit_length := poly_degree h in
  let e := bit_length in
  {| e := e; bit_length := bit_length |}.

(** The loop [for _ in range(100)] of [random_computation_example]. *)
Fixpoint iterate_prng (count : nat) (a c h prng_in : Z) : result Z :=
  (match count with
  | O => Ok prng_in
  | S count' =>
      prng_out <- poly_affine_mod a prng_in c h ;;
      let prng_in := prng_out in
      iterate_prng count' a c h prng_in
  end)%result.

Definition random_computation_example `{Random} (a c h seed : Z)
    : gen (Z * Z) :=
  (* Compute input bit length *)
  let bit_length := poly_degree h in
  (* Generate random input *)
  integers <- generate_random_integers 1 bit_length seed ;;
  code_input <- pure (first integers) ;;
  (* Iterate 100 times the PRNG *)
  expected_code_output <- pure (iterate_prng 100 a c h code_input) ;;
  gen_ret (code_input, expected_code_output).

Definition generate_tb `{Random} (a c h : Z) : gen testbench :=
  let bit_length := poly_degree h in
  example <- random_computation_example a c h 42 ;;
  let '(code_input, expected_code_output) := example in
  gen_ret {| tb_bit_length := bit_length;
             code_input := code_input;
             iterations := 100;
             expected_code_output := expected_code_output |}.

Definition generate_submodules_verilog_and_tb_to_files `{Random}
    (a c h : Z) : gen unit :=
  (* Compute parameters needed to generate gf2_poly_affine_mod *)
  let bit_length := poly_degree h in
  gf2_poly_affine_mod_generator.generate_verilog_and_tb_to_files
    a c h bit_length.

Definition generate_verilog_and_tb_to_files `{Random} (a c h : Z)
    : gen unit :=
  (* Generate and save submodule src and tb files *)
  _ <- generate_submodules_verilog_and_tb_to_files a c h ;;
  _ <- makedirs ;;
  let e := poly_degree h in
  let out_filename := gf2_prng e in
  let verilog_code := generate_src a c h in
  _ <- write_src out_filename (PrngSrc verilog_code) ;;
  verilog_tb_code <- generate_tb a c h ;;
  write_tb out_filename (PrngTb verilog_tb_code).

(** [positive_int] and [nonnegative_int], applied to the integer that
    [int(value)] returns. *)
Definition positive_int (ivalue : Z) : result Z :=
  if ivalue <=? 0 then Raise ArgumentTypeError else Ok ivalue.

Definition nonnegative_int (ivalue : Z) : result Z :=
  if ivalue <? 0 then Raise ArgumentTypeError else Ok ivalue.

(** The arguments that [argument_parser] accepts. *)
Definition argument_parser (arg_a arg_c arg_h : Z) : result (Z * Z * Z) :=
  (a <- positive_int arg_a ;;
  c <- nonnegative_int arg_c ;;
  h <- positive_int arg_h ;;
  Ok (a, c, h))%result.

(** The parameters that [main] hands to [generate_project]: [a] and [c]
    are reduced modulo [h]. *)
Definition main_parameters (arg_a arg_c arg_h : Z) : result (Z * Z * Z) :=
  (args <- argument_parser arg_a arg_c arg_h ;;
  let '(args_a, args_c, args_h) := args in
  let h := args_h in
  a <- poly_mod args_a h ;; (* simplify a(x) if possible *)
  c <- poly_mod args_c h ;; (* simplify c(x) if possible *)
  Ok (a, c, h))%result.

(** [main]: the project directory, the simulation scripts, the README and
    the licence file that [generate_project] adds around the RTL files are
    left out. *)
Definition main `{Random} (arg_a arg_c arg_h : Z) : gen unit :=
  parameters <- pure (main_parameters arg_a arg_c arg_h) ;;
  let '(a, c, h) := parameters in
  generate_verilog_and_tb_to_files a c h.

End gf2e_prng_tool.

Local Close Scope gen_scope.

(** ** Meaning of the generated hierarchy *)

Module Semantics.

(** A wire of [width] bits keeps the low [width] bits of what drives
    it. *)
Definition truncate (width v : Z) : Z := Z.land v (Z.ones width).

(** [assign bus[msb:lsb] = value;] on a bus whose other parts are driven
    by other assignments. *)
Definition drive (bus msb lsb value : Z) : Z :=
  Z.lor bus (Z.shiftl (truncate (msb - lsb + 1) value) lsb).

Definition library : Type := list (module_name * source_file).

(** The instance [xor_tree_{N}_{W}] resolves to the file of that name. *)
Definition eval_xor_tree (lib : library) (num_vectors bit_length : Z)
    (in_vectors : Z) : option Z :=
  match lookup (xor_tree num_vectors bit_length) lib with
  | Some (XorTreeSrc m) => XorTree.eval m in_vectors
  | _ => None
  end.

Definition affine_driver (in_poly : Z) (d : Affine.driver) : Z :=
  match d with
  | Affine.Shifted ti => Z.shiftl in_poly ti
  | Affine.Unshifted => in_poly
  | Affine.Constant width value => truncate width value
  end.

Definition eval_affine (lib : library) (m : Affine.verilog_module)
    (in_poly : Z) : option Z :=
  let in_poly := truncate (Affine.bit_length m) in_poly in
  let N := Affine.xor_tree_num_vectors m in
  let W := Affine.xor_tree_bit_length m in
  let w_in_vectors :=
    truncate (N * W)
      (fold_left
         (fun bus a => drive bus (Affine.msb a) (Affine.lsb a)
                         (affine_driver in_poly (Affine.source a)))
         (Affine.assigns m) 0) in
  match eval_xor_tree lib N W w_in_vectors with
  | Some out_xor =>
      let w_out_xor := truncate W out_xor in
      Some (truncate (Affine.out_bit_length m) w_out_xor)
  | None => None
  end.

(** The value of a driver of the reduction module, for words of at least
    one bit. *)
Definition mod_driver (in_poly : Z) (d : ModReducer.driver) : Z :=
  match d with
  | ModReducer.Gated y_idx width constant =>
      if Z.testbit in_poly y_idx then truncate width constant
      else truncate width 0
  | ModReducer.LowBits msb_in lsb_in =>
      XorTree.part_select in_poly msb_in lsb_in
  end.

(** A reduction module whose words have no bit is given no meaning: its
    text holds the zero-size constants [0'd0] and the ranges [[0-1:0]],
    which are not the empty words of this model. *)
Definition eval_mod (lib : library) (m : ModReducer.verilog_module)
    (in_poly : Z) : option Z :=
  if ModReducer.xor_tree_bit_length m <=? 0 then None
  else
    let in_poly := truncate (ModReducer.in_bit_length m) in_poly in
    let N := ModReducer.xor_tree_num_vectors m in
    let W := ModReducer.xor_tree_bit_length m in
    let w_in_vectors :=
      truncate (N * W)
        (fold_left
           (fun bus a => drive bus (ModReducer.msb a) (ModReducer.lsb a)
                           (mod_driver in_poly (ModReducer.source a)))
           (ModReducer.assigns m) 0) in
    match eval_xor_tree lib N W w_in_vectors with
    | Some out_xor =>
        let w_out_xor := truncate W out_xor in
        Some (truncate (ModReducer.out_bit_length m) w_out_xor)
    | None => None
    end.

Definition eval_affine_mod (lib : library) (m : AffineMod.verilog_module)
    (in_poly : Z) : option Z :=
  let in_poly := truncate (AffineMod.in_bit_length m) in_poly in
  let w_in_affine := truncate (AffineMod.in_bit_length m) in_poly in
  match lookup (gf2_poly_affine (AffineMod.affine_in_bit_length m)) lib with
  | Some (AffineSrc affine) =>
      match eval_affine lib affine w_in_affine with
      | Some out_affine =>
          let w_out_affine :=
            truncate (AffineMod.affine_out_bit_length m) out_affine in
          let w_in_mod :=
            truncate (AffineMod.mod_in_bit_length m) w_out_affine in
          match lookup (gf2_poly_mod (AffineMod.mod_in_bit_length m)) lib
          with
          | Some (ModSrc reducer) =>
              match eval_mod lib reducer w_in_mod with
              | Some out_mod =>
                  let w_out_mod :=
                    truncate (AffineMod.mod_out_bit_length m) out_mod in
                  Some (truncate (AffineMod.out_bit_length m) w_out_mod)
              | None => None
              end
          | _ => None
          end
      | None => None
      end
  | _ => None
  end.

(** The wire [next_state] of the PRNG module for a value of [state]. *)
Definition next_state (lib : library) (m : Prng.verilog_module)
    (state : Z) : option Z :=
  match lookup (gf2_poly_affine_mod (Prng.bit_length m)) lib with
  | Some (AffineModSrc affine_mod) =>
      match eval_affine_mod lib affine_mod state with
      | Some out_poly => Some (truncate (Prng.bit_length m) out_poly)
      | None => None
      end
  | _ => None
  end.

(** One rising clock edge: reset has priority over enable. *)
Definition clock (lib : library) (m : Prng.verilog_module)
    (rst enable : bool) (seed state : Z) : option Z :=
  if rst then Some (truncate (Prng.bit_length m) seed)
  else if enable then next_state lib m state
  else Some state.

(** [k] rising edges with [rst] low and [enable] high. *)
Fixpoint run_enabled (lib : library) (m : Prng.verilog_module) (k : nat)
    (state : Z) : option Z :=
  match k with
  | O => Some state
  | S k' =>
      match clock lib m false true 0 state with
      | Some state' => run_enabled lib m k' state'
      | None => None
      end
  end.

End Semantics.

(** ** A random generator for concrete runs *)

(** A linear congruential generator: an instance of [Random] on which the
    runs of the generators can be evaluated. *)
Definition lcg_next (g : Z) : Z := (1103515245 * g + 12345) mod 2147483648.

Definition lcg_randint (lo hi g : Z) : Z * Z :=
  (lo + g mod (hi - lo + 1), lcg_next g).

Lemma lcg_randint_range (lo hi g : Z) :
  lo <= hi -> lo <= fst (lcg_randint lo hi g) <= hi.
Proof.
  intros Hle. cbn [lcg_randint fst].
  pose proof (Z.mod_pos_bound g (hi - lo + 1) ltac:(lia)). lia.
Qed.

Definition lcg : Random :=
  {| rng_state := Z;
     rng_seed := fun seed => seed;
     rng_randint := lcg_randint;
     rng_float_bound := TypeError;
     rng_randint_range := lcg_randint_range |}.

(** An output directory before any run. *)
Definition empty_world `{Random} : world :=
  {| src_dir := false; tb_dir := false;
     src_files := []; tb_files := []; rng := rng_seed 0 |}.

Definition lcg_world : @world lcg := empty_world.

(** * Specification-level notions *)

(** [multiple_of h z]: [z] is a sum (XOR) of shifted copies of [h], that is,
    a multiple of [h] in GF(2)[x]. *)
Inductive multiple_of (h : Z) : Z -> Prop :=
| multiple_zero : multiple_of h 0
| multiple_step (z s : Z) :
    0 <= s -> multiple_of h z -> multiple_of h (Z.lxor z (Z.shiftl h s)).

(** The exponents of a positive binary numeral, counted from [position]. *)
Fixpoint bit_positions_pos (p : positive) (position : Z) : list Z :=
  match p with
  | xH => [position]
  | xO q => bit_positions_pos q (position + 1)
  | xI q => position :: bit_positions_pos q (position + 1)
  end.

Definition bit_positions (n : Z) : list Z :=
  match n with
  | Zpos p => bit_positions_pos p 0
  | _ => []
  end.

(** Product of two polynomials over GF(2), by recursion on the bits of the
    first factor. *)
Fixpoint clmul_pos (a : positive) (p : Z) : Z :=
  match a with
  | xH => p
  | xO a' => Z.shiftl (clmul_pos a' p) 1
  | xI a' => Z.lxor p (Z.shiftl (clmul_pos a' p) 1)
  end.

Definition clmul (a p : Z) : Z :=
  match a with
  | Zpos a' => clmul_pos a' p
  | _ => 0
  end.

(** * Examples *)

Example get_bit_positions_22 : get_bit_positions 22 = Ok [1; 2; 4].
Proof. reflexivity. Qed.

Example poly_mod_ex : poly_mod 4096 285 = Ok 205.
Proof. reflexivity. Qed.

Example poly_affine_mod_ex : poly_affine_mod 23 200 5 285 = Ok 91.
Proof. vm_compute. reflexivity. Qed.

Example xor_tree_5_8_out :
  option_map XorTree.out_xor
    (match xor_tree_generator.generate_src 5 8 with Ok m => Some m | _ => None end)
  = Some (3, 0).
Proof. reflexivity. Qed.

Example xor_tree_3_4_eval :
  match xor_tree_generator.generate_src 3 4 with
  | Ok m => XorTree.eval m (XorTree.concatenation 4 [5; 9; 3])
  | _ => None
  end = Some (xor_tree_generator.xor_integers [5; 9; 3]).
Proof. vm_compute. reflexivity. Qed.

Example xor_tree_0_raises : xor_tree_generator.generate_src 0 8 = Raise IndexError.
Proof. reflexivity. Qed.

(** * Properties of the polynomial arithmetic *)

(** Equations between XOR combinations, settled bit by bit. *)
Ltac lxor_ac :=
  apply Z.bits_inj; intros ?k; rewrite ?Z.lxor_spec, ?Z.bits_0;
  repeat match goal with
    | |- context [Z.testbit ?a ?n] => destruct (Z.testbit a n)
    end;
  reflexivity.

Section Degree.

Lemma int_bit_length_pos (p : Z) :
  0 < p -> int_bit_length p = Z.log2 p + 1.
Proof.
  intros Hp. unfold int_bit_length.
  destruct (Z.eqb_spec p 0); [lia|]. now rewrite Z.abs_eq by lia.
Qed.

Lemma poly_degree_0 : poly_degree 0 = -1.
Proof. reflexivity. Qed.

Lemma poly_degree_pos (p : Z) : 0 < p -> poly_degree p = Z.log2 p.
Proof.
  intros Hp. unfold poly_degree.
  destruct (Z.eqb_spec p 0); [lia|]. rewrite int_bit_length_pos; lia.
Qed.

Lemma poly_degree_ge_m1 (p : Z) : -1 <= poly_degree p.
Proof.
  unfold poly_degree, int_bit_length.
  destruct (Z.eqb_spec p 0); [lia|].
  pose proof (Z.log2_nonneg (Z.abs p)). lia.
Qed.

Lemma poly_degree_nonneg (p : Z) : 0 < p -> 0 <= poly_degree p.
Proof. intros Hp. rewrite poly_degree_pos by lia. apply Z.log2_nonneg. Qed.

Lemma poly_degree_neg_iff (p : Z) : 0 <= p -> (poly_degree p < 0 <-> p = 0).
Proof.
  intros Hp. split.
  - intros Hd. destruct (Z.eq_dec p 0) as [|Hn]; [assumption|].
    pose proof (poly_degree_nonneg p). lia.
  - intros ->. rewrite poly_degree_0. lia.
Qed.

(** A non-negative polynomial has degree below [n] exactly when it fits
    in [n] bits. *)
Lemma poly_degree_lt_pow2 (p n : Z) :
  0 <= p -> 0 <= n -> (poly_degree p < n <-> p < 2 ^ n).
Proof.
  intros Hp Hn. destruct (Z.eq_dec p 0) as [->|Hne].
  - rewrite poly_degree_0. pose proof (Z.pow_pos_nonneg 2 n). lia.
  - rewrite poly_degree_pos by lia. symmetry. apply Z.log2_lt_pow2. lia.
Qed.

Lemma poly_degree_shiftl (h s : Z) :
  0 < h -> 0 <= s -> poly_degree (Z.shiftl h s) = poly_degree h + s.
Proof.
  intros Hh Hs.
  assert (0 < Z.shiftl h s).
  { rewrite Z.shiftl_mul_pow2 by lia.
    pose proof (Z.pow_pos_nonneg 2 s). nia. }
  rewrite !poly_degree_pos by lia. now apply Z.log2_shiftl.
Qed.

Lemma shiftl_pos (h s : Z) : 0 < h -> 0 <= s -> 0 < Z.shiftl h s.
Proof.
  intros Hh Hs. rewrite Z.shiftl_mul_pow2 by lia.
  pose proof (Z.pow_pos_nonneg 2 s). nia.
Qed.

Lemma lxor_nonneg' (a b : Z) : 0 <= a -> 0 <= b -> 0 <= Z.lxor a b.
Proof. intros Ha Hb. apply Z.lxor_nonneg. tauto. Qed.

(** The XOR of two polynomials of degree at most [n] has degree at most
    [n]. *)
Lemma poly_degree_lxor_le (a b n : Z) :
  0 <= a -> 0 <= b -> poly_degree a <= n -> poly_degree b <= n ->
  poly_degree (Z.lxor a b) <= n.
Proof.
  intros Ha Hb Hda Hdb.
  pose proof (poly_degree_ge_m1 a).
  pose proof (lxor_nonneg' a b Ha Hb) as Hx.
  enough (poly_degree (Z.lxor a b) < n + 1) by lia.
  apply poly_degree_lt_pow2; [assumption|lia|].
  assert (Ha' : a < 2 ^ (n + 1)) by (apply poly_degree_lt_pow2; lia).
  assert (Hb' : b < 2 ^ (n + 1)) by (apply poly_degree_lt_pow2; lia).
  destruct (Z.eq_dec (Z.lxor a b) 0) as [->|Hne].
  - apply Z.pow_pos_nonneg; lia.
  - apply Z.log2_lt_pow2; [lia|].
    pose proof (Z.log2_lxor a b Ha Hb).
    assert (0 <= n).
    { destruct (Z.eq_dec a 0) as [->|].
      - destruct (Z.eq_dec b 0) as [->|]; [now elim Hne|].
        pose proof (poly_degree_nonneg b). lia.
      - pose proof (poly_degree_nonneg a). lia. }
    assert (Z.log2 a < n + 1).
    { destruct (Z.eq_dec a 0) as [->|]; [simpl; lia|].
      apply Z.log2_lt_pow2; lia. }
    assert (Z.log2 b < n + 1).
    { destruct (Z.eq_dec b 0) as [->|]; [simpl; lia|].
      apply Z.log2_lt_pow2; lia. }
    lia.
Qed.

(** Two polynomials of the same degree cancel their leading terms. *)
Lemma poly_degree_lxor_cancel (a b : Z) :
  0 < a -> 0 < b -> poly_degree a = poly_degree b ->
  poly_degree (Z.lxor a b) < poly_degree a.
Proof.
  intros Ha Hb Hd.
  pose proof (lxor_nonneg' a b ltac:(lia) ltac:(lia)) as Hx.
  destruct (Z.eq_dec (Z.lxor a b) 0) as [->|Hne].
  - rewrite poly_degree_0. pose proof (poly_degree_nonneg a Ha). lia.
  - assert (Hle : poly_degree (Z.lxor a b) <= poly_degree a)
      by (apply poly_degree_lxor_le; lia).
    rewrite !poly_degree_pos in * by lia.
    enough (Z.log2 (Z.lxor a b) <> Z.log2 a) by lia.
    intros Heq.
    assert (Hbit : Z.testbit (Z.lxor a b) (Z.log2 (Z.lxor a b)) = true)
      by (apply Z.bit_log2; lia).
    rewrite Z.lxor_spec, Heq in Hbit.
    rewrite (Z.bit_log2 a Ha) in Hbit.
    rewrite Hd, (Z.bit_log2 b Hb) in Hbit. discriminate.
Qed.

(** The leading term survives the XOR with a polynomial of lower
    degree. *)
Lemma poly_degree_lxor_lt (a b : Z) :
  0 < a -> 0 <= b -> poly_degree b < poly_degree a ->
  poly_degree (Z.lxor a b) = poly_degree a.
Proof.
  intros Ha Hb Hd.
  pose proof (lxor_nonneg' a b ltac:(lia) Hb) as Hx.
  assert (Hbit : Z.testbit (Z.lxor a b) (Z.log2 a) = true).
  { rewrite Z.lxor_spec, (Z.bit_log2 a Ha).
    destruct (Z.eq_dec b 0) as [->|Hb0].
    - now rewrite Z.bits_0.
    - rewrite (Z.bits_above_log2 b); [reflexivity|lia|].
      rewrite !poly_degree_pos in Hd by lia. lia. }
  assert (Hne : Z.lxor a b <> 0).
  { intros E. rewrite E, Z.bits_0 in Hbit. discriminate. }
  assert (Hle : poly_degree (Z.lxor a b) <= poly_degree a)
    by (apply poly_degree_lxor_le; lia).
  rewrite !poly_degree_pos in * by lia.
  enough (Z.log2 a <= Z.log2 (Z.lxor a b)) by lia.
  destruct (Z.le_gt_cases (Z.log2 a) (Z.log2 (Z.lxor a b))); [assumption|].
  rewrite Z.bits_above_log2 in Hbit; [discriminate|lia|lia].
Qed.

End Degree.

(** ** The long-division loop of [poly_mod] *)

Section PolyModLoop.

Variable h : Z.
Hypothesis h_pos : 0 < h.

Lemma deg_h_nonneg : 0 <= poly_degree h.
Proof. now apply poly_degree_nonneg. Qed.

(** More fuel never changes a result. *)
Lemma poly_mod_loop_mono (fuel fuel' : nat) (g d rem r : Z) :
  (fuel <= fuel')%nat ->
  poly_mod_loop fuel g d rem = Ok r -> poly_mod_loop fuel' g d rem = Ok r.
Proof.
  revert fuel' rem. induction fuel as [|fuel IH]; intros fuel' rem Hle Hrun.
  - discriminate.
  - destruct fuel' as [|fuel']; [lia|]. simpl in *.
    destruct (poly_degree rem >=? d); [|assumption].
    apply IH; [lia|assumption].
Qed.

(** One iteration: the leading term of the remainder is cancelled. *)
Lemma reduce_step_decreases (rem : Z) :
  0 <= rem -> poly_degree h <= poly_degree rem ->
  0 <= Z.lxor rem (Z.shiftl h (poly_degree rem - poly_degree h)) /\
  poly_degree (Z.lxor rem (Z.shiftl h (poly_degree rem - poly_degree h)))
    < poly_degree rem.
Proof.
  intros Hrem Hdeg. pose proof deg_h_nonneg as HD.
  assert (Hpos : 0 < rem).
  { destruct (Z.eq_dec rem 0) as [->|]; [|lia].
    rewrite poly_degree_0 in Hdeg. lia. }
  set (s := poly_degree rem - poly_degree h) in *.
  assert (Hs : 0 <= s) by (unfold s; lia).
  pose proof (shiftl_pos h s h_pos Hs) as Hhs.
  split.
  - apply lxor_nonneg'; lia.
  - apply poly_degree_lxor_cancel; [assumption|assumption|].
    rewrite poly_degree_shiftl by assumption. unfold s. lia.
Qed.

(** With enough fuel the loop returns a remainder of degree below that of
    [h], which differs from the dividend by a multiple of [h]. *)
Lemma poly_mod_loop_spec (fuel : nat) (rem : Z) :
  0 <= rem -> poly_degree rem + 2 <= Z.of_nat fuel ->
  exists r, poly_mod_loop fuel h (poly_degree h) rem = Ok r /\
            0 <= r /\ poly_degree r < poly_degree h /\
            multiple_of h (Z.lxor rem r).
Proof.
  revert rem. induction fuel as [|fuel IH]; intros rem Hrem Hfuel.
  - pose proof (poly_degree_ge_m1 rem). lia.
  - simpl. destruct (Z.geb_spec (poly_degree rem) (poly_degree h)) as [Hge|Hlt].
    + destruct (reduce_step_decreases rem Hrem ltac:(lia)) as [Hnn Hdec].
      destruct (IH _ Hnn ltac:(lia)) as (r & Hrun & Hr & Hdr & Hmul).
      exists r. repeat split; try assumption.
      replace (Z.lxor rem r) with
        (Z.lxor (Z.lxor (Z.lxor rem
           (Z.shiftl h (poly_degree rem - poly_degree h))) r)
           (Z.shiftl h (poly_degree rem - poly_degree h))).
      * apply multiple_step; [lia|assumption].
      * lxor_ac.
    + exists rem. repeat split; try assumption; try lia.
      rewrite Z.lxor_nilpotent. constructor.
Qed.

Lemma poly_mod_spec (y : Z) :
  0 <= y ->
  exists r, poly_mod y h = Ok r /\ 0 <= r /\
            poly_degree r < poly_degree h /\ multiple_of h (Z.lxor y r).
Proof.
  intros Hy. unfold poly_mod, poly_mod_fuel. apply poly_mod_loop_spec.
  - assumption.
  - pose proof (poly_degree_ge_m1 y). lia.
Qed.

(** The loop equation of [poly_mod], free of fuel. *)
Lemma poly_mod_unfold (y : Z) :
  0 <= y ->
  poly_mod y h =
    if poly_degree y >=? poly_degree h
    then poly_mod (Z.lxor y (Z.shiftl h (poly_degree y - poly_degree h))) h
    else Ok y.
Proof.
  intros Hy. pose proof (poly_degree_ge_m1 y) as Hm1.
  unfold poly_mod at 1. unfold poly_mod_fuel.
  destruct (Z.to_nat (poly_degree y + 2)) as [|fuel] eqn:Efuel; [lia|].
  simpl. destruct (Z.geb_spec (poly_degree y) (poly_degree h)) as [Hge|Hlt];
    [|reflexivity].
  destruct (reduce_step_decreases y Hy ltac:(lia)) as [Hnn Hdec].
  destruct (poly_mod_spec _ Hnn) as (r & Hrun & _).
  rewrite Hrun. apply poly_mod_loop_mono with (2 := Hrun).
  unfold poly_mod_fuel. lia.
Qed.

Lemma poly_mod_small (y : Z) :
  0 <= y -> poly_degree y < poly_degree h -> poly_mod y h = Ok y.
Proof.
  intros Hy Hd. rewrite poly_mod_unfold by assumption.
  destruct (Z.geb_spec (poly_degree y) (poly_degree h)); [lia|reflexivity].
Qed.

Lemma poly_mod_reduce (y : Z) :
  0 <= y -> poly_degree h <= poly_degree y ->
  poly_mod y h =
    poly_mod (Z.lxor y (Z.shiftl h (poly_degree y - poly_degree h))) h.
Proof.
  intros Hy Hd. rewrite poly_mod_unfold at 1 by assumption.
  destruct (Z.geb_spec (poly_degree y) (poly_degree h)); [reflexivity|lia].
Qed.

End PolyModLoop.

(** ** Reduction modulo [h] is canonical and linear *)

Section PolyModAlgebra.

Variable h : Z.
Hypothesis h_pos : 0 < h.

Lemma multiple_nonneg (z : Z) : multiple_of h z -> 0 <= z.
Proof.
  induction 1 as [|z s Hs _ IH]; [lia|].
  apply lxor_nonneg'; [assumption|].
  pose proof (shiftl_pos h s h_pos Hs). lia.
Qed.

Lemma multiple_lxor (z1 z2 : Z) :
  multiple_of h z1 -> multiple_of h z2 -> multiple_of h (Z.lxor z1 z2).
Proof.
  intros H1 H2. induction H2 as [|z s Hs _ IH].
  - now rewrite Z.lxor_0_r.
  - rewrite <- Z.lxor_assoc. now apply multiple_step.
Qed.

Lemma multiple_shiftl (z k : Z) :
  0 <= k -> multiple_of h z -> multiple_of h (Z.shiftl z k).
Proof.
  intros Hk H. induction H as [|z s Hs _ IH].
  - rewrite Z.shiftl_0_l. constructor.
  - rewrite Z.shiftl_lxor, Z.shiftl_shiftl by assumption.
    apply multiple_step; [lia|assumption].
Qed.

Lemma multiple_self_shiftl (s : Z) : 0 <= s -> multiple_of h (Z.shiftl h s).
Proof.
  intros Hs. rewrite <- (Z.lxor_0_l (Z.shiftl h s)).
  apply multiple_step; [assumption|constructor].
Qed.

(** Adding a shifted copy of [h] does not change the remainder.  The
    induction is on a common bound [m] of the two degrees. *)
Lemma poly_mod_lxor_shiftl_bounded (m : nat) :
  forall y s, 0 <= y -> 0 <= s ->
    poly_degree y < Z.of_nat m -> poly_degree h + s < Z.of_nat m ->
    poly_mod (Z.lxor y (Z.shiftl h s)) h = poly_mod y h.
Proof.
  pose proof (deg_h_nonneg h h_pos) as HD.
  induction m as [|m IH]; intros y s Hy Hs Hdy Hds; [lia|].
  pose proof (shiftl_pos h s h_pos Hs) as Hhs.
  pose proof (poly_degree_shiftl h s h_pos Hs) as Hdhs.
  set (n := Z.of_nat m) in *.
  assert (Hn : Z.of_nat (S m) = n + 1) by (unfold n; lia).
  destruct (Z.eq_dec (poly_degree y) n) as [Ey|Ny];
    destruct (Z.eq_dec (poly_degree h + s) n) as [Es|Ns].
  - (* both leading terms at [n]: this is one step of the loop *)
    rewrite (poly_mod_reduce h h_pos y) by lia.
    do 3 f_equal. lia.
  - (* only [y] reaches [n]: reduce both sides once *)
    assert (Hypos : 0 < y).
    { destruct (Z.eq_dec y 0) as [->|]; [rewrite poly_degree_0 in Ey|]; lia. }
    assert (Hd' : poly_degree (Z.lxor y (Z.shiftl h s)) = poly_degree y)
      by (apply poly_degree_lxor_lt; lia).
    destruct (reduce_step_decreases h h_pos y Hy ltac:(lia)) as [Hnn Hdec].
    rewrite (poly_mod_reduce h h_pos (Z.lxor y (Z.shiftl h s)))
      by (try apply lxor_nonneg'; lia).
    rewrite (poly_mod_reduce h h_pos y) by lia.
    rewrite Hd'.
    rewrite <- (IH (Z.lxor y (Z.shiftl h (poly_degree y - poly_degree h))) s)
      by lia.
    f_equal. lxor_ac.
  - (* only the shifted [h] reaches [n] *)
    assert (Hd' : poly_degree (Z.lxor y (Z.shiftl h s)) = poly_degree h + s).
    { rewrite Z.lxor_comm, <- Hdhs. apply poly_degree_lxor_lt; lia. }
    rewrite (poly_mod_reduce h h_pos (Z.lxor y (Z.shiftl h s)))
      by (try apply lxor_nonneg'; lia).
    rewrite Hd'. replace (poly_degree h + s - poly_degree h) with s by lia.
    now rewrite Z.lxor_assoc, Z.lxor_nilpotent, Z.lxor_0_r.
  - apply IH; lia.
Qed.

Lemma poly_mod_lxor_shiftl (y s : Z) :
  0 <= y -> 0 <= s ->
  poly_mod (Z.lxor y (Z.shiftl h s)) h = poly_mod y h.
Proof.
  intros Hy Hs. pose proof (poly_degree_ge_m1 y).
  pose proof (deg_h_nonneg h h_pos).
  apply (poly_mod_lxor_shiftl_bounded
           (Z.to_nat (Z.max (poly_degree y) (poly_degree h + s) + 1))); lia.
Qed.

(** Multiples of [h] are absorbed by the reduction. *)
Lemma poly_mod_absorb (y z : Z) :
  0 <= y -> multiple_of h z -> poly_mod (Z.lxor y z) h = poly_mod y h.
Proof.
  intros Hy Hz. induction Hz as [|z s Hs Hz IH].
  - now rewrite Z.lxor_0_r.
  - rewrite <- Z.lxor_assoc, poly_mod_lxor_shiftl; [assumption| |assumption].
    apply lxor_nonneg'; [assumption|now apply multiple_nonneg].
Qed.

Lemma poly_mod_multiple (z : Z) : multiple_of h z -> poly_mod z h = Ok 0.
Proof.
  intros Hz. rewrite <- (Z.lxor_0_l z), poly_mod_absorb by (assumption || lia).
  apply poly_mod_small; [assumption|lia|].
  rewrite poly_degree_0. pose proof (deg_h_nonneg h h_pos). lia.
Qed.

(** A remainder candidate of low degree that is congruent to [y] is the
    remainder. *)
Lemma poly_mod_unique (y r : Z) :
  0 <= y -> 0 <= r -> poly_degree r < poly_degree h ->
  multiple_of h (Z.lxor y r) -> poly_mod y h = Ok r.
Proof.
  intros Hy Hr Hd Hm.
  rewrite <- (poly_mod_small h h_pos r Hr Hd).
  rewrite <- (poly_mod_absorb r (Z.lxor y r)) by assumption.
  f_equal. lxor_ac.
Qed.

Lemma poly_mod_idempotent (y r : Z) :
  0 <= y -> poly_mod y h = Ok r -> poly_mod r h = Ok r.
Proof.
  intros Hy Hrun.
  destruct (poly_mod_spec h h_pos y Hy) as (r' & Hrun' & Hr & Hd & _).
  assert (r' = r) by congruence. subst r'.
  now apply poly_mod_small.
Qed.

(** Reduction is additive. *)
Lemma poly_mod_lxor (x y rx ry : Z) :
  0 <= x -> 0 <= y -> poly_mod x h = Ok rx -> poly_mod y h = Ok ry ->
  poly_mod (Z.lxor x y) h = Ok (Z.lxor rx ry).
Proof.
  intros Hx Hy Hrx Hry.
  destruct (poly_mod_spec h h_pos x Hx) as (rx' & Hrx' & Hx0 & Hdx & Hmx).
  destruct (poly_mod_spec h h_pos y Hy) as (ry' & Hry' & Hy0 & Hdy & Hmy).
  assert (rx' = rx) by congruence. assert (ry' = ry) by congruence.
  subst rx' ry'.
  apply poly_mod_unique.
  - now apply lxor_nonneg'.
  - now apply lxor_nonneg'.
  - enough (poly_degree (Z.lxor rx ry) <= poly_degree h - 1) by lia.
    apply poly_degree_lxor_le; lia.
  - replace (Z.lxor (Z.lxor x y) (Z.lxor rx ry))
      with (Z.lxor (Z.lxor x rx) (Z.lxor y ry)).
    + now apply multiple_lxor.
    + lxor_ac.
Qed.

(** Reduction commutes with multiplication by [x^k]. *)
Lemma poly_mod_shiftl (y r k : Z) :
  0 <= y -> 0 <= k -> poly_mod y h = Ok r ->
  poly_mod (Z.shiftl y k) h = poly_mod (Z.shiftl r k) h.
Proof.
  intros Hy Hk Hrun.
  destruct (poly_mod_spec h h_pos y Hy) as (r' & Hrun' & Hr & Hd & Hm).
  assert (r' = r) by congruence. subst r'.
  rewrite <- (poly_mod_absorb (Z.shiftl r k) (Z.shiftl (Z.lxor y r) k)).
  - f_equal. rewrite Z.shiftl_lxor. lxor_ac.
  - now apply Z.shiftl_nonneg.
  - now apply multiple_shiftl.
Qed.

End PolyModAlgebra.

(** ** Bit positions and carry-less multiplication *)

Section BitPositions.

Lemma get_bit_positions_loop_pos (p : positive) :
  forall fuel position positions,
    (Pos.size_nat p < fuel)%nat ->
    get_bit_positions_loop fuel (Zpos p) position positions
    = Ok (positions ++ bit_positions_pos p position).
Proof.
  induction p as [q IH|q IH|]; intros fuel position positions Hfuel;
    simpl in Hfuel; (destruct fuel as [|fuel]; [lia|]).
  - change (get_bit_positions_loop (S fuel) (Zpos q~1) position positions)
      with (get_bit_positions_loop fuel (Zpos q) (position + 1)
              (positions ++ [position])).
    rewrite IH by lia. now rewrite <- app_assoc.
  - change (get_bit_positions_loop (S fuel) (Zpos q~0) position positions)
      with (get_bit_positions_loop fuel (Zpos q) (position + 1) positions).
    now rewrite IH by lia.
  - destruct fuel as [|fuel]; [lia|]. reflexivity.
Qed.

Lemma size_nat_log2 (p : positive) :
  Z.of_nat (Pos.size_nat p) = Z.log2 (Zpos p) + 1.
Proof.
  assert (H : forall q, Z.of_nat (Pos.size_nat q) = Zpos (Pos.size q)).
  { induction q as [q IH|q IH|]; simpl Pos.size_nat; simpl Pos.size;
      rewrite ?Nat2Z.inj_succ, ?IH, ?Pos2Z.inj_succ; reflexivity. }
  destruct p as [q|q|]; simpl Pos.size_nat; simpl Z.log2;
    rewrite ?Nat2Z.inj_succ, ?H; lia.
Qed.

Lemma get_bit_positions_nonneg (n : Z) :
  0 <= n -> get_bit_positions n = Ok (bit_positions n).
Proof.
  intros Hn. destruct n as [|p|p]; [reflexivity| |lia].
  unfold get_bit_positions, get_bit_positions_fuel.
  rewrite get_bit_positions_loop_pos; [reflexivity|].
  pose proof (size_nat_log2 p). rewrite int_bit_length_pos by lia. lia.
Qed.

(** On a negative integer the loop of [get_bit_positions] never ends:
    the arithmetic shift keeps the sign. *)
Lemma get_bit_positions_loop_neg (fuel : nat) :
  forall n position positions,
    n < 0 -> get_bit_positions_loop fuel n position positions = OutOfFuel.
Proof.
  induction fuel as [|fuel IH]; intros n position positions Hn;
    [reflexivity|].
  simpl. destruct (Z.eqb_spec n 0); [lia|].
  apply IH. apply Z.shiftr_neg. assumption.
Qed.

Lemma fold_positions_clmul (p : Z) (a : positive) :
  forall k acc, 0 <= k ->
    fold_left (fun out i => Z.lxor out (Z.shiftl p i))
              (bit_positions_pos a k) acc
    = Z.lxor acc (Z.shiftl (clmul_pos a p) k).
Proof.
  induction a as [a' IH|a' IH|]; intros k acc Hk;
    cbn [bit_positions_pos clmul_pos fold_left].
  - rewrite IH by lia. rewrite Z.shiftl_lxor, Z.shiftl_shiftl by lia.
    rewrite (Z.add_comm 1 k). lxor_ac.
  - rewrite IH by lia. rewrite Z.shiftl_shiftl by lia.
    now rewrite (Z.add_comm 1 k).
  - reflexivity.
Qed.

Lemma poly_affine_clmul (a p c : Z) :
  0 <= a -> poly_affine a p c = Ok (Z.lxor (clmul a p) c).
Proof.
  intros Ha. unfold poly_affine.
  rewrite get_bit_positions_nonneg by assumption. simpl bind.
  destruct a as [|a'|a']; [reflexivity| |lia].
  simpl bit_positions. rewrite fold_positions_clmul by lia.
  now rewrite Z.shiftl_0_r, Z.lxor_0_l.
Qed.

End BitPositions.

Section Clmul.

Lemma clmul_pos_lxor_r (a : positive) (x y : Z) :
  clmul_pos a (Z.lxor x y) = Z.lxor (clmul_pos a x) (clmul_pos a y).
Proof.
  induction a as [a' IH|a' IH|]; cbn [clmul_pos];
    rewrite ?IH, ?Z.shiftl_lxor; [lxor_ac|reflexivity|reflexivity].
Qed.

Lemma clmul_pos_shiftl_r (a : positive) (x k : Z) :
  0 <= k -> clmul_pos a (Z.shiftl x k) = Z.shiftl (clmul_pos a x) k.
Proof.
  intros Hk. induction a as [a' IH|a' IH|]; cbn [clmul_pos];
    rewrite ?IH, ?Z.shiftl_lxor, ?Z.shiftl_shiftl by lia;
    try rewrite (Z.add_comm k 1); reflexivity.
Qed.

Lemma clmul_pos_0_r (a : positive) : clmul_pos a 0 = 0.
Proof.
  induction a as [a' IH|a' IH|]; cbn [clmul_pos];
    rewrite ?IH, ?Z.shiftl_0_l; reflexivity.
Qed.

Lemma clmul_pos_1_r (a : positive) : clmul_pos a 1 = Zpos a.
Proof.
  induction a as [a' IH|a' IH|]; cbn [clmul_pos]; rewrite ?IH; reflexivity.
Qed.

Lemma clmul_pos_comm (a b : positive) :
  clmul_pos a (Zpos b) = clmul_pos b (Zpos a).
Proof.
  induction a as [a' IH|a' IH|]; cbn [clmul_pos].
  - change (Zpos a'~1) with (Z.lxor 1 (Z.shiftl (Zpos a') 1)).
    rewrite clmul_pos_lxor_r, clmul_pos_shiftl_r, clmul_pos_1_r, IH by lia.
    reflexivity.
  - change (Zpos a'~0) with (Z.shiftl (Zpos a') 1).
    now rewrite clmul_pos_shiftl_r, IH by lia.
  - now rewrite clmul_pos_1_r.
Qed.

Lemma clmul_comm (a p : Z) : 0 <= a -> 0 <= p -> clmul a p = clmul p a.
Proof.
  intros Ha Hp. destruct a as [|a'|a'], p as [|p'|p']; try lia;
    cbn [clmul]; rewrite ?clmul_pos_0_r; try reflexivity.
  apply clmul_pos_comm.
Qed.

Lemma clmul_lxor_r (a x y : Z) :
  clmul a (Z.lxor x y) = Z.lxor (clmul a x) (clmul a y).
Proof.
  destruct a; cbn [clmul]; [reflexivity|apply clmul_pos_lxor_r|reflexivity].
Qed.

Lemma clmul_lxor_l (x y p : Z) :
  0 <= x -> 0 <= y -> 0 <= p ->
  clmul (Z.lxor x y) p = Z.lxor (clmul x p) (clmul y p).
Proof.
  intros Hx Hy Hp.
  rewrite (clmul_comm (Z.lxor x y)) by (try apply lxor_nonneg'; lia).
  rewrite (clmul_comm x), (clmul_comm y) by lia.
  apply clmul_lxor_r.
Qed.

Lemma clmul_nonneg (a p : Z) : 0 <= p -> 0 <= clmul a p.
Proof.
  intros Hp. destruct a as [|a'|a']; cbn [clmul]; try lia.
  induction a' as [a' IH|a' IH|]; cbn [clmul_pos].
  - apply lxor_nonneg'; [assumption|]. now apply Z.shiftl_nonneg.
  - now apply Z.shiftl_nonneg.
  - assumption.
Qed.

(** Multiples of [h] are closed under multiplication. *)
Lemma multiple_clmul (h p z : Z) :
  multiple_of h z -> multiple_of h (clmul p z).
Proof.
  intros Hz. destruct p as [|p'|p']; cbn [clmul]; try constructor.
  induction p' as [p' IH|p' IH|]; cbn [clmul_pos].
  - apply multiple_lxor; [assumption|]. apply multiple_shiftl; [lia|exact IH].
  - apply multiple_shiftl; [lia|exact IH].
  - assumption.
Qed.

End Clmul.

(** * Claims about the polynomial arithmetic *)

(** C1: for every polynomial [y >= 0] and modulus [h >= 1], [poly_mod y h]
    returns a remainder of degree below the degree of [h], and reducing the
    remainder again returns it unchanged. *)
Theorem poly_mod_degree_idempotent (y h : Z) :
  0 <= y -> 1 <= h ->
  exists r, poly_mod y h = Ok r /\
            poly_degree r < poly_degree h /\
            poly_mod r h = Ok r.
Proof.
  intros Hy Hh.
  destruct (poly_mod_spec h ltac:(lia) y Hy) as (r & Hrun & Hr & Hd & _).
  exists r. repeat split; try assumption.
  apply poly_mod_small; [lia|assumption|assumption].
Qed.

Lemma poly_mod_degree_idempotent_witness :
  exists r, poly_mod 4096 285 = Ok r /\
            poly_degree r < poly_degree 285 /\
            poly_mod r 285 = Ok r.
Proof. apply (poly_mod_degree_idempotent 4096 285); lia. Defined.

(** With a zero modulus the loop condition of [poly_mod] never fails. *)
Lemma poly_mod_loop_zero_modulus (fuel : nat) (y : Z) :
  poly_mod_loop fuel 0 (poly_degree 0) y = OutOfFuel.
Proof.
  revert y. induction fuel as [|fuel IH]; intros y; [reflexivity|].
  simpl. pose proof (poly_degree_ge_m1 y).
  destruct (Z.geb_spec (poly_degree y) (poly_degree 0)) as [_|Hlt].
  - apply IH.
  - rewrite poly_degree_0 in Hlt. lia.
Qed.

(** For [y >= 0] and [h >= 1] the loop of [poly_mod] terminates (every
    fuel from [poly_mod_fuel y] on gives the same result), because each
    iteration strictly decreases the degree of the remainder; with [h = 0]
    the loop never terminates, and the command line of the PRNG tool
    rejects [h = 0] before [poly_mod] is called. *)
Theorem poly_mod_terminates :
  (forall y h, 0 <= y -> 1 <= h ->
     exists r, forall fuel, (poly_mod_fuel y <= fuel)%nat ->
       poly_mod_loop fuel h (poly_degree h) y = Ok r) /\
  (forall h rem, 1 <= h -> 0 <= rem -> poly_degree rem >= poly_degree h ->
     let shift := poly_degree rem - poly_degree h in
     poly_degree (Z.lxor rem (Z.shiftl h shift)) < poly_degree rem) /\
  (forall y fuel, poly_mod_loop fuel 0 (poly_degree 0) y = OutOfFuel) /\
  (forall arg_a arg_c,
     gf2e_prng_tool.main_parameters arg_a arg_c 0 = Raise ArgumentTypeError).
Proof.
  repeat split.
  - intros y h Hy Hh.
    destruct (poly_mod_spec h ltac:(lia) y Hy) as (r & Hrun & _).
    exists r. intros fuel Hfuel.
    now apply poly_mod_loop_mono with (2 := Hrun).
  - intros h rem Hh Hrem Hdeg shift.
    apply reduce_step_decreases; lia.
  - intros y fuel. apply poly_mod_loop_zero_modulus.
  - intros arg_a arg_c.
    unfold gf2e_prng_tool.main_parameters, gf2e_prng_tool.argument_parser.
    unfold gf2e_prng_tool.positive_int, gf2e_prng_tool.nonnegative_int.
    destruct (arg_a <=? 0); [reflexivity|].
    destruct (arg_c <? 0); reflexivity.
Qed.

Lemma poly_mod_terminates_witness :
  (exists r, forall fuel, (poly_mod_fuel 4096 <= fuel)%nat ->
     poly_mod_loop fuel 285 (poly_degree 285) 4096 = Ok r) /\
  poly_degree (Z.lxor 4096 (Z.shiftl 285 (poly_degree 4096 - poly_degree 285)))
    < poly_degree 4096.
Proof.
  split.
  - apply (proj1 poly_mod_terminates 4096 285); lia.
  - apply (proj1 (proj2 poly_mod_terminates) 285 4096); vm_compute; congruence.
Defined.

(** C6: reducing the constants [a] and [c] modulo [h] beforehand does not
    change the recurrence: for [a >= 0], [c >= 0], a modulus of degree at
    least 1 and a field element [p], both calls of [poly_affine_mod] return
    the same element. *)
Theorem prereduction_preserves_recurrence (a c h p : Z) :
  0 <= a -> 0 <= c -> 0 <= h -> 1 <= poly_degree h ->
  0 <= p -> poly_degree p < poly_degree h ->
  exists a' c' r,
    poly_mod a h = Ok a' /\ poly_mod c h = Ok c' /\
    poly_affine_mod a p c h = Ok r /\
    poly_affine_mod a' p c' h = Ok r.
Proof.
  intros Ha Hc Hh HD Hp _.
  assert (h_pos : 0 < h).
  { destruct (Z.eq_dec h 0) as [->|]; [rewrite poly_degree_0 in HD|]; lia. }
  destruct (poly_mod_spec h h_pos a Ha) as (a' & Hrun_a & Ha' & _ & Hma).
  destruct (poly_mod_spec h h_pos c Hc) as (c' & Hrun_c & Hc' & _ & Hmc).
  assert (Hnn : 0 <= Z.lxor (clmul a' p) c')
    by (apply lxor_nonneg'; [now apply clmul_nonneg|assumption]).
  destruct (poly_mod_spec h h_pos _ Hnn) as (r & Hrun & _).
  exists a', c', r. repeat split; try assumption.
  - unfold poly_affine_mod. rewrite poly_affine_clmul by assumption.
    cbn [bind]. rewrite <- Hrun.
    rewrite <- (poly_mod_absorb h h_pos (Z.lxor (clmul a' p) c')
                  (Z.lxor (clmul p (Z.lxor a a')) (Z.lxor c c'))).
    + f_equal. rewrite clmul_lxor_r.
      rewrite (clmul_comm p a), (clmul_comm p a') by assumption. lxor_ac.
    + assumption.
    + apply multiple_lxor; [now apply multiple_clmul|assumption].
  - unfold poly_affine_mod. rewrite poly_affine_clmul by assumption.
    exact Hrun.
Qed.

Lemma prereduction_preserves_recurrence_witness :
  exists a' c' r,
    poly_mod 1000 285 = Ok a' /\ poly_mod 700 285 = Ok c' /\
    poly_affine_mod 1000 200 700 285 = Ok r /\
    poly_affine_mod a' 200 c' 285 = Ok r.
Proof.
  apply (prereduction_preserves_recurrence 1000 700 285 200);
    vm_compute; congruence.
Defined.

(** * Properties of the XOR tree *)

Section XorTreeStages.

Import XorTree xor_tree_generator.

(** Induction on a list two elements at a time, as the inner loop of the
    generator walks it. *)
Lemma pair_induction {A : Type} (P : list A -> Prop) :
  P [] -> (forall a, P [a]) -> (forall a b l, P l -> P (a :: b :: l)) ->
  forall l, P l.
Proof.
  intros Hnil Hone Hstep.
  assert (H : forall n l, (length l <= n)%nat -> P l).
  { induction n as [|n IH]; intros l Hl.
    - destruct l; [apply Hnil|simpl in Hl; lia].
    - destruct l as [|a [|b rest]]; [apply Hnil|apply Hone|].
      apply Hstep, IH. simpl in Hl. lia. }
  intros l. now apply (H (length l)).
Qed.

(** What one stage adds: its wires and its assignments, numbered from
    [k]. *)
Fixpoint stage_wires (stage : Z) (current_level : list wire) (k : nat)
    : list wire :=
  match current_level with
  | _ :: _ :: rest => (stage, Z.of_nat k) :: stage_wires stage rest (S k)
  | [_] => [(stage, Z.of_nat k)]
  | [] => []
  end.

Fixpoint stage_stmts (stage : Z) (current_level : list wire) (k : nat)
    : list stmt :=
  match current_level with
  | a :: b :: rest =>
      Xor2 (stage, Z.of_nat k) a b :: stage_stmts stage rest (S k)
  | [a] => [Pass (stage, Z.of_nat k) a]
  | [] => []
  end.

(** The values one stage computes from the values of the level below. *)
Fixpoint pair_xor (vs : list Z) : list Z :=
  match vs with
  | va :: vb :: rest => Z.lxor va vb :: pair_xor rest
  | [va] => [va]
  | [] => []
  end.

Lemma tree_stage_eq (stage : Z) (current_level : list wire) :
  forall next_level lines,
    tree_stage stage current_level next_level lines
    = (next_level ++ stage_wires stage current_level (length next_level),
       lines ++ stage_stmts stage current_level (length next_level)).
Proof.
  induction current_level as [|a|a b rest IH] using pair_induction;
    intros next_level lines; cbn [tree_stage stage_wires stage_stmts].
  - now rewrite !app_nil_r.
  - reflexivity.
  - rewrite IH, length_app, <- !app_assoc. cbn [length app].
    now rewrite Nat.add_1_r.
Qed.

Lemma stage_wires_not_nil (stage : Z) (current_level : list wire) (k : nat) :
  current_level <> [] -> stage_wires stage current_level k <> [].
Proof. destruct current_level as [|a [|b rest]]; simpl; congruence. Qed.

Lemma stage_wires_stage (stage : Z) (current_level : list wire) :
  forall k w, In w (stage_wires stage current_level k) -> fst w = stage.
Proof.
  induction current_level as [|a|a b rest IH] using pair_induction;
    intros k w Hin; cbn [stage_wires] in Hin.
  - destruct Hin.
  - destruct Hin as [<-|[]]. reflexivity.
  - destruct Hin as [<-|Hin]; [reflexivity|]. now apply (IH (S k)).
Qed.

Lemma xor_integers_acc (vs : list Z) (acc : Z) :
  fold_left (fun result v => Z.lxor result v) vs acc
  = Z.lxor acc (xor_integers vs).
Proof.
  unfold xor_integers. revert acc.
  induction vs as [|v vs IH]; intros acc; cbn [fold_left].
  - now rewrite Z.lxor_0_r.
  - rewrite IH, (IH (Z.lxor 0 v)). lxor_ac.
Qed.

Lemma xor_integers_cons (v : Z) (vs : list Z) :
  xor_integers (v :: vs) = Z.lxor v (xor_integers vs).
Proof.
  unfold xor_integers at 1. cbn [fold_left].
  now rewrite xor_integers_acc, Z.lxor_0_l.
Qed.

Lemma xor_integers_app (vs ws : list Z) :
  xor_integers (vs ++ ws) = Z.lxor (xor_integers vs) (xor_integers ws).
Proof.
  unfold xor_integers at 1. rewrite fold_left_app.
  now rewrite xor_integers_acc.
Qed.

Lemma xor_integers_rev (vs : list Z) :
  xor_integers (rev vs) = xor_integers vs.
Proof.
  induction vs as [|v vs IH]; [reflexivity|].
  cbn [rev]. rewrite xor_integers_app, IH, !xor_integers_cons.
  change (xor_integers []) with 0. lxor_ac.
Qed.

(** A stage leaves the XOR of the level unchanged. *)
Lemma xor_integers_pair_xor (vs : list Z) :
  xor_integers (pair_xor vs) = xor_integers vs.
Proof.
  induction vs as [|va|va vb rest IH] using pair_induction;
    cbn [pair_xor]; try reflexivity.
  rewrite !xor_integers_cons, IH. lxor_ac.
Qed.

End XorTreeStages.

Section XorTreeExecution.

Import XorTree xor_tree_generator.

Variables width in_vectors : Z.

(** [level_values env level vs]: the wires of [level] carry the values
    [vs]. *)
Definition level_values (env : valuation) (level : list wire)
    (vs : list Z) : Prop :=
  Forall2 (fun w v => env w = Some v) level vs.

Lemma exec_body_app (l1 l2 : list stmt) (env : valuation) :
  exec_body width in_vectors (l1 ++ l2) env =
  match exec_body width in_vectors l1 env with
  | Some env' => exec_body width in_vectors l2 env'
  | None => None
  end.
Proof.
  revert env. induction l1 as [|st l1 IH]; intros env; cbn [app exec_body].
  - reflexivity.
  - destruct (exec_stmt width in_vectors st env); [apply IH|reflexivity].
Qed.

Lemma wire_eqb_eq (w1 w2 : wire) : wire_eqb w1 w2 = true <-> w1 = w2.
Proof.
  destruct w1 as [s1 i1], w2 as [s2 i2]. unfold wire_eqb. cbn [fst snd].
  rewrite andb_true_iff, !Z.eqb_eq. split.
  - intros [-> ->]. reflexivity.
  - intros [= -> ->]. split; reflexivity.
Qed.

Lemma assign_same (w : wire) (v : Z) (env : valuation) :
  assign w v env w = Some v.
Proof.
  unfold assign. now rewrite (proj2 (wire_eqb_eq w w) eq_refl).
Qed.

Lemma assign_other (w w' : wire) (v : Z) (env : valuation) :
  w <> w' -> assign w v env w' = env w'.
Proof.
  intros Hne. unfold assign.
  destruct (wire_eqb w w') eqn:E; [|reflexivity].
  apply wire_eqb_eq in E. contradiction.
Qed.

Lemma level_values_frame (env env' : valuation) (level : list wire)
    (vs : list Z) :
  (forall w, In w level -> env' w = env w) ->
  level_values env level vs -> level_values env' level vs.
Proof.
  intros Hframe Hlv. induction Hlv as [|w v level vs Hw _ IH].
  - constructor.
  - constructor.
    + rewrite Hframe by (left; reflexivity). exact Hw.
    + apply IH. intros w' Hin. apply Hframe. now right.
Qed.

(** One stage of the tree: the new wires carry the pairwise XOR of the
    level below, and no other stage is touched. *)
Lemma exec_stage (stage : Z) (current_level : list wire) :
  forall (vs : list Z) (k : nat) (env : valuation),
    level_values env current_level vs ->
    (forall w, In w current_level -> fst w <> stage) ->
    exists env',
      exec_body width in_vectors (stage_stmts stage current_level k) env
      = Some env' /\
      level_values env' (stage_wires stage current_level k) (pair_xor vs) /\
      (forall w, fst w <> stage \/ snd w < Z.of_nat k -> env' w = env w).
Proof.
  induction current_level as [|a|a b rest IH] using pair_induction;
    intros vs k env Hlv Hstage.
  - inversion Hlv; subst. exists env. repeat split; constructor.
  - inversion Hlv as [|w va l1 l2 Ha Hrest]; subst.
    inversion Hrest; subst.
    exists (assign (stage, Z.of_nat k) va env).
    cbn [stage_stmts stage_wires pair_xor exec_body exec_stmt].
    rewrite Ha. repeat split.
    + constructor; [apply assign_same|constructor].
    + intros w Hw. apply assign_other.
      intros <-. cbn [fst snd] in Hw. lia.
  - inversion Hlv as [|w va l1 l2 Ha Hrest]; subst.
    inversion Hrest as [|w vb l1 l2' Hb Hrest']; subst.
    cbn [stage_stmts stage_wires pair_xor exec_body exec_stmt].
    rewrite Ha, Hb.
    set (env1 := assign (stage, Z.of_nat k) (Z.lxor va vb) env).
    assert (Hframe1 : forall w, fst w <> stage \/ snd w < Z.of_nat k ->
                                env1 w = env w).
    { intros w Hw. apply assign_other.
      intros <-. cbn [fst snd] in Hw. lia. }
    destruct (IH l2' (S k) env1) as (env' & Hrun & Hlv' & Hframe').
    + apply level_values_frame with (env := env); [|assumption].
      intros w Hin. apply Hframe1. left. apply Hstage. now do 2 right.
    + intros w Hin. apply Hstage. now do 2 right.
    + exists env'. repeat split.
      * exact Hrun.
      * constructor; [|exact Hlv'].
        rewrite Hframe' by (right; cbn [snd]; lia). apply assign_same.
      * intros w Hw. rewrite Hframe' by lia. now apply Hframe1.
Qed.

Lemma tree_loop_done (stage : Z) (current_level : list wire)
    (lines : list stmt) :
  (length current_level <= 1)%nat ->
  tree_loop stage current_level lines = (current_level, lines).
Proof.
  intros Hle. simp tree_loop.
  destruct (le_lt_dec (length current_level) 1); [reflexivity|lia].
Qed.

Lemma tree_loop_step (stage : Z) (current_level : list wire)
    (lines : list stmt) :
  (1 < length current_level)%nat ->
  tree_loop stage current_level lines =
  tree_loop (stage + 1)
    (fst (tree_stage stage current_level [] lines))
    (snd (tree_stage stage current_level [] lines)).
Proof.
  intros Hgt. rewrite tree_loop_equation_1 at 1.
  destruct (le_lt_dec (length current_level) 1); [lia|reflexivity].
Qed.

(** The whole tree: from a non-empty level with values [vs], the loop
    ends on a single wire that carries the XOR of [vs]. *)
Lemma exec_tree_loop (n : nat) :
  forall (stage : Z) (current_level : list wire) (lines : list stmt)
         (vs : list Z) (env0 env : valuation),
    (length current_level <= n)%nat ->
    current_level <> [] ->
    exec_body width in_vectors lines env0 = Some env ->
    level_values env current_level vs ->
    (forall w, In w current_level -> fst w < stage) ->
    exists final lines' env',
      tree_loop stage current_level lines = ([final], lines') /\
      exec_body width in_vectors lines' env0 = Some env' /\
      env' final = Some (xor_integers vs).
Proof.
  induction n as [|n IH];
    intros stage current_level lines vs env0 env Hlen Hne Hrun Hlv Hstage.
  - destruct current_level; [contradiction|simpl in Hlen; lia].
  - destruct (le_lt_dec (length current_level) 1) as [Hle|Hgt].
    + rewrite tree_loop_done by assumption.
      destruct current_level as [|w [|w' rest]];
        [contradiction| |simpl in Hle; lia].
      inversion Hlv as [|w0 v l1 l2 Hw Hrest]; subst.
      inversion Hrest; subst.
      exists w, lines, env. repeat split; [assumption|].
      rewrite Hw. unfold xor_integers. cbn [fold_left].
      now rewrite Z.lxor_0_l.
    + rewrite tree_loop_step by assumption.
      rewrite tree_stage_eq. cbn [fst snd app length].
      destruct (exec_stage stage current_level vs 0 env Hlv) as
        (env1 & Hrun1 & Hlv1 & _).
      { intros w Hin. specialize (Hstage w Hin). lia. }
      destruct (IH (stage + 1) (stage_wires stage current_level 0)
                  (lines ++ stage_stmts stage current_level 0)
                  (pair_xor vs) env0 env1) as
        (final & lines' & env' & Hloop & Hrun' & Hfinal).
      * pose proof (tree_stage_shrinks stage current_level lines Hgt) as Hs.
        rewrite tree_stage_eq in Hs. cbn [fst app length] in Hs. lia.
      * now apply stage_wires_not_nil.
      * rewrite exec_body_app, Hrun. exact Hrun1.
      * exact Hlv1.
      * intros w Hin. apply stage_wires_stage in Hin. lia.
      * exists final, lines', env'. repeat split; try assumption.
        now rewrite Hfinal, xor_integers_pair_xor.
Qed.

End XorTreeExecution.

Section XorTreeInput.

Import XorTree xor_tree_generator.

Variable width : Z.
Hypothesis width_nonneg : 0 <= width.

(** The vector that the generated module unpacks into [vec_0_i]. *)
Definition slot (x i : Z) : Z :=
  Z.land (part_select x ((i + 1) * width - 1) (i * width)) (Z.ones width).

Lemma slot_testbit (x i k : Z) :
  0 <= k ->
  Z.testbit (slot x i) k = Z.testbit x (k + i * width) && (k <? width).
Proof.
  intros Hk. unfold slot, part_select.
  replace ((i + 1) * width - 1 - i * width + 1) with width by ring.
  rewrite !Z.land_spec, Z.shiftr_spec, Z.testbit_ones_nonneg by assumption.
  now destruct (Z.testbit x (k + i * width)), (k <? width).
Qed.

Lemma concatenation_high_bits (vs : list Z) :
  forall n, width * Z.of_nat (length vs) <= n ->
            Z.testbit (concatenation width vs) n = false.
Proof.
  induction vs as [|v rest IH]; intros n Hn; cbn [concatenation].
  - apply Z.bits_0.
  - cbn [length] in Hn. rewrite Nat2Z.inj_succ in Hn.
    assert (0 <= n) by nia.
    rewrite Z.lor_spec, Z.shiftl_spec, Z.land_spec by assumption.
    rewrite Z.testbit_ones by assumption.
    rewrite IH by nia.
    destruct (Z.ltb_spec (n - width * Z.of_nat (length rest)) width);
      [nia|].
    now rewrite !andb_false_r.
Qed.

Lemma concatenation_port (vs : list Z) :
  Z.land (concatenation width vs)
         (Z.ones (Z.of_nat (length vs) * width))
  = concatenation width vs.
Proof.
  apply Z.bits_inj'. intros n Hn.
  rewrite Z.land_spec, Z.testbit_ones_nonneg by nia.
  destruct (Z.ltb_spec n (Z.of_nat (length vs) * width)).
  - apply andb_true_r.
  - rewrite concatenation_high_bits by nia. reflexivity.
Qed.

Lemma range_succ (n : nat) :
  range (Z.of_nat (S n)) = range (Z.of_nat n) ++ [Z.of_nat n].
Proof.
  unfold range. rewrite !Nat2Z.id, seq_S, map_app. reflexivity.
Qed.

Lemma in_range (n : nat) (i : Z) :
  In i (range (Z.of_nat n)) -> 0 <= i < Z.of_nat n.
Proof.
  unfold range. rewrite Nat2Z.id, in_map_iff.
  intros (k & <- & Hk). apply in_seq in Hk. lia.
Qed.

(** The slots of a concatenation are its elements, last one first. *)
Lemma concatenation_slots (vs : list Z) :
  map (slot (concatenation width vs)) (range (Z.of_nat (length vs)))
  = rev (map (fun v => Z.land v (Z.ones width)) vs).
Proof.
  induction vs as [|v rest IH]; [reflexivity|].
  cbn [length map rev]. rewrite range_succ, map_app. f_equal.
  - rewrite <- IH. apply map_ext_in. intros i Hi. apply in_range in Hi.
    apply Z.bits_inj'. intros k Hk. rewrite !slot_testbit by assumption.
    destruct (Z.ltb_spec k width); [|now rewrite !andb_false_r].
    cbn [concatenation]. rewrite Z.lor_spec.
    rewrite Z.shiftl_spec_low by nia. reflexivity.
  - cbn [map]. f_equal.
    apply Z.bits_inj'. intros k Hk. rewrite slot_testbit by assumption.
    cbn [concatenation].
    rewrite Z.lor_spec, Z.shiftl_spec, !Z.land_spec by nia.
    rewrite concatenation_high_bits by nia.
    replace (k + Z.of_nat (length rest) * width
             - width * Z.of_nat (length rest)) with k by ring.
    rewrite Z.testbit_ones_nonneg by assumption.
    now destruct (Z.testbit v k), (k <? width).
Qed.

(** The unpacking assignments give [vec_0_i] the value of slot [i]. *)
Lemma exec_unpack (x : Z) (idxs : list Z) :
  forall env,
  exists env',
    exec_body width x
      (map (fun i => Unpack (0, i) ((i + 1) * width - 1) (i * width)) idxs)
      env = Some env' /\
    level_values env' (map (fun i => (0, i)) idxs) (map (slot x) idxs).
Proof.
  assert (H : forall env, exists env',
    exec_body width x
      (map (fun i => Unpack (0, i) ((i + 1) * width - 1) (i * width)) idxs)
      env = Some env' /\
    (forall i, In i idxs -> env' (0, i) = Some (slot x i)) /\
    (forall w, ~ In w (map (fun i => (0, i)) idxs) -> env' w = env w)).
  { induction idxs as [|i idxs IH]; intros env.
    - exists env. split; [reflexivity|]. split; [intros i []|reflexivity].
    - cbn [map exec_body exec_stmt].
      destruct (IH (assign (0, i) (slot x i) env))
        as (env' & Hrun & Hin & Hout).
      exists env'. split; [exact Hrun|]. split.
      + intros j [<-|Hj]; [|now apply Hin].
        destruct (in_dec Z.eq_dec i idxs) as [Hi|Hi]; [now apply Hin|].
        rewrite Hout; [apply assign_same|].
        rewrite in_map_iff. intros (j & [= ->] & Hj). contradiction.
      + intros w Hw. rewrite Hout.
        * apply assign_other. intros <-. apply Hw. now left.
        * intros Hin'. apply Hw. now right. }
  intros env. destruct (H env) as (env' & Hrun & Hin & _).
  exists env'. split; [exact Hrun|].
  unfold level_values. clear Hrun H.
  induction idxs as [|i idxs IH]; cbn [map]; constructor.
  - apply Hin. now left.
  - apply IH. intros j Hj. apply Hin. now right.
Qed.

End XorTreeInput.

(** The generated tree computes the XOR of the slots of its input, whatever
    the input is. *)
Lemma xor_tree_eval (num_vectors bit_length in_vectors : Z) :
  1 <= num_vectors -> 0 <= bit_length ->
  exists m,
    xor_tree_generator.generate_src num_vectors bit_length = Ok m /\
    XorTree.num_vectors m = num_vectors /\
    XorTree.bit_length m = bit_length /\
    XorTree.eval m in_vectors
    = Some (xor_tree_generator.xor_integers
              (map (slot bit_length
                      (Z.land in_vectors (Z.ones (num_vectors * bit_length))))
                   (range num_vectors))).
Proof.
  intros HN HW.
  set (port := Z.land in_vectors (Z.ones (num_vectors * bit_length))).
  destruct (exec_unpack bit_length port (range num_vectors) (fun _ => None))
    as (env & Hrun & Hlv).
  destruct (exec_tree_loop bit_length port
              (length (map (fun i => (0, i)) (range num_vectors)))
              1 (map (fun i => (0, i)) (range num_vectors))
              (map (fun i => XorTree.Unpack (0, i)
                               ((i + 1) * bit_length - 1) (i * bit_length))
                   (range num_vectors))
              (map (slot bit_length port) (range num_vectors))
              (fun _ => None) env)
    as (final & lines' & env' & Hloop & Hrun' & Hfinal).
  - apply le_n.
  - unfold range. destruct (Z.to_nat num_vectors) eqn:E; [lia|discriminate].
  - exact Hrun.
  - exact Hlv.
  - intros w Hin. apply in_map_iff in Hin. destruct Hin as (i & <- & _).
    cbn [fst]. lia.
  - unfold xor_tree_generator.generate_src. rewrite Hloop. cbn [first bind].
    eexists. split; [reflexivity|]. cbn [XorTree.num_vectors XorTree.bit_length].
    repeat split.
    unfold XorTree.eval.
    cbn [XorTree.num_vectors XorTree.bit_length XorTree.body XorTree.out_xor].
    fold port. rewrite Hrun'. exact Hfinal.
Qed.

(** * Claim about the XOR tree *)

(** C4: for [N >= 1] vectors of width [W >= 1], the module that
    [generate_src] builds (adjacent elements paired at each stage, an odd
    leftover passed through) computes on the concatenated input the same
    value as [xor_integers], the iterative XOR of the test bench; for a
    single vector it is that vector. *)
Theorem xor_tree_computes_xor_integers (num_vectors bit_length : Z)
    (int_list : list Z) :
  1 <= num_vectors -> 1 <= bit_length ->
  Z.of_nat (length int_list) = num_vectors ->
  Forall (fun v => 0 <= v < 2 ^ bit_length) int_list ->
  exists m,
    xor_tree_generator.generate_src num_vectors bit_length = Ok m /\
    XorTree.eval m (XorTree.concatenation bit_length int_list)
    = Some (xor_tree_generator.xor_integers int_list) /\
    (forall v, int_list = [v] ->
       XorTree.eval m (XorTree.concatenation bit_length int_list) = Some v).
Proof.
  intros HN HW Hlen Hvs.
  destruct (xor_tree_eval num_vectors bit_length
              (XorTree.concatenation bit_length int_list) HN ltac:(lia))
    as (m & Hgen & _ & _ & Heval).
  assert (Hxor : XorTree.eval m (XorTree.concatenation bit_length int_list)
                 = Some (xor_tree_generator.xor_integers int_list)).
  { rewrite Heval. f_equal. subst num_vectors.
    rewrite concatenation_port, concatenation_slots by lia.
    rewrite xor_integers_rev. f_equal.
    rewrite <- (map_id int_list) at 2. apply map_ext_in.
    intros v Hv. rewrite Forall_forall in Hvs. specialize (Hvs v Hv).
    rewrite Z.land_ones by lia. apply Z.mod_small. exact Hvs. }
  exists m. repeat split; try assumption.
  intros v ->. rewrite Hxor. unfold xor_tree_generator.xor_integers. cbn [fold_left].
  now rewrite Z.lxor_0_l.
Qed.

Lemma xor_tree_computes_xor_integers_witness :
  exists m,
    xor_tree_generator.generate_src 3 4 = Ok m /\
    XorTree.eval m (XorTree.concatenation 4 [5; 9; 3])
    = Some (xor_tree_generator.xor_integers [5; 9; 3]) /\
    (forall v, [5; 9; 3] = [v] ->
       XorTree.eval m (XorTree.concatenation 4 [5; 9; 3]) = Some v).
Proof.
  apply (xor_tree_computes_xor_integers 3 4 [5; 9; 3]);
    [lia|lia|reflexivity|].
  repeat constructor; lia.
Defined.

(** * Properties of the generators *)

Section BitPositionBounds.

Lemma log2_xO (q : positive) : Z.log2 (Zpos q~0) = Z.log2 (Zpos q) + 1.
Proof.
  rewrite Pos2Z.inj_xO, Z.log2_double by lia. lia.
Qed.

Lemma log2_xI (q : positive) : Z.log2 (Zpos q~1) = Z.log2 (Zpos q) + 1.
Proof.
  rewrite Pos2Z.inj_xI, Z.log2_succ_double by lia. lia.
Qed.

(** The last bit position is the degree, and no position exceeds it. *)
Lemma bit_positions_pos_last (p : positive) :
  forall k, exists front,
    bit_positions_pos p k = front ++ [k + Z.log2 (Zpos p)].
Proof.
  induction p as [q IH|q IH|]; intros k; cbn [bit_positions_pos].
  - destruct (IH (k + 1)) as (front & ->). exists (k :: front).
    rewrite log2_xI. cbn [app].
    now replace (k + (Z.log2 (Zpos q) + 1)) with (k + 1 + Z.log2 (Zpos q)) by lia.
  - destruct (IH (k + 1)) as (front & ->). exists front.
    rewrite log2_xO.
    now replace (k + (Z.log2 (Zpos q) + 1)) with (k + 1 + Z.log2 (Zpos q)) by lia.
  - exists []. cbn [app]. change (Z.log2 1) with 0. now rewrite Z.add_0_r.
Qed.

Lemma bit_positions_pos_bounds (p : positive) :
  forall k i, In i (bit_positions_pos p k) ->
              k <= i <= k + Z.log2 (Zpos p).
Proof.
  induction p as [q IH|q IH|]; intros k i Hin; cbn [bit_positions_pos] in Hin.
  - rewrite log2_xI. pose proof (Z.log2_nonneg (Zpos q)).
    destruct Hin as [<-|Hin]; [lia|]. apply IH in Hin. lia.
  - rewrite log2_xO. apply IH in Hin. lia.
  - destruct Hin as [<-|[]]. simpl. lia.
Qed.

Lemma bit_positions_degree (a : Z) :
  1 <= a ->
  (exists front, bit_positions a = front ++ [poly_degree a]) /\
  Forall (fun i => 0 <= i <= poly_degree a) (bit_positions a).
Proof.
  intros Ha. destruct a as [|p|p]; try lia.
  rewrite poly_degree_pos by lia. cbn [bit_positions]. split.
  - destruct (bit_positions_pos_last p 0) as (front & ->). now exists front.
  - apply Forall_forall. intros i Hin.
    apply bit_positions_pos_bounds in Hin. lia.
Qed.

Lemma first_rev_last {A : Type} (front : list A) (x : A) :
  first (rev (front ++ [x])) = Ok x.
Proof. now rewrite rev_app_distr. Qed.

Lemma enumerate_length {A : Type} (l : list A) :
  length (enumerate l) = length l.
Proof.
  unfold enumerate. rewrite length_combine, length_map, length_seq.
  apply Nat.min_id.
Qed.

Lemma first_a_ones (a : Z) :
  1 <= a -> first (rev (bit_positions a)) = Ok (poly_degree a).
Proof.
  intros Ha. destruct (bit_positions_degree a Ha) as ((front & ->) & _).
  apply first_rev_last.
Qed.

(** The affine module description, in closed form. *)
Lemma affine_generate_src_eq (a c b : Z) :
  1 <= a ->
  gf2_poly_affine_generator.generate_src a c b
  = let a_ones := rev (bit_positions a) in
    let N := if c =? 0 then Z.of_nat (length a_ones)
             else Z.of_nat (length a_ones) + 1 in
    let W := poly_degree a + b in
    let lines :=
      map (fun '(i, ti) =>
             {| Affine.msb := (i + 1) * W - 1;
                Affine.lsb := i * W;
                Affine.source :=
                  if ti =? 0 then Affine.Unshifted else Affine.Shifted ti |})
          (enumerate a_ones) in
    Ok {| Affine.bit_length := b;
          Affine.out_bit_length := W;
          Affine.xor_tree_num_vectors := N;
          Affine.xor_tree_bit_length := W;
          Affine.assigns :=
            if c =? 0 then lines
            else lines ++ [{| Affine.msb := N * W - 1;
                              Affine.lsb := (N - 1) * W;
                              Affine.source := Affine.Constant W c |}] |}.
Proof.
  intros Ha. unfold gf2_poly_affine_generator.generate_src.
  rewrite get_bit_positions_nonneg by lia. cbn [bind].
  rewrite (first_a_ones a Ha). cbn [bind]. reflexivity.
Qed.

End BitPositionBounds.

(** C3: for [a >= 1], [c >= 0] and input width [b >= 1] the affine
    generator declares the output width [max(bitPositions(a)) + b], that is
    [degree(a) + b], and instantiates an XOR tree of that width with one
    vector per bit position of [a], and one more for [c] only when
    [c <> 0] (no constant vector is assigned when [c = 0]); for [a = 17],
    [c = 1], [b = 16] the width is 20 and the tree is [xor_tree_3_20]. *)
Theorem affine_generator_shape :
  (forall a c b, 1 <= a -> 0 <= c -> 1 <= b ->
     exists positions m,
       get_bit_positions a = Ok positions /\
       In (poly_degree a) positions /\
       Forall (fun i => i <= poly_degree a) positions /\
       gf2_poly_affine_generator.generate_src a c b = Ok m /\
       Affine.out_bit_length m = poly_degree a + b /\
       Affine.xor_tree_bit_length m = poly_degree a + b /\
       Affine.xor_tree_num_vectors m
       = (if c =? 0 then Z.of_nat (length positions)
          else Z.of_nat (length positions) + 1) /\
       Z.of_nat (length (Affine.assigns m)) = Affine.xor_tree_num_vectors m /\
       (c = 0 -> forall asg width value,
          In asg (Affine.assigns m) ->
          Affine.source asg <> Affine.Constant width value)) /\
  (exists m,
     gf2_poly_affine_generator.generate_src 17 1 16 = Ok m /\
     Affine.out_bit_length m = 20 /\
     Affine.xor_tree_num_vectors m = 3 /\
     Affine.xor_tree_bit_length m = 20 /\
     map Affine.source (Affine.assigns m)
     = [Affine.Shifted 4; Affine.Unshifted; Affine.Constant 20 1]).
Proof.
  split.
  - intros a c b Ha Hc Hb.
    destruct (bit_positions_degree a Ha) as ((front & Hlast) & Hall).
    exists (bit_positions a). eexists.
    split; [apply get_bit_positions_nonneg; lia|].
    split; [rewrite Hlast; apply in_or_app; right; now left|].
    split; [eapply Forall_impl; [|exact Hall]; cbn; intros; lia|].
    split; [apply affine_generate_src_eq; exact Ha|].
    cbn [Affine.out_bit_length Affine.xor_tree_bit_length
         Affine.xor_tree_num_vectors Affine.assigns].
    rewrite length_rev.
    split; [reflexivity|]. split; [reflexivity|]. split; [reflexivity|].
    split.
    + destruct (c =? 0); [|rewrite length_app];
        rewrite length_map, enumerate_length, length_rev; cbn [length]; lia.
    + intros -> asg width value Hin. cbn [Z.eqb] in Hin.
      apply in_map_iff in Hin. destruct Hin as ((i & ti) & <- & _).
      cbn [Affine.source]. destruct (ti =? 0); discriminate.
  - eexists. split; [reflexivity|]. repeat split.
Qed.

Lemma affine_generator_shape_witness :
  exists positions m,
    get_bit_positions 23 = Ok positions /\
    In (poly_degree 23) positions /\
    Forall (fun i => i <= poly_degree 23) positions /\
    gf2_poly_affine_generator.generate_src 23 0 8 = Ok m /\
    Affine.out_bit_length m = poly_degree 23 + 8 /\
    Affine.xor_tree_bit_length m = poly_degree 23 + 8 /\
    Affine.xor_tree_num_vectors m
    = (if 0 =? 0 then Z.of_nat (length positions)
       else Z.of_nat (length positions) + 1) /\
    Z.of_nat (length (Affine.assigns m)) = Affine.xor_tree_num_vectors m /\
    (0 = 0 -> forall asg width value,
       In asg (Affine.assigns m) ->
       Affine.source asg <> Affine.Constant width value).
Proof. apply (proj1 affine_generator_shape 23 0 8); lia. Defined.

Section ReductionConstants.

Variable h : Z.
Hypothesis h_pos : 1 <= h.

Lemma int_bit_length_degree : int_bit_length h - 1 = poly_degree h.
Proof.
  rewrite poly_degree_pos by lia. unfold int_bit_length.
  destruct (Z.eqb_spec h 0); [lia|]. rewrite Z.abs_eq by lia. lia.
Qed.

Lemma for_each_reduction_constants (l : list Z) :
  (forall k, In k l -> 0 <= k) ->
  exists consts,
    for_each (fun i => bind (py_shl 1 (poly_degree h + i))
                            (fun y => poly_mod y h)) l = Ok consts /\
    Forall2 (fun k const =>
               poly_mod (Z.shiftl 1 (poly_degree h + k)) h = Ok const)
            l consts.
Proof.
  pose proof (poly_degree_nonneg h ltac:(lia)) as HD.
  induction l as [|k l IH]; intros Hl.
  - exists []. split; [reflexivity|constructor].
  - destruct IH as (consts & Hrun & Hall);
      [intros; apply Hl; now right|].
    assert (Hk : 0 <= k) by (apply Hl; now left).
    destruct (poly_mod_spec h ltac:(lia) (Z.shiftl 1 (poly_degree h + k)))
      as (r & Hr & _).
    { apply Z.shiftl_nonneg. lia. }
    exists (r :: consts). split; [|now constructor].
    cbn [for_each]. unfold py_shl at 1.
    destruct (Z.ltb_spec (poly_degree h + k) 0); [lia|].
    cbn [bind]. rewrite Hr. cbn [bind]. rewrite Hrun. reflexivity.
Qed.

(** The modular reduction module description, in closed form. *)
Lemma mod_generate_src_eq (b : Z) :
  poly_degree h <= b ->
  exists consts,
    gf2_poly_mod_generator.get_reduction_constants h b = Ok consts /\
    Z.of_nat (length consts) = b - poly_degree h /\
    Forall2 (fun k const =>
               poly_mod (Z.shiftl 1 (poly_degree h + k)) h = Ok const)
            (range (b - poly_degree h)) consts /\
    gf2_poly_mod_generator.generate_src h b
    = let D := poly_degree h in
      let N := b - D + 1 in
      Ok {| ModReducer.in_bit_length := b;
            ModReducer.out_bit_length := D;
            ModReducer.xor_tree_num_vectors := N;
            ModReducer.xor_tree_bit_length := D;
            ModReducer.assigns :=
              map (fun '(i, constant) =>
                     {| ModReducer.msb := (i + 1) * D - 1;
                        ModReducer.lsb := i * D;
                        ModReducer.source :=
                          ModReducer.Gated (D + i) D constant |})
                  (enumerate consts)
              ++ [{| ModReducer.msb := N * D - 1;
                     ModReducer.lsb := (N - 1) * D;
                     ModReducer.source := ModReducer.LowBits (D - 1) 0 |}]
         |}.
Proof.
  intros Hb.
  destruct (for_each_reduction_constants (range (b - poly_degree h)))
    as (consts & Hrun & Hall).
  { intros k Hk. unfold range in Hk. apply in_map_iff in Hk.
    destruct Hk as (n & <- & _). lia. }
  assert (Hlen : Z.of_nat (length consts) = b - poly_degree h).
  { rewrite <- (Forall2_length Hall). unfold range.
    rewrite length_map, length_seq. lia. }
  assert (Hconsts :
    gf2_poly_mod_generator.get_reduction_constants h b = Ok consts).
  { unfold gf2_poly_mod_generator.get_reduction_constants.
    replace (Z.max (b - 1 - poly_degree h + 1) 0) with (b - poly_degree h)
      by lia.
    exact Hrun. }
  exists consts. repeat split; try assumption.
  unfold gf2_poly_mod_generator.generate_src.
  rewrite Hconsts. cbn [bind]. rewrite int_bit_length_degree, Hlen.
  reflexivity.
Qed.

End ReductionConstants.

(** C2: for a modulus [h] of degree [D] and an input width [b >= D] the
    reduction constants are [poly_mod (1 << i) h] for [i = D, ..., b - 1]
    in ascending order, and the module instantiates an XOR tree of
    [b - D + 1] vectors of width [D]: one gated constant per input bit
    [D + k] and the low [D] input bits; for [h = 285], [b = 12] there are
    4 constants and the tree is [xor_tree_5_8]. *)
Theorem mod_generator_shape :
  (forall h b, 1 <= h -> poly_degree h <= b ->
     exists consts m,
       gf2_poly_mod_generator.get_reduction_constants h b = Ok consts /\
       Forall2 (fun k const =>
                  poly_mod (Z.shiftl 1 (poly_degree h + k)) h = Ok const)
               (range (b - poly_degree h)) consts /\
       gf2_poly_mod_generator.generate_src h b = Ok m /\
       ModReducer.xor_tree_num_vectors m = b - poly_degree h + 1 /\
       ModReducer.xor_tree_bit_length m = poly_degree h /\
       ModReducer.out_bit_length m = poly_degree h /\
       Z.of_nat (length (ModReducer.assigns m))
       = ModReducer.xor_tree_num_vectors m /\
       map ModReducer.source (ModReducer.assigns m)
       = map (fun '(i, const) =>
                ModReducer.Gated (poly_degree h + i) (poly_degree h) const)
             (enumerate consts)
         ++ [ModReducer.LowBits (poly_degree h - 1) 0] /\
       Z.max (b - (int_bit_length h - 1) + 1) 0 = b - poly_degree h + 1) /\
  (exists m,
     gf2_poly_mod_generator.get_reduction_constants 285 12
     = Ok [29; 58; 116; 232] /\
     gf2_poly_mod_generator.generate_src 285 12 = Ok m /\
     ModReducer.xor_tree_num_vectors m = 5 /\
     ModReducer.xor_tree_bit_length m = 8 /\
     map ModReducer.source (ModReducer.assigns m)
     = [ModReducer.Gated 8 8 29; ModReducer.Gated 9 8 58;
        ModReducer.Gated 10 8 116; ModReducer.Gated 11 8 232;
        ModReducer.LowBits 7 0]).
Proof.
  split.
  - intros h b Hh Hb.
    destruct (mod_generate_src_eq h Hh b Hb)
      as (consts & Hconsts & Hlen & Hall & Hsrc).
    exists consts. eexists.
    split; [exact Hconsts|]. split; [exact Hall|]. split; [exact Hsrc|].
    cbn [ModReducer.xor_tree_num_vectors ModReducer.xor_tree_bit_length
         ModReducer.out_bit_length ModReducer.assigns].
    split; [reflexivity|]. split; [reflexivity|]. split; [reflexivity|].
    split; [|split].
    + rewrite length_app, length_map, enumerate_length. cbn [length]. lia.
    + rewrite map_app, map_map. cbn [map ModReducer.source]. f_equal.
      apply map_ext. now intros (i & const).
    + rewrite int_bit_length_degree by assumption. lia.
  - eexists. split; [reflexivity|]. split; [reflexivity|]. repeat split.
Qed.

Lemma mod_generator_shape_witness :
  exists consts m,
    gf2_poly_mod_generator.get_reduction_constants 19 7 = Ok consts /\
    Forall2 (fun k const =>
               poly_mod (Z.shiftl 1 (poly_degree 19 + k)) 19 = Ok const)
            (range (7 - poly_degree 19)) consts /\
    gf2_poly_mod_generator.generate_src 19 7 = Ok m /\
    ModReducer.xor_tree_num_vectors m = 7 - poly_degree 19 + 1 /\
    ModReducer.xor_tree_bit_length m = poly_degree 19 /\
    ModReducer.out_bit_length m = poly_degree 19 /\
    Z.of_nat (length (ModReducer.assigns m))
    = ModReducer.xor_tree_num_vectors m /\
    map ModReducer.source (ModReducer.assigns m)
    = map (fun '(i, const) =>
             ModReducer.Gated (poly_degree 19 + i) (poly_degree 19) const)
          (enumerate consts)
      ++ [ModReducer.LowBits (poly_degree 19 - 1) 0] /\
    Z.max (7 - (int_bit_length 19 - 1) + 1) 0 = 7 - poly_degree 19 + 1.
Proof.
  apply (proj1 mod_generator_shape 19 7); [lia|vm_compute; discriminate].
Defined.

(** * Rejected parameters *)

Lemma range_nonpos (n : Z) : n <= 0 -> range n = [].
Proof. intros Hn. destruct n; [reflexivity|lia|reflexivity]. Qed.

(** A tree without inputs has no output wire. *)
Lemma xor_tree_generate_src_empty (num_vectors bit_length : Z) :
  num_vectors <= 0 ->
  xor_tree_generator.generate_src num_vectors bit_length = Raise IndexError.
Proof.
  intros Hn. unfold xor_tree_generator.generate_src.
  rewrite (range_nonpos num_vectors Hn). cbn [map].
  rewrite tree_loop_done by (cbn [length]; lia). reflexivity.
Qed.

(** C8: requesting the modular reduction module for an input narrower than
    the modulus ([b < D]) asks for an XOR tree of 0 vectors; the run stops
    with an exception ([IndexError], raised where the tree generator reads
    its missing output wire) before any source or test bench file is
    written. *)
Theorem mod_generator_rejects_narrow_input {R : Random} (h b : Z)
    (w : world) :
  1 <= h -> b < poly_degree h ->
  Z.max (b - (int_bit_length h - 1) + 1) 0 = 0 /\
  xor_tree_generator.generate_src 0 (int_bit_length h - 1) = Raise IndexError /\
  exists w',
    gf2_poly_mod_generator.generate_verilog_and_tb_to_files h b w
    = (Raise IndexError, w') /\
    src_files w' = src_files w /\ tb_files w' = tb_files w /\
    rng w' = rng w.
Proof.
  intros Hh Hb.
  assert (HN : Z.max (b - (int_bit_length h - 1) + 1) 0 = 0)
    by (rewrite int_bit_length_degree by assumption; lia).
  split; [exact HN|].
  split; [apply xor_tree_generate_src_empty; lia|].
  unfold gf2_poly_mod_generator.generate_verilog_and_tb_to_files,
    gf2_poly_mod_generator.generate_submodules_verilog_and_tb_to_files,
    xor_tree_generator.generate_verilog_and_tb_to_files.
  rewrite HN.
  unfold gen_bind, makedirs, pure.
  rewrite xor_tree_generate_src_empty by lia.
  eexists. split; [reflexivity|]. cbn. repeat split.
Qed.

Lemma mod_generator_rejects_narrow_input_witness :
  Z.max (4 - (int_bit_length 285 - 1) + 1) 0 = 0 /\
  xor_tree_generator.generate_src 0 (int_bit_length 285 - 1)
  = Raise IndexError /\
  exists w' : @world lcg,
    gf2_poly_mod_generator.generate_verilog_and_tb_to_files 285 4 lcg_world
    = (Raise IndexError, w') /\
    src_files w' = src_files lcg_world /\
    tb_files w' = tb_files lcg_world /\
    rng w' = rng lcg_world.
Proof.
  apply (@mod_generator_rejects_narrow_input lcg 285 4 lcg_world);
    [lia|vm_compute; reflexivity].
Defined.

(** C9, as stated, fails: with [a = 0] the affine generator has no bit
    position to read the output width from, and raises [IndexError]. *)
Lemma affine_generator_zero_multiplier_counterexample :
  ~ (forall c b, 0 <= c -> 1 <= b ->
       exists m, gf2_poly_affine_generator.generate_src 0 c b = Ok m).
Proof.
  intros Hall. destruct (Hall 1 16 ltac:(lia) ltac:(lia)) as (m & Hm).
  discriminate Hm.
Qed.

(** C9, amended: the affine generator raises [IndexError] for [a = 0],
    whatever [c] and the input width, and its run stops before it creates a
    directory or a file; it returns a module description for every
    [a >= 1]. Only the arithmetic function [poly_affine] accepts [a = 0]
    (and returns [c]); the command line refuses [a = 0]. *)
Theorem affine_generator_zero_multiplier {R : Random} :
  (forall c b,
     gf2_poly_affine_generator.generate_src 0 c b = Raise IndexError) /\
  (forall c b (w : world),
     gf2_poly_affine_generator.generate_verilog_and_tb_to_files 0 c b w
     = (Raise IndexError, w)) /\
  (forall a c b, 1 <= a ->
     exists m, gf2_poly_affine_generator.generate_src a c b = Ok m) /\
  (forall p c, poly_affine 0 p c = Ok c) /\
  (forall arg_c arg_h,
     gf2e_prng_tool.main_parameters 0 arg_c arg_h = Raise ArgumentTypeError).
Proof.
  split; [|split; [|split; [|split]]].
  - intros c b. reflexivity.
  - intros c b w. reflexivity.
  - intros a c b Ha. rewrite affine_generate_src_eq by assumption.
    eexists. reflexivity.
  - intros p c. reflexivity.
  - intros arg_c arg_h. reflexivity.
Qed.

Lemma affine_generator_zero_multiplier_witness :
  exists m, gf2_poly_affine_generator.generate_src 17 1 16 = Ok m.
Proof.
  apply (proj1 (proj2 (proj2 (@affine_generator_zero_multiplier lcg))) 17 1 16).
  lia.
Defined.

(** * Reproducible runs *)

(** A computation is reproducible when its outcome and the files it writes
    are the same from every world: they depend neither on the state of the
    random generator nor on the files already present. *)
Definition reproducible `{Random} {A : Type} (m : gen A) : Prop :=
  exists (outcome : result A) new_src new_tb,
    forall w,
      fst (m w) = outcome /\
      src_files (snd (m w)) = new_src ++ src_files w /\
      tb_files (snd (m w)) = new_tb ++ tb_files w.

Section Reproducibility.

Context `{Random}.

Lemma reproducible_ret {A : Type} (x : A) : reproducible (gen_ret x).
Proof. exists (Ok x), [], []. intros w. repeat split. Qed.

Lemma reproducible_pure {A : Type} (r : result A) : reproducible (pure r).
Proof. exists r, [], []. intros w. repeat split. Qed.

Lemma reproducible_makedirs : reproducible makedirs.
Proof. exists (Ok tt), [], []. intros w. repeat split. Qed.

Lemma reproducible_write_src (name : module_name) (code : source_file) :
  reproducible (write_src name code).
Proof. exists (Ok tt), [(name, code)], []. intros w. repeat split. Qed.

Lemma reproducible_write_tb (name : module_name) (code : testbench_file) :
  reproducible (write_tb name code).
Proof. exists (Ok tt), [], [(name, code)]. intros w. repeat split. Qed.

Lemma reproducible_bind {A B : Type} (m : gen A) (f : A -> gen B) :
  reproducible m -> (forall x, reproducible (f x)) ->
  reproducible (gen_bind m f).
Proof.
  intros (r & ns & nt & Hm) Hf. destruct r as [x|e|].
  - destruct (Hf x) as (r' & ns' & nt' & Hfx).
    exists r', (ns' ++ ns), (nt' ++ nt). intros w.
    destruct (Hm w) as (Hr & Hs & Ht). unfold gen_bind.
    destruct (m w) as [r w']. cbn [fst snd] in *. subst r.
    destruct (Hfx w') as (Hr' & Hs' & Ht').
    rewrite Hr', Hs', Ht', Hs, Ht, !app_assoc. repeat split.
  - exists (Raise e), ns, nt. intros w.
    destruct (Hm w) as (Hr & Hs & Ht). unfold gen_bind.
    destruct (m w) as [r w']. cbn [fst snd] in *. subst r.
    repeat split; assumption.
  - exists OutOfFuel, ns, nt. intros w.
    destruct (Hm w) as (Hr & Hs & Ht). unfold gen_bind.
    destruct (m w) as [r w']. cbn [fst snd] in *. subst r.
    repeat split; assumption.
Qed.

(** Seeding first makes the draws independent of the generator state. *)
Lemma reproducible_generate_random_integers (num_vectors bit_length seed : Z) :
  reproducible (generate_random_integers num_vectors bit_length seed).
Proof.
  exists (fst (draw_integers (Z.to_nat num_vectors) bit_length
                             (rng_seed seed))), [], [].
  intros w. unfold generate_random_integers, with_rng.
  destruct (draw_integers _ _ _) as [r g]. repeat split.
Qed.

End Reproducibility.

Ltac reproducible_step :=
  first
    [ apply reproducible_ret
    | apply reproducible_pure
    | apply reproducible_makedirs
    | apply reproducible_write_src
    | apply reproducible_write_tb
    | apply reproducible_generate_random_integers
    | apply reproducible_bind; [|intros ?x]
    | match goal with
      | |- reproducible (let '(_, _) := ?p in _) => destruct p
      end ].

Section ReproducibleGenerators.

Context `{Random}.

Lemma reproducible_xor_tree_tb (num_vectors bit_length : Z) :
  reproducible (xor_tree_generator.generate_tb num_vectors bit_length).
Proof.
  unfold xor_tree_generator.generate_tb,
    xor_tree_generator.random_computation_example.
  repeat reproducible_step.
Qed.

Lemma reproducible_xor_tree (num_vectors bit_length : Z) :
  reproducible
    (xor_tree_generator.generate_verilog_and_tb_to_files
       num_vectors bit_length).
Proof.
  unfold xor_tree_generator.generate_verilog_and_tb_to_files.
  repeat first [apply reproducible_xor_tree_tb | reproducible_step].
Qed.

Lemma reproducible_affine_tb (a c bit_length : Z) :
  reproducible (gf2_poly_affine_generator.generate_tb a c bit_length).
Proof.
  unfold gf2_poly_affine_generator.generate_tb,
    gf2_poly_affine_generator.random_computation_example.
  repeat reproducible_step.
Qed.

Lemma reproducible_affine (a c bit_length : Z) :
  reproducible
    (gf2_poly_affine_generator.generate_verilog_and_tb_to_files
       a c bit_length).
Proof.
  unfold gf2_poly_affine_generator.generate_verilog_and_tb_to_files,
    gf2_poly_affine_generator.generate_submodules_verilog_and_tb_to_files.
  repeat first [apply reproducible_xor_tree | apply reproducible_affine_tb
               | reproducible_step].
Qed.

Lemma reproducible_mod_tb (h y_bit_length : Z) :
  reproducible (gf2_poly_mod_generator.generate_tb h y_bit_length).
Proof.
  unfold gf2_poly_mod_generator.generate_tb,
    gf2_poly_mod_generator.random_computation_example.
  repeat reproducible_step.
Qed.

Lemma reproducible_mod (h y_bit_length : Z) :
  reproducible
    (gf2_poly_mod_generator.generate_verilog_and_tb_to_files h y_bit_length).
Proof.
  unfold gf2_poly_mod_generator.generate_verilog_and_tb_to_files,
    gf2_poly_mod_generator.generate_submodules_verilog_and_tb_to_files.
  repeat first [apply reproducible_xor_tree | apply reproducible_mod_tb
               | reproducible_step].
Qed.

Lemma reproducible_affine_mod_tb (a c h bit_length : Z) :
  reproducible (gf2_poly_affine_mod_generator.generate_tb a c h bit_length).
Proof.
  unfold gf2_poly_affine_mod_generator.generate_tb,
    gf2_poly_affine_mod_generator.random_computation_example.
  repeat reproducible_step.
Qed.

Lemma reproducible_affine_mod (a c h bit_length : Z) :
  reproducible
    (gf2_poly_affine_mod_generator.generate_verilog_and_tb_to_files
       a c h bit_length).
Proof.
  unfold gf2_poly_affine_mod_generator.generate_verilog_and_tb_to_files,
    gf2_poly_affine_mod_generator.generate_submodules_verilog_and_tb_to_files.
  repeat first [apply reproducible_affine | apply reproducible_mod
               | apply reproducible_affine_mod_tb | reproducible_step].
Qed.

Lemma reproducible_prng_tb (a c h : Z) :
  reproducible (gf2e_prng_tool.generate_tb a c h).
Proof.
  unfold gf2e_prng_tool.generate_tb,
    gf2e_prng_tool.random_computation_example.
  repeat reproducible_step.
Qed.

Lemma reproducible_prng (a c h : Z) :
  reproducible (gf2e_prng_tool.generate_verilog_and_tb_to_files a c h).
Proof.
  unfold gf2e_prng_tool.generate_verilog_and_tb_to_files,
    gf2e_prng_tool.generate_submodules_verilog_and_tb_to_files.
  repeat first [apply reproducible_affine_mod | apply reproducible_prng_tb
               | reproducible_step].
Qed.

Lemma reproducible_main (arg_a arg_c arg_h : Z) :
  reproducible (gf2e_prng_tool.main arg_a arg_c arg_h).
Proof.
  unfold gf2e_prng_tool.main.
  apply reproducible_bind; [apply reproducible_pure|].
  intros ((a & c) & h). apply reproducible_prng.
Qed.

End ReproducibleGenerators.

(** Running a computation again, after itself, has the same outcome and
    leaves every file with the content it already had. *)
Definition regenerable `{Random} {A : Type} (m : gen A) : Prop :=
  forall w,
    let w1 := snd (m w) in
    let w2 := snd (m w1) in
    fst (m w1) = fst (m w) /\
    (forall name, lookup name (src_files w2) = lookup name (src_files w1)) /\
    (forall name, lookup name (tb_files w2) = lookup name (tb_files w1)).

Lemma lookup_app {A : Type} (name : module_name)
    (l1 l2 : list (module_name * A)) :
  lookup name (l1 ++ l2)
  = match lookup name l1 with
    | Some code => Some code
    | None => lookup name l2
    end.
Proof.
  induction l1 as [|(name' & code) l1 IH]; cbn [lookup app]; [reflexivity|].
  now destruct (module_name_eqb name name').
Qed.

Lemma lookup_app_twice {A : Type} (name : module_name)
    (l1 l2 : list (module_name * A)) :
  lookup name (l1 ++ l1 ++ l2) = lookup name (l1 ++ l2).
Proof.
  rewrite !lookup_app. now destruct (lookup name l1).
Qed.

Lemma reproducible_regenerable `{Random} {A : Type} (m : gen A) :
  reproducible m -> regenerable m.
Proof.
  intros (r & ns & nt & Hm) w. cbn zeta.
  destruct (Hm w) as (Hr & Hs & Ht).
  destruct (Hm (snd (m w))) as (Hr' & Hs' & Ht').
  rewrite Hr, Hr', Hs', Ht', Hs, Ht.
  repeat split; intros name; apply lookup_app_twice.
Qed.

(** C10: every generator is deterministic. The outcome of a run and the
    files it writes, module descriptions and test benches with the
    stimulus drawn after seeding with 42, are the same whatever the state
    of the random generator and whatever files exist; and a second run
    with the same parameters rewrites every file with the content it
    already has. *)
Theorem generator_output_deterministic {R : Random} :
  (forall num_vectors bit_length seed,
     reproducible (generate_random_integers num_vectors bit_length seed)) /\
  (forall num_vectors bit_length,
     reproducible (xor_tree_generator.generate_tb num_vectors bit_length) /\
     reproducible (xor_tree_generator.generate_verilog_and_tb_to_files
                     num_vectors bit_length) /\
     regenerable (xor_tree_generator.generate_verilog_and_tb_to_files
                    num_vectors bit_length)) /\
  (forall a c bit_length,
     reproducible (gf2_poly_affine_generator.generate_verilog_and_tb_to_files
                     a c bit_length) /\
     regenerable (gf2_poly_affine_generator.generate_verilog_and_tb_to_files
                    a c bit_length)) /\
  (forall h y_bit_length,
     reproducible (gf2_poly_mod_generator.generate_verilog_and_tb_to_files
                     h y_bit_length) /\
     regenerable (gf2_poly_mod_generator.generate_verilog_and_tb_to_files
                    h y_bit_length)) /\
  (forall a c h bit_length,
     reproducible
       (gf2_poly_affine_mod_generator.generate_verilog_and_tb_to_files
          a c h bit_length) /\
     regenerable
       (gf2_poly_affine_mod_generator.generate_verilog_and_tb_to_files
          a c h bit_length)) /\
  (forall a c h,
     reproducible (gf2e_prng_tool.generate_verilog_and_tb_to_files a c h) /\
     regenerable (gf2e_prng_tool.generate_verilog_and_tb_to_files a c h)) /\
  (forall arg_a arg_c arg_h,
     reproducible (gf2e_prng_tool.main arg_a arg_c arg_h) /\
     regenerable (gf2e_prng_tool.main arg_a arg_c arg_h)).
Proof.
  split; [intros; apply reproducible_generate_random_integers|].
  split; [intros; split; [apply reproducible_xor_tree_tb|]|].
  { pose proof (reproducible_xor_tree num_vectors bit_length) as Hr.
    split; [exact Hr | apply reproducible_regenerable, Hr]. }
  split.
  { intros. pose proof (reproducible_affine a c bit_length) as Hr.
    split; [exact Hr | apply reproducible_regenerable, Hr]. }
  split.
  { intros. pose proof (reproducible_mod h y_bit_length) as Hr.
    split; [exact Hr | apply reproducible_regenerable, Hr]. }
  split.
  { intros. pose proof (reproducible_affine_mod a c h bit_length) as Hr.
    split; [exact Hr | apply reproducible_regenerable, Hr]. }
  split.
  { intros. pose proof (reproducible_prng a c h) as Hr.
    split; [exact Hr | apply reproducible_regenerable, Hr]. }
  intros. pose proof (reproducible_main arg_a arg_c arg_h) as Hr.
  split; [exact Hr | apply reproducible_regenerable, Hr].
Qed.

(** * The generated circuits *)

(** The bus [w_in_vectors] once part [i] is driven with the [i]-th value of
    a list, for every [i]. *)
Definition pack (width : Z) (values : list Z) : Z :=
  fold_left
    (fun bus '(i, v) =>
       Semantics.drive bus ((i + 1) * width - 1) (i * width) v)
    (enumerate values) 0.

Section BusPacking.

Import Semantics.

Variable width : Z.
Hypothesis width_nonneg : 0 <= width.

Lemma enumerate_from_snoc {A : Type} (l : list A) (x : A) :
  forall k,
    combine (map Z.of_nat (seq k (length (l ++ [x])))) (l ++ [x])
    = combine (map Z.of_nat (seq k (length l))) l
      ++ [(Z.of_nat (k + length l), x)].
Proof.
  induction l as [|y l IH]; intros k; cbn [length app seq map combine].
  - now rewrite Nat.add_0_r.
  - rewrite IH. cbn [app]. do 4 f_equal. lia.
Qed.

Lemma enumerate_snoc {A : Type} (l : list A) (x : A) :
  enumerate (l ++ [x]) = enumerate l ++ [(Z.of_nat (length l), x)].
Proof. unfold enumerate. now rewrite enumerate_from_snoc. Qed.

Lemma pack_snoc (vs : list Z) (v : Z) :
  pack width (vs ++ [v])
  = Z.lor (pack width vs)
          (Z.shiftl (truncate width v) (Z.of_nat (length vs) * width)).
Proof.
  unfold pack. rewrite enumerate_snoc, fold_left_app. cbn [fold_left].
  unfold drive. do 3 f_equal. ring.
Qed.

Lemma pack_high_bits (vs : list Z) :
  forall n, Z.of_nat (length vs) * width <= n ->
            Z.testbit (pack width vs) n = false.
Proof.
  induction vs as [|v vs IH] using rev_ind; intros n Hn.
  - apply Z.bits_0.
  - rewrite length_app in Hn. cbn [length] in Hn.
    assert (0 <= n) by nia.
    rewrite pack_snoc, Z.lor_spec, IH by nia.
    rewrite Z.shiftl_spec by assumption. unfold truncate.
    rewrite Z.land_spec, Z.testbit_ones by nia.
    destruct (Z.ltb_spec (n - Z.of_nat (length vs) * width) width); [nia|].
    now rewrite !andb_false_r.
Qed.

Lemma pack_port (vs : list Z) :
  truncate (Z.of_nat (length vs) * width) (pack width vs) = pack width vs.
Proof.
  unfold truncate. apply Z.bits_inj'. intros n Hn.
  rewrite Z.land_spec, Z.testbit_ones_nonneg by nia.
  destruct (Z.ltb_spec n (Z.of_nat (length vs) * width)).
  - apply andb_true_r.
  - rewrite pack_high_bits by nia. reflexivity.
Qed.

(** Part [i] of the packed bus holds the [i]-th value. *)
Lemma pack_slots (vs : list Z) :
  map (slot width (pack width vs)) (range (Z.of_nat (length vs)))
  = map (truncate width) vs.
Proof.
  induction vs as [|v vs IH] using rev_ind; [reflexivity|].
  rewrite length_app. cbn [length]. rewrite Nat.add_1_r, range_succ, !map_app.
  f_equal.
  - rewrite <- IH. apply map_ext_in. intros i Hi. apply in_range in Hi.
    apply Z.bits_inj'. intros k Hk. rewrite !slot_testbit by assumption.
    destruct (Z.ltb_spec k width); [|now rewrite !andb_false_r].
    rewrite pack_snoc, Z.lor_spec.
    rewrite Z.shiftl_spec_low by nia. now rewrite orb_false_r.
  - cbn [map]. f_equal.
    apply Z.bits_inj'. intros k Hk. rewrite slot_testbit by assumption.
    rewrite pack_snoc, Z.lor_spec, Z.shiftl_spec by nia.
    rewrite pack_high_bits by nia.
    replace (k + Z.of_nat (length vs) * width
             - Z.of_nat (length vs) * width) with k by ring.
    unfold truncate. rewrite Z.land_spec, Z.testbit_ones_nonneg by assumption.
    cbn [orb]. destruct (Z.ltb_spec k width).
    + now rewrite !andb_true_r.
    + now rewrite !andb_false_r.
Qed.

Lemma truncate_idem (v : Z) :
  truncate width (truncate width v) = truncate width v.
Proof.
  unfold truncate. now rewrite <- Z.land_assoc, Z.land_diag.
Qed.

Lemma truncate_lxor (x y : Z) :
  truncate width (Z.lxor x y)
  = Z.lxor (truncate width x) (truncate width y).
Proof.
  unfold truncate. apply Z.bits_inj'. intros n Hn.
  rewrite !Z.lxor_spec, !Z.land_spec, Z.lxor_spec.
  now destruct (Z.testbit x n), (Z.testbit y n), (Z.testbit (Z.ones width) n).
Qed.

Lemma truncate_xor_integers (vs : list Z) :
  truncate width (xor_tree_generator.xor_integers vs)
  = xor_tree_generator.xor_integers (map (truncate width) vs).
Proof.
  induction vs as [|v vs IH] using rev_ind; [reflexivity|].
  rewrite map_app, !xor_integers_app. cbn [map].
  rewrite truncate_lxor, IH. f_equal.
Qed.

Lemma truncate_small (v : Z) :
  0 <= v < 2 ^ width -> truncate width v = v.
Proof.
  intros Hv. unfold truncate. rewrite Z.land_ones by assumption.
  now apply Z.mod_small.
Qed.

End BusPacking.

(** The library holds the XOR tree of [num_vectors] vectors of
    [bit_length] bits, as its generator writes it. *)
Definition tree_ok (lib : Semantics.library) (num_vectors bit_length : Z)
    : Prop :=
  exists m,
    lookup (xor_tree num_vectors bit_length) lib = Some (XorTreeSrc m) /\
    xor_tree_generator.generate_src num_vectors bit_length = Ok m.

Section Circuits.

Import Semantics.

(** A loop of assignments to the parts [i] of a bus, read as [pack]. *)
Lemma fold_drive_pack {A S : Type} (step : Z -> S -> Z) (mk : Z * A -> S)
    (val : A -> Z) (width : Z) :
  (forall bus i x,
     step bus (mk (i, x))
     = drive bus ((i + 1) * width - 1) (i * width) (val x)) ->
  forall l, fold_left step (map mk (enumerate l)) 0 = pack width (map val l).
Proof.
  intros Hstep l. unfold pack, enumerate.
  assert (H : forall (k : nat) (bus : Z),
    fold_left step
      (map mk (combine (map Z.of_nat (seq k (length l))) l)) bus
    = fold_left
        (fun bus '(i, v) =>
           drive bus ((i + 1) * width - 1) (i * width) v)
        (combine (map Z.of_nat (seq k (length (map val l)))) (map val l))
        bus).
  { induction l as [|x l IH]; intros k bus; [reflexivity|].
    cbn [length seq map combine fold_left]. rewrite Hstep. apply IH. }
  apply H.
Qed.

(** What a tree in the library computes on a packed bus. *)
Lemma eval_xor_tree_pack (lib : library) (width : Z) (vs : list Z) :
  0 <= width -> vs <> [] ->
  tree_ok lib (Z.of_nat (length vs)) width ->
  eval_xor_tree lib (Z.of_nat (length vs)) width
    (truncate (Z.of_nat (length vs) * width) (pack width vs))
  = Some (xor_tree_generator.xor_integers (map (truncate width) vs)).
Proof.
  intros Hw Hvs (m & Hlook & Hgen). unfold eval_xor_tree. rewrite Hlook.
  assert (HN : 1 <= Z.of_nat (length vs)) by (destruct vs; cbn in *; [easy|lia]).
  destruct (xor_tree_eval (Z.of_nat (length vs)) width
              (truncate (Z.of_nat (length vs) * width) (pack width vs)) HN Hw)
    as (m' & Hgen' & _ & _ & Heval).
  rewrite Hgen in Hgen'. injection Hgen' as <-. rewrite Heval.
  fold (truncate (Z.of_nat (length vs) * width)
          (truncate (Z.of_nat (length vs) * width) (pack width vs))).
  rewrite !pack_port by assumption. now rewrite pack_slots.
Qed.

Lemma xor_integers_map_fold {A : Type} (f : A -> Z) (l : list A) :
  xor_tree_generator.xor_integers (map f l)
  = fold_left (fun out i => Z.lxor out (f i)) l 0.
Proof.
  unfold xor_tree_generator.xor_integers. generalize 0.
  induction l as [|x l IH]; intros acc; [reflexivity|]. cbn. apply IH.
Qed.

Lemma truncate_range (width v : Z) :
  0 <= width -> 0 <= truncate width v < 2 ^ width.
Proof.
  intros Hw. unfold truncate. rewrite Z.land_ones by assumption.
  apply Z.mod_pos_bound. lia.
Qed.

Lemma shiftl_bound (p b t w : Z) :
  0 <= p < 2 ^ b -> 0 <= b -> 0 <= t -> b + t <= w ->
  0 <= Z.shiftl p t < 2 ^ w.
Proof.
  intros Hp Hb Ht Hw. rewrite Z.shiftl_mul_pow2 by assumption.
  assert (2 ^ b * 2 ^ t <= 2 ^ w).
  { rewrite <- Z.pow_add_r by assumption.
    apply Z.pow_le_mono_r; lia. }
  assert (0 < 2 ^ t) by (apply Z.pow_pos_nonneg; lia).
  nia.
Qed.

End Circuits.

Section AffineCircuit.

Import Semantics.

Variables a c b : Z.
Hypothesis a_pos : 1 <= a.
Hypothesis c_nonneg : 0 <= c.
Hypothesis b_nonneg : 0 <= b.

(** The vectors of the XOR tree of the affine module for an input [p]. *)
Definition affine_vectors (p : Z) : list Z :=
  map (fun ti => Z.shiftl p ti) (rev (bit_positions a))
  ++ (if c =? 0 then [] else [truncate (poly_degree a + b) c]).

Lemma affine_vectors_length (p : Z) :
  Z.of_nat (length (affine_vectors p))
  = if c =? 0 then Z.of_nat (length (rev (bit_positions a)))
    else Z.of_nat (length (rev (bit_positions a))) + 1.
Proof.
  unfold affine_vectors. rewrite length_app, length_map.
  destruct (c =? 0); cbn [length]; lia.
Qed.

Lemma affine_vectors_not_nil (p : Z) : affine_vectors p <> [].
Proof.
  unfold affine_vectors.
  destruct (bit_positions_degree a a_pos) as ((front & ->) & _).
  rewrite rev_app_distr. discriminate.
Qed.

(** The assignments of the affine module drive the bus with these
    vectors. *)
Lemma affine_bus (m : Affine.verilog_module) (p : Z) :
  gf2_poly_affine_generator.generate_src a c b = Ok m ->
  fold_left
    (fun bus asg =>
       drive bus (Affine.msb asg) (Affine.lsb asg)
         (affine_driver p (Affine.source asg)))
    (Affine.assigns m) 0
  = pack (poly_degree a + b) (affine_vectors p).
Proof.
  rewrite affine_generate_src_eq by assumption. cbn zeta.
  intros [= <-]. cbn [Affine.assigns]. unfold affine_vectors.
  set (W := poly_degree a + b).
  assert (Hlines : forall bus0,
    bus0 = 0 ->
    fold_left
      (fun bus asg =>
         drive bus (Affine.msb asg) (Affine.lsb asg)
           (affine_driver p (Affine.source asg)))
      (map (fun '(i, ti) =>
              {| Affine.msb := (i + 1) * W - 1;
                 Affine.lsb := i * W;
                 Affine.source :=
                   if ti =? 0 then Affine.Unshifted else Affine.Shifted ti |})
           (enumerate (rev (bit_positions a)))) bus0
    = pack W (map (fun ti => Z.shiftl p ti) (rev (bit_positions a)))).
  { intros bus0 ->.
    apply (fold_drive_pack
             (fun bus asg =>
                drive bus (Affine.msb asg) (Affine.lsb asg)
                  (affine_driver p (Affine.source asg)))
             (fun '(i, ti) =>
                {| Affine.msb := (i + 1) * W - 1;
                   Affine.lsb := i * W;
                   Affine.source :=
                     if ti =? 0 then Affine.Unshifted
                     else Affine.Shifted ti |})
             (fun ti => Z.shiftl p ti) W).
    intros bus i ti. cbn [Affine.msb Affine.lsb Affine.source].
    destruct (Z.eqb_spec ti 0) as [->|_]; cbn [affine_driver];
      [now rewrite Z.shiftl_0_r|reflexivity]. }
  destruct (c =? 0).
  - rewrite app_nil_r. now apply Hlines.
  - rewrite fold_left_app, Hlines by reflexivity. cbn [fold_left].
    cbn [Affine.msb Affine.lsb Affine.source affine_driver].
    rewrite pack_snoc, length_map. unfold drive.
    replace (Z.of_nat (length (rev (bit_positions a))) + 1 - 1)
      with (Z.of_nat (length (rev (bit_positions a)))) by ring.
    replace ((Z.of_nat (length (rev (bit_positions a))) + 1) * W - 1
             - Z.of_nat (length (rev (bit_positions a))) * W + 1)
      with W by ring.
    reflexivity.
Qed.

End AffineCircuit.

Section AffineEval.

Import Semantics.

Variables a c b : Z.
Hypothesis a_pos : 1 <= a.
Hypothesis b_nonneg : 0 <= b.
Hypothesis c_range : 0 <= c < 2 ^ (poly_degree a + b).

Lemma affine_width_nonneg : 0 <= poly_degree a + b.
Proof. pose proof (poly_degree_nonneg a ltac:(lia)). lia. Qed.

(** No vector of the affine module loses a bit to the width of the tree. *)
Lemma affine_vectors_truncate (p : Z) :
  0 <= p < 2 ^ b ->
  map (truncate (poly_degree a + b)) (affine_vectors a c b p)
  = map (fun ti => Z.shiftl p ti) (rev (bit_positions a))
    ++ (if c =? 0 then [] else [c]).
Proof.
  intros Hp. pose proof affine_width_nonneg as HW.
  unfold affine_vectors. rewrite map_app, map_map. f_equal.
  - apply map_ext_in. intros ti Hti. apply in_rev in Hti.
    destruct (bit_positions_degree a a_pos) as (_ & Hall).
    rewrite Forall_forall in Hall. specialize (Hall ti Hti).
    apply truncate_small; [assumption|].
    apply shiftl_bound with (b := b); lia.
  - destruct (c =? 0); [reflexivity|]. cbn [map].
    rewrite truncate_idem. f_equal. now apply truncate_small.
Qed.

Lemma xor_integers_affine_vectors (p : Z) :
  poly_affine a p c
  = Ok (xor_tree_generator.xor_integers
          (map (fun ti => Z.shiftl p ti) (rev (bit_positions a))
           ++ (if c =? 0 then [] else [c]))).
Proof.
  unfold poly_affine. rewrite get_bit_positions_nonneg by lia. cbn [bind].
  f_equal. rewrite xor_integers_app, map_rev, xor_integers_rev.
  rewrite xor_integers_map_fold. f_equal.
  destruct (Z.eqb_spec c 0) as [->|_]; [reflexivity|].
  rewrite xor_integers_cons. symmetry. apply Z.lxor_0_r.
Qed.

(** The generated affine module computes [poly_affine a p c] on every
    input of [b] bits, when the library holds its XOR tree. *)
Lemma eval_affine_correct (lib : library) (m : Affine.verilog_module)
    (p : Z) :
  gf2_poly_affine_generator.generate_src a c b = Ok m ->
  tree_ok lib (Affine.xor_tree_num_vectors m) (Affine.xor_tree_bit_length m) ->
  0 <= p < 2 ^ b ->
  exists v,
    poly_affine a p c = Ok v /\
    eval_affine lib m p = Some v /\
    0 <= v < 2 ^ (poly_degree a + b).
Proof.
  intros Hgen Htree Hp. pose proof affine_width_nonneg as HW.
  pose proof (affine_bus a c b a_pos m (truncate b p) Hgen) as Hbus.
  assert (Hfields :
    Affine.bit_length m = b /\
    Affine.out_bit_length m = poly_degree a + b /\
    Affine.xor_tree_bit_length m = poly_degree a + b /\
    Affine.xor_tree_num_vectors m
    = Z.of_nat (length (affine_vectors a c b (truncate b p)))).
  { rewrite affine_generate_src_eq in Hgen by assumption. cbn zeta in Hgen.
    injection Hgen as <-.
    cbn [Affine.bit_length Affine.out_bit_length Affine.xor_tree_bit_length
         Affine.xor_tree_num_vectors].
    rewrite affine_vectors_length. repeat split. }
  destruct Hfields as (Hb & Hout & HWm & HN).
  rewrite HN, HWm in Htree.
  eexists. split; [apply xor_integers_affine_vectors|].
  unfold eval_affine. rewrite Hb, Hout, HWm, HN, Hbus.
  rewrite (eval_xor_tree_pack lib _ _ HW
             (affine_vectors_not_nil a c b a_pos _) Htree).
  rewrite (truncate_small b b_nonneg p Hp).
  rewrite affine_vectors_truncate by assumption.
  rewrite <- (affine_vectors_truncate p) by assumption.
  rewrite <- truncate_xor_integers, !truncate_idem by assumption.
  split; [reflexivity|]. now apply truncate_range.
Qed.

End AffineEval.

(** The value of [poly_mod y h] when it returns. *)
Definition remainder (h y : Z) : Z :=
  match poly_mod y h with
  | Ok r => r
  | _ => 0
  end.

Section ModTable.

Import Semantics.

Variable h : Z.
Hypothesis h_pos : 1 <= h.

Let D := poly_degree h.

Lemma degree_nonneg : 0 <= D.
Proof. apply poly_degree_nonneg. lia. Qed.

Lemma poly_mod_remainder (y : Z) :
  0 <= y ->
  poly_mod y h = Ok (remainder h y) /\ 0 <= remainder h y < 2 ^ D.
Proof.
  intros Hy. pose proof degree_nonneg as HD.
  destruct (poly_mod_spec h ltac:(lia) y Hy) as (r & Hr & Hr0 & Hd & _).
  unfold remainder. rewrite Hr. split; [reflexivity|].
  split; [assumption|]. now apply poly_degree_lt_pow2.
Qed.

(** The table entry for input bit [D + k]. *)
Definition table_entry (y k : Z) : Z :=
  if Z.testbit y (D + k) then remainder h (Z.shiftl 1 (D + k)) else 0.

Lemma clear_top_bit (y n : Z) :
  0 <= n -> 0 <= y < 2 ^ (n + 1) ->
  y = Z.lxor (y mod 2 ^ n) (if Z.testbit y n then Z.shiftl 1 n else 0).
Proof.
  intros Hn Hy. apply Z.bits_inj'. intros k Hk.
  rewrite Z.lxor_spec, <- Z.land_ones, Z.land_spec, Z.testbit_ones_nonneg
    by assumption.
  assert (Hsh : Z.testbit (if Z.testbit y n then Z.shiftl 1 n else 0) k
                = Z.testbit y n && (n =? k)).
  { destruct (Z.testbit y n); [|apply Z.bits_0].
    rewrite Z.shiftl_1_l, Z.pow2_bits_eqb by assumption. reflexivity. }
  rewrite Hsh.
  destruct (Z.ltb_spec k n) as [Hlt|Hge], (Z.eqb_spec n k) as [Heq|Hne];
    try lia.
  - now rewrite andb_true_r, andb_false_r, xorb_false_r.
  - subst k. now destruct (Z.testbit y n).
  - assert (Hhigh : Z.testbit y k = false).
    { destruct (Z.eq_dec y 0) as [->|Hy0]; [apply Z.bits_0|].
      apply Z.bits_above_log2; [lia|].
      assert (Z.log2 y < n + 1) by (apply Z.log2_lt_pow2; lia). lia. }
    now rewrite Hhigh, !andb_false_r.
Qed.

(** Reduction by table: the low [D] bits of [y], and the remainder of
    [x^(D+k)] for each set bit [D + k] of [y]. *)
Lemma mod_table (n : nat) :
  forall y, 0 <= y < 2 ^ (D + Z.of_nat n) ->
    poly_mod y h
    = Ok (Z.lxor
            (xor_tree_generator.xor_integers
               (map (table_entry y) (range (Z.of_nat n))))
            (y mod 2 ^ D)).
Proof.
  pose proof degree_nonneg as HD.
  induction n as [|n IH]; intros y Hy.
  - rewrite Z.add_0_r in Hy. cbn [range Z.to_nat seq map].
    change (xor_tree_generator.xor_integers []) with 0.
    rewrite Z.lxor_0_l, Z.mod_small by assumption.
    apply poly_mod_small; [lia|lia|]. now apply poly_degree_lt_pow2.
  - rewrite Nat2Z.inj_succ in Hy.
    replace (D + Z.succ (Z.of_nat n)) with (D + Z.of_nat n + 1) in Hy by lia.
    set (top := D + Z.of_nat n) in *.
    assert (Hpow : 0 < 2 ^ top) by (apply Z.pow_pos_nonneg; lia).
    pose proof (Z.mod_pos_bound y (2 ^ top) Hpow) as Hlow.
    rewrite (clear_top_bit y top ltac:(lia) Hy) at 1.
    assert (Hbit : 0 <= (if Z.testbit y top then Z.shiftl 1 top else 0)).
    { destruct (Z.testbit y top); [apply Z.shiftl_nonneg|]; lia. }
    assert (Hentry : poly_mod (if Z.testbit y top then Z.shiftl 1 top else 0) h
                     = Ok (table_entry y (Z.of_nat n))).
    { unfold table_entry. fold top. destruct (Z.testbit y top).
      - apply poly_mod_remainder. apply Z.shiftl_nonneg. lia.
      - apply poly_mod_small; [lia|lia|]. rewrite poly_degree_0. fold D. lia. }
    assert (Hh : 0 < h) by lia.
    rewrite (poly_mod_lxor h Hh (y mod 2 ^ top) _ _ _ (proj1 Hlow) Hbit
               (IH _ Hlow) Hentry).
    f_equal. rewrite range_succ, map_app, xor_integers_app. cbn [map].
    rewrite xor_integers_cons. change (xor_tree_generator.xor_integers []) with 0.
    rewrite Z.lxor_0_r.
    assert (Hmap : map (table_entry (y mod 2 ^ top)) (range (Z.of_nat n))
                   = map (table_entry y) (range (Z.of_nat n))).
    { apply map_ext_in. intros k Hk. apply in_range in Hk.
      unfold table_entry.
      rewrite <- Z.land_ones, Z.land_spec, Z.testbit_ones_nonneg by lia.
      destruct (Z.ltb_spec (D + k) top); [|lia]. now rewrite andb_true_r. }
    assert (Hmod : (y mod 2 ^ top) mod 2 ^ D = y mod 2 ^ D).
    { rewrite <- !Z.land_ones by lia. apply Z.bits_inj'. intros k Hk.
      rewrite !Z.land_spec, !Z.testbit_ones_nonneg by lia.
      destruct (Z.ltb_spec k D); [|now rewrite !andb_false_r].
      destruct (Z.ltb_spec k top); [|lia]. now rewrite !andb_true_r. }
    rewrite Hmap, Hmod. lxor_ac.
Qed.

End ModTable.

Section ModEval.

Import Semantics.

Variables h b : Z.
Hypothesis h_pos : 1 <= h.
Hypothesis b_wide : poly_degree h <= b.

Lemma reduction_constants_remainders (l consts : list Z) :
  Forall2 (fun k const =>
             poly_mod (Z.shiftl 1 (poly_degree h + k)) h = Ok const)
          l consts ->
  consts = map (fun k => remainder h (Z.shiftl 1 (poly_degree h + k))) l.
Proof.
  induction 1 as [|k const l consts Hk _ IH]; [reflexivity|].
  cbn [map]. unfold remainder at 1. rewrite Hk. now f_equal.
Qed.

Lemma range_length (n : nat) : length (range (Z.of_nat n)) = n.
Proof. unfold range. now rewrite length_map, length_seq, Nat2Z.id. Qed.

Lemma enumerate_map_range (f : Z -> Z) (n : nat) :
  enumerate (map f (range (Z.of_nat n)))
  = map (fun k => (k, f k)) (range (Z.of_nat n)).
Proof.
  induction n as [|n IH]; [reflexivity|].
  rewrite range_succ, !map_app. cbn [map].
  rewrite enumerate_snoc, IH. now rewrite length_map, range_length.
Qed.

(** A loop of assignments to the parts [k] of a bus, over [range n]. *)
Lemma fold_drive_range {S : Type} (step : Z -> S -> Z) (g : Z -> S)
    (val : Z -> Z) (width : Z) :
  (forall bus k,
     step bus (g k)
     = drive bus ((k + 1) * width - 1) (k * width) (val k)) ->
  forall n : nat,
    fold_left step (map g (range (Z.of_nat n))) 0
    = pack width (map val (range (Z.of_nat n))).
Proof.
  intros Hstep. induction n as [|n IH]; [reflexivity|].
  rewrite range_succ, !map_app, fold_left_app, IH. cbn [map fold_left].
  rewrite Hstep, pack_snoc, length_map, range_length. unfold drive.
  do 3 f_equal. ring.
Qed.

(** The vectors of the XOR tree of the reduction module for an input
    [y]. *)
Definition mod_vectors (y : Z) : list Z :=
  map (fun k =>
         mod_driver y
           (ModReducer.Gated (poly_degree h + k) (poly_degree h)
              (remainder h (Z.shiftl 1 (poly_degree h + k)))))
      (range (b - poly_degree h))
  ++ [XorTree.part_select y (poly_degree h - 1) 0].

Lemma mod_vectors_length (y : Z) :
  Z.of_nat (length (mod_vectors y)) = b - poly_degree h + 1.
Proof.
  unfold mod_vectors, range.
  rewrite length_app, !length_map, length_seq. cbn [length]. lia.
Qed.

Lemma mod_vectors_not_nil (y : Z) : mod_vectors y <> [].
Proof. unfold mod_vectors. now destruct (map _ _). Qed.

Lemma mod_bus (m : ModReducer.verilog_module) (y : Z) :
  gf2_poly_mod_generator.generate_src h b = Ok m ->
  fold_left
    (fun bus asg =>
       drive bus (ModReducer.msb asg) (ModReducer.lsb asg)
         (mod_driver y (ModReducer.source asg)))
    (ModReducer.assigns m) 0
  = pack (poly_degree h) (mod_vectors y).
Proof.
  destruct (mod_generate_src_eq h h_pos b b_wide)
    as (consts & _ & Hlen & Hall & ->).
  cbn zeta. intros [= <-]. cbn [ModReducer.assigns].
  apply reduction_constants_remainders in Hall. subst consts.
  set (D := poly_degree h) in *.
  assert (Hn : b - D = Z.of_nat (Z.to_nat (b - D))) by lia.
  unfold mod_vectors. fold D. rewrite Hn.
  set (n := Z.to_nat (b - D)).
  rewrite enumerate_map_range, map_map, fold_left_app.
  rewrite (fold_drive_range
             (fun bus asg =>
                drive bus (ModReducer.msb asg) (ModReducer.lsb asg)
                  (mod_driver y (ModReducer.source asg)))
             _ (fun k => mod_driver y
                           (ModReducer.Gated (D + k) D
                              (remainder h (Z.shiftl 1 (D + k))))) D)
    by reflexivity.
  cbn [fold_left ModReducer.msb ModReducer.lsb ModReducer.source].
  rewrite pack_snoc, length_map, range_length. unfold drive.
  do 2 f_equal; [f_equal; ring|ring].
Qed.

Lemma mod_vectors_truncate (y : Z) :
  map (truncate (poly_degree h)) (mod_vectors y)
  = map (table_entry h y) (range (b - poly_degree h))
    ++ [y mod 2 ^ poly_degree h].
Proof.
  pose proof (degree_nonneg h h_pos) as HD.
  unfold mod_vectors. rewrite map_app, map_map. cbn [map]. f_equal.
  - apply map_ext_in. intros k Hk.
    assert (0 <= k).
    { unfold range in Hk. apply in_map_iff in Hk.
      destruct Hk as (i & <- & _). lia. }
    unfold table_entry. cbn [mod_driver].
    destruct (Z.testbit y (poly_degree h + k)).
    + rewrite truncate_idem. apply truncate_small; [assumption|].
      apply poly_mod_remainder; [assumption|]. apply Z.shiftl_nonneg. lia.
    + rewrite truncate_idem. unfold truncate. apply Z.land_0_l.
  - f_equal. unfold XorTree.part_select, truncate.
    replace (poly_degree h - 1 - 0 + 1) with (poly_degree h) by ring.
    rewrite Z.shiftr_0_r, <- Z.land_assoc, Z.land_diag.
    now apply Z.land_ones.
Qed.

(** The generated reduction module of a modulus of degree at least 1
    computes [poly_mod y h] on every input of [b] bits, when the library
    holds its XOR tree. *)
Lemma eval_mod_correct (lib : library) (m : ModReducer.verilog_module)
    (y : Z) :
  1 <= poly_degree h ->
  gf2_poly_mod_generator.generate_src h b = Ok m ->
  tree_ok lib (ModReducer.xor_tree_num_vectors m)
              (ModReducer.xor_tree_bit_length m) ->
  0 <= y < 2 ^ b ->
  exists v,
    poly_mod y h = Ok v /\
    eval_mod lib m y = Some v /\
    0 <= v < 2 ^ poly_degree h.
Proof.
  intros Hdeg1 Hgen Htree Hy. pose proof (degree_nonneg h h_pos) as HD.
  pose proof (mod_bus m (truncate b y) Hgen) as Hbus.
  assert (Hfields :
    ModReducer.in_bit_length m = b /\
    ModReducer.out_bit_length m = poly_degree h /\
    ModReducer.xor_tree_bit_length m = poly_degree h /\
    ModReducer.xor_tree_num_vectors m
    = Z.of_nat (length (mod_vectors (truncate b y)))).
  { destruct (mod_generate_src_eq h h_pos b b_wide)
      as (consts & _ & Hlen & _ & Hsrc).
    rewrite Hsrc in Hgen. cbn zeta in Hgen. injection Hgen as <-.
    cbn [ModReducer.in_bit_length ModReducer.out_bit_length
         ModReducer.xor_tree_bit_length ModReducer.xor_tree_num_vectors].
    rewrite mod_vectors_length. repeat split. }
  destruct Hfields as (Hb & Hout & HWm & HN).
  rewrite HN, HWm in Htree.
  assert (Hbn : b = poly_degree h + Z.of_nat (Z.to_nat (b - poly_degree h)))
    by lia.
  assert (Hrun := mod_table h h_pos (Z.to_nat (b - poly_degree h)) y).
  rewrite <- Hbn in Hrun. specialize (Hrun Hy).
  rewrite Z2Nat.id in Hrun by lia.
  eexists. split; [exact Hrun|].
  unfold eval_mod. rewrite Hb, Hout, HWm, HN, Hbus.
  destruct (Z.leb_spec (poly_degree h) 0) as [Hzero|_]; [lia|].
  rewrite (eval_xor_tree_pack lib _ _ HD (mod_vectors_not_nil _) Htree).
  rewrite (truncate_small b ltac:(lia) y Hy).
  assert (Hvalue :
    xor_tree_generator.xor_integers
      (map (truncate (poly_degree h)) (mod_vectors y))
    = Z.lxor
        (xor_tree_generator.xor_integers
           (map (table_entry h y) (range (b - poly_degree h))))
        (y mod 2 ^ poly_degree h)).
  { rewrite mod_vectors_truncate, xor_integers_app, xor_integers_cons.
    change (xor_tree_generator.xor_integers []) with 0.
    now rewrite Z.lxor_0_r. }
  rewrite <- Hvalue.
  rewrite <- truncate_xor_integers, !truncate_idem by assumption.
  split; [reflexivity|]. now apply truncate_range.
Qed.

End ModEval.

(** * The files of a run *)

Section Runs.

Context `{Random}.

(** The world after a run that created the directories, wrote the source
    files [new_src] and the test benches [new_tb], and left the random
    generator in state [g]. *)
Definition after_run (w : world)
    (new_src : list (module_name * source_file))
    (new_tb : list (module_name * testbench_file)) (g : rng_state) : world :=
  {| src_dir := true; tb_dir := true;
     src_files := new_src ++ src_files w;
     tb_files := new_tb ++ tb_files w;
     rng := g |}.

Lemma draw_integers_ok (bit_length : Z) :
  0 <= bit_length ->
  forall count g,
  exists vs g',
    draw_integers count bit_length g = (Ok vs, g') /\
    length vs = count /\
    Forall (fun v => 0 <= v < 2 ^ bit_length) vs.
Proof.
  intros Hb. induction count as [|count IH]; intros g.
  - exists [], g. repeat split. constructor.
  - cbn [draw_integers]. destruct (Z.ltb_spec bit_length 0); [lia|].
    assert (Hpow : 0 < 2 ^ bit_length) by (apply Z.pow_pos_nonneg; lia).
    pose proof (rng_randint_range 0 (2 ^ bit_length - 1) g ltac:(lia))
      as Hrange.
    destruct (rng_randint 0 (2 ^ bit_length - 1) g) as [v g1].
    cbn [fst] in Hrange.
    destruct (IH g1) as (vs & g' & -> & Hlen & Hall).
    exists (v :: vs), g'. repeat split.
    + cbn [length]. now rewrite Hlen.
    + constructor; [lia|assumption].
Qed.

Lemma generate_random_integers_ok (num_vectors bit_length seed : Z) :
  0 <= bit_length ->
  exists vs g,
    length vs = Z.to_nat num_vectors /\
    Forall (fun v => 0 <= v < 2 ^ bit_length) vs /\
    forall w,
      generate_random_integers num_vectors bit_length seed w
      = (Ok vs, {| src_dir := src_dir w; tb_dir := tb_dir w;
                   src_files := src_files w; tb_files := tb_files w;
                   rng := g |}).
Proof.
  intros Hb.
  destruct (draw_integers_ok bit_length Hb (Z.to_nat num_vectors)
              (rng_seed seed)) as (vs & g & Hdraw & Hlen & Hall).
  exists vs, g. repeat split; try assumption.
  intros w. unfold generate_random_integers, with_rng. now rewrite Hdraw.
Qed.

(** A run of the XOR tree generator: one source file and one test bench,
    whose stimulus has [num_vectors] values of [bit_length] bits. *)
Lemma xor_tree_run (num_vectors bit_length : Z) :
  1 <= num_vectors -> 0 <= bit_length ->
  exists m tb g,
    xor_tree_generator.generate_src num_vectors bit_length = Ok m /\
    XorTree.tb_num_vectors tb = num_vectors /\
    XorTree.tb_bit_length tb = bit_length /\
    Z.of_nat (length (XorTree.code_input tb)) = num_vectors /\
    Forall (fun v => 0 <= v < 2 ^ bit_length) (XorTree.code_input tb) /\
    XorTree.expected_code_output tb
    = xor_tree_generator.xor_integers (XorTree.code_input tb) /\
    forall w,
      xor_tree_generator.generate_verilog_and_tb_to_files
        num_vectors bit_length w
      = (Ok tt,
         after_run w
           [(xor_tree num_vectors bit_length, XorTreeSrc m)]
           [(xor_tree num_vectors bit_length, XorTreeTb tb)] g).
Proof.
  intros HN HW.
  destruct (xor_tree_eval num_vectors bit_length 0 HN HW)
    as (m & Hgen & _).
  destruct (generate_random_integers_ok num_vectors bit_length 42 HW)
    as (vs & g & Hlen & Hall & Hdraw).
  exists m,
    {| XorTree.tb_num_vectors := num_vectors;
       XorTree.tb_bit_length := bit_length;
       XorTree.code_input := vs;
       XorTree.expected_code_output := xor_tree_generator.xor_integers vs |},
    g.
  cbn [XorTree.tb_num_vectors XorTree.tb_bit_length XorTree.code_input
       XorTree.expected_code_output].
  repeat split; try assumption; [lia|].
  intros w.
  unfold xor_tree_generator.generate_verilog_and_tb_to_files,
    xor_tree_generator.generate_tb,
    xor_tree_generator.random_computation_example,
    gen_bind, makedirs, pure, write_src, write_tb, gen_ret.
  rewrite Hgen, Hdraw. reflexivity.
Qed.

End Runs.

Section AffineRun.

Context `{Random}.

Lemma one_random_integer (bit_length seed : Z) :
  0 <= bit_length ->
  exists v g,
    0 <= v < 2 ^ bit_length /\
    forall w,
      generate_random_integers 1 bit_length seed w
      = (Ok [v], {| src_dir := src_dir w; tb_dir := tb_dir w;
                    src_files := src_files w; tb_files := tb_files w;
                    rng := g |}).
Proof.
  intros Hb.
  destruct (generate_random_integers_ok 1 bit_length seed Hb)
    as (vs & g & Hlen & Hall & Hdraw).
  destruct vs as [|v [|v' vs]]; try discriminate Hlen.
  exists v, g. split; [now inversion Hall|exact Hdraw].
Qed.

Lemma bit_positions_length_pos (a : Z) :
  1 <= a -> 1 <= Z.of_nat (length (rev (bit_positions a))).
Proof.
  intros Ha. destruct (bit_positions_degree a Ha) as ((front & ->) & _).
  rewrite length_rev, length_app. cbn [length]. lia.
Qed.

(** A run of the affine generator: the XOR tree first, then the module
    and a test bench whose expected output is [poly_affine] of its
    input. *)
Lemma affine_run (a c b : Z) :
  1 <= a -> 0 <= c -> 0 <= b ->
  exists m tree tb tree_tb g,
    gf2_poly_affine_generator.generate_src a c b = Ok m /\
    xor_tree_generator.generate_src
      (Affine.xor_tree_num_vectors m) (Affine.xor_tree_bit_length m)
    = Ok tree /\
    Affine.tb_bit_length tb = b /\
    Affine.tb_out_bit_length tb = poly_degree a + b /\
    0 <= Affine.code_input tb < 2 ^ b /\
    poly_affine a (Affine.code_input tb) c
    = Ok (Affine.expected_code_output tb) /\
    forall w,
      gf2_poly_affine_generator.generate_verilog_and_tb_to_files a c b w
      = (Ok tt,
         after_run w
           [(gf2_poly_affine b, AffineSrc m);
            (xor_tree (Affine.xor_tree_num_vectors m)
                      (Affine.xor_tree_bit_length m), XorTreeSrc tree)]
           [(gf2_poly_affine b, AffineTb tb);
            (xor_tree (Affine.xor_tree_num_vectors m)
                      (Affine.xor_tree_bit_length m), XorTreeTb tree_tb)]
           g).
Proof.
  intros Ha Hc Hb.
  pose proof (affine_generate_src_eq a c b Ha) as Hsrc. cbn zeta in Hsrc.
  pose proof (poly_degree_nonneg a ltac:(lia)) as Hdeg.
  pose proof (bit_positions_length_pos a Ha) as Hlen.
  set (N := if c =? 0 then Z.of_nat (length (rev (bit_positions a)))
            else Z.of_nat (length (rev (bit_positions a))) + 1) in *.
  assert (HN : 1 <= N) by (unfold N; destruct (c =? 0); lia).
  destruct (xor_tree_run N (poly_degree a + b) HN ltac:(lia))
    as (tree & tree_tb & g1 & Htree & _ & _ & _ & _ & _ & Htree_run).
  destruct (one_random_integer b 42 Hb) as (v & g & Hv & Hdraw).
  eexists. exists tree.
  exists {| Affine.tb_bit_length := b;
            Affine.tb_out_bit_length := poly_degree a + b;
            Affine.code_input := v;
            Affine.expected_code_output := Z.lxor (clmul a v) c |}.
  exists tree_tb, g.
  split; [exact Hsrc|].
  cbn [Affine.xor_tree_num_vectors Affine.xor_tree_bit_length
       Affine.tb_bit_length Affine.tb_out_bit_length Affine.code_input
       Affine.expected_code_output].
  split; [exact Htree|]. split; [reflexivity|]. split; [reflexivity|].
  split; [exact Hv|]. split; [apply poly_affine_clmul; lia|].
  intros w.
  unfold gf2_poly_affine_generator.generate_verilog_and_tb_to_files,
    gf2_poly_affine_generator.generate_submodules_verilog_and_tb_to_files,
    gf2_poly_affine_generator.generate_tb,
    gf2_poly_affine_generator.random_computation_example.
  unfold gen_bind at 1 2 3. unfold pure at 1 2.
  rewrite get_bit_positions_nonneg by lia.
  rewrite (first_a_ones a Ha). fold N.
  rewrite Htree_run.
  unfold gen_bind, makedirs, pure, write_src, write_tb, gen_ret.
  rewrite Hsrc, Hdraw. cbn [first].
  rewrite (poly_affine_clmul a v c) by lia. cbn [fst snd].
  rewrite (first_a_ones a Ha). reflexivity.
Qed.

End AffineRun.

Section ModRun.

Context `{Random}.

(** A run of the reduction generator: the XOR tree first, then the module
    and a test bench whose expected output is [poly_mod] of its input. *)
Lemma mod_run (h b : Z) :
  1 <= h -> poly_degree h <= b ->
  exists m tree tb tree_tb g,
    gf2_poly_mod_generator.generate_src h b = Ok m /\
    xor_tree_generator.generate_src
      (ModReducer.xor_tree_num_vectors m) (ModReducer.xor_tree_bit_length m)
    = Ok tree /\
    ModReducer.tb_in_bit_length tb = b /\
    ModReducer.tb_out_bit_length tb = poly_degree h /\
    0 <= ModReducer.code_input tb < 2 ^ b /\
    poly_mod (ModReducer.code_input tb) h
    = Ok (ModReducer.expected_code_output tb) /\
    forall w,
      gf2_poly_mod_generator.generate_verilog_and_tb_to_files h b w
      = (Ok tt,
         after_run w
           [(gf2_poly_mod b, ModSrc m);
            (xor_tree (ModReducer.xor_tree_num_vectors m)
                      (ModReducer.xor_tree_bit_length m), XorTreeSrc tree)]
           [(gf2_poly_mod b, ModTb tb);
            (xor_tree (ModReducer.xor_tree_num_vectors m)
                      (ModReducer.xor_tree_bit_length m), XorTreeTb tree_tb)]
           g).
Proof.
  intros Hh Hb.
  pose proof (poly_degree_nonneg h ltac:(lia)) as HD.
  destruct (mod_generate_src_eq h Hh b Hb)
    as (consts & _ & _ & _ & Hsrc). cbn zeta in Hsrc.
  destruct (xor_tree_run (b - poly_degree h + 1) (poly_degree h)
              ltac:(lia) HD)
    as (tree & tree_tb & g1 & Htree & _ & _ & _ & _ & _ & Htree_run).
  destruct (one_random_integer b 42 ltac:(lia)) as (y & g & Hy & Hdraw).
  destruct (poly_mod_remainder h Hh y ltac:(lia)) as (Hrem & _).
  eexists. exists tree.
  exists {| ModReducer.tb_in_bit_length := b;
            ModReducer.tb_out_bit_length := poly_degree h;
            ModReducer.code_input := y;
            ModReducer.expected_code_output := remainder h y |}.
  exists tree_tb, g.
  split; [exact Hsrc|].
  cbn [ModReducer.xor_tree_num_vectors ModReducer.xor_tree_bit_length
       ModReducer.tb_in_bit_length ModReducer.tb_out_bit_length
       ModReducer.code_input ModReducer.expected_code_output].
  split; [exact Htree|]. split; [reflexivity|]. split; [reflexivity|].
  split; [exact Hy|]. split; [exact Hrem|].
  intros w.
  unfold gf2_poly_mod_generator.generate_verilog_and_tb_to_files,
    gf2_poly_mod_generator.generate_submodules_verilog_and_tb_to_files,
    gf2_poly_mod_generator.generate_tb,
    gf2_poly_mod_generator.random_computation_example,
    gf2_poly_mod_generator.binary_length.
  rewrite (int_bit_length_degree h Hh).
  replace (Z.max (b - poly_degree h + 1) 0) with (b - poly_degree h + 1)
    by lia.
  unfold gen_bind at 1. rewrite Htree_run.
  unfold gen_bind, makedirs, pure, write_src, write_tb, gen_ret.
  rewrite Hsrc, Hdraw. cbn [first]. rewrite Hrem.
  destruct (Z.eqb_spec h 0); [lia|]. destruct (Z.ltb_spec h 0); [lia|].
  rewrite (int_bit_length_degree h Hh). reflexivity.
Qed.

End ModRun.

Section SoftwareModel.

Variables a c h : Z.
Hypothesis a_nonneg : 0 <= a.
Hypothesis c_nonneg : 0 <= c.
Hypothesis h_pos : 1 <= h.

(** [poly_affine_mod] returns, and its result fits the state register. *)
Lemma poly_affine_mod_ok (p : Z) :
  0 <= p ->
  exists v,
    poly_affine_mod a p c h = Ok v /\ 0 <= v < 2 ^ poly_degree h.
Proof.
  intros Hp. unfold poly_affine_mod.
  rewrite poly_affine_clmul by assumption. cbn [bind].
  exists (remainder h (Z.lxor (clmul a p) c)).
  apply poly_mod_remainder; [assumption|].
  apply lxor_nonneg'; [now apply clmul_nonneg|assumption].
Qed.

Lemma iterate_prng_ok (count : nat) :
  forall prng_in, 0 <= prng_in ->
    exists v, gf2e_prng_tool.iterate_prng count a c h prng_in = Ok v /\
              0 <= v.
Proof.
  induction count as [|count IH]; intros prng_in Hin.
  - exists prng_in. now split.
  - cbn [gf2e_prng_tool.iterate_prng].
    destruct (poly_affine_mod_ok prng_in Hin) as (v & -> & Hv).
    cbn [bind]. apply IH. lia.
Qed.

End SoftwareModel.

Section ComposedRuns.

Context `{Random}.

(** A run of the composed generator: the affine module and the reduction
    module with their trees and test benches, then the module that chains
    them. *)
Lemma affine_mod_run (a c h b : Z) :
  1 <= a -> 0 <= c -> 1 <= h -> 0 <= b ->
  poly_degree h <= b + poly_degree a ->
  exists affine affine_tree reducer mod_tree tb affine_tb affine_tree_tb
         mod_tb mod_tree_tb g,
    gf2_poly_affine_generator.generate_src a c b = Ok affine /\
    xor_tree_generator.generate_src
      (Affine.xor_tree_num_vectors affine)
      (Affine.xor_tree_bit_length affine) = Ok affine_tree /\
    gf2_poly_mod_generator.generate_src h (b + poly_degree a) = Ok reducer /\
    xor_tree_generator.generate_src
      (ModReducer.xor_tree_num_vectors reducer)
      (ModReducer.xor_tree_bit_length reducer) = Ok mod_tree /\
    AffineMod.tb_in_bit_length tb = b /\
    AffineMod.tb_out_bit_length tb = poly_degree h /\
    0 <= AffineMod.code_input tb < 2 ^ b /\
    poly_affine_mod a (AffineMod.code_input tb) c h
    = Ok (AffineMod.expected_code_output tb) /\
    forall w,
      gf2_poly_affine_mod_generator.generate_verilog_and_tb_to_files
        a c h b w
      = (Ok tt,
         after_run w
           [(gf2_poly_affine_mod b,
             AffineModSrc
               (gf2_poly_affine_mod_generator.generate_src a c h b));
            (gf2_poly_mod (b + poly_degree a), ModSrc reducer);
            (xor_tree (ModReducer.xor_tree_num_vectors reducer)
                      (ModReducer.xor_tree_bit_length reducer),
             XorTreeSrc mod_tree);
            (gf2_poly_affine b, AffineSrc affine);
            (xor_tree (Affine.xor_tree_num_vectors affine)
                      (Affine.xor_tree_bit_length affine),
             XorTreeSrc affine_tree)]
           [(gf2_poly_affine_mod b, AffineModTb tb);
            (gf2_poly_mod (b + poly_degree a), ModTb mod_tb);
            (xor_tree (ModReducer.xor_tree_num_vectors reducer)
                      (ModReducer.xor_tree_bit_length reducer),
             XorTreeTb mod_tree_tb);
            (gf2_poly_affine b, AffineTb affine_tb);
            (xor_tree (Affine.xor_tree_num_vectors affine)
                      (Affine.xor_tree_bit_length affine),
             XorTreeTb affine_tree_tb)]
           g).
Proof.
  intros Ha Hc Hh Hb Hwide.
  destruct (affine_run a c b Ha Hc Hb)
    as (affine & affine_tree & atb & attb & g1 & Haff & Hatree & _ & _ & _
        & _ & Harun).
  destruct (mod_run h (b + poly_degree a) Hh Hwide)
    as (reducer & mod_tree & mtb & mttb & g2 & Hred & Hmtree & _ & _ & _
        & _ & Hmrun).
  destruct (one_random_integer b 42 Hb) as (p & g & Hp & Hdraw).
  destruct (poly_affine_mod_ok a c h ltac:(lia) Hc Hh p ltac:(lia))
    as (v & Hv & _).
  exists affine, affine_tree, reducer, mod_tree.
  exists {| AffineMod.tb_in_bit_length := b;
            AffineMod.tb_out_bit_length := poly_degree h;
            AffineMod.code_input := p;
            AffineMod.expected_code_output := v |}.
  exists atb, attb, mtb, mttb, g.
  split; [exact Haff|]. split; [exact Hatree|]. split; [exact Hred|].
  split; [exact Hmtree|].
  cbn [AffineMod.tb_in_bit_length AffineMod.tb_out_bit_length
       AffineMod.code_input AffineMod.expected_code_output].
  split; [reflexivity|]. split; [reflexivity|]. split; [exact Hp|].
  split; [exact Hv|].
  intros w.
  unfold gf2_poly_affine_mod_generator.generate_verilog_and_tb_to_files,
    gf2_poly_affine_mod_generator.generate_submodules_verilog_and_tb_to_files,
    gf2_poly_affine_mod_generator.generate_tb,
    gf2_poly_affine_mod_generator.random_computation_example.
  unfold gen_bind at 1 2. rewrite Harun, Hmrun.
  unfold gen_bind, makedirs, pure, write_src, write_tb, gen_ret.
  rewrite Hdraw. cbn [first]. rewrite Hv.
  rewrite (int_bit_length_degree h Hh).
  reflexivity.
Qed.

End ComposedRuns.

(** * The composed circuits *)

(** The library holds the affine module for [a], [c] and [b] input bits,
    and its tree. *)
Definition affine_ok (lib : Semantics.library) (a c b : Z) : Prop :=
  exists m,
    lookup (gf2_poly_affine b) lib = Some (AffineSrc m) /\
    gf2_poly_affine_generator.generate_src a c b = Ok m /\
    tree_ok lib (Affine.xor_tree_num_vectors m)
                (Affine.xor_tree_bit_length m).

(** The library holds the reduction module for [h] and [b] input bits,
    and its tree. *)
Definition mod_ok (lib : Semantics.library) (h b : Z) : Prop :=
  exists m,
    lookup (gf2_poly_mod b) lib = Some (ModSrc m) /\
    gf2_poly_mod_generator.generate_src h b = Ok m /\
    tree_ok lib (ModReducer.xor_tree_num_vectors m)
                (ModReducer.xor_tree_bit_length m).

Section ComposedCircuit.

Import Semantics.

Variables a c h b : Z.
Hypothesis a_pos : 1 <= a.
Hypothesis c_range : 0 <= c < 2 ^ (poly_degree a + b).
Hypothesis h_pos : 1 <= h.
Hypothesis h_deg : 1 <= poly_degree h.
Hypothesis b_nonneg : 0 <= b.
Hypothesis b_wide : poly_degree h <= b + poly_degree a.

(** The module that chains the affine module and the reduction module
    computes [poly_affine_mod a p c h] on every input of [b] bits. *)
Lemma eval_affine_mod_correct (lib : library) (p : Z) :
  affine_ok lib a c b -> mod_ok lib h (b + poly_degree a) ->
  0 <= p < 2 ^ b ->
  exists v,
    poly_affine_mod a p c h = Ok v /\
    eval_affine_mod lib
      (gf2_poly_affine_mod_generator.generate_src a c h b) p = Some v /\
    0 <= v < 2 ^ poly_degree h.
Proof.
  intros (affine & Hla & Hga & Hta) (reducer & Hlm & Hgm & Htm) Hp.
  pose proof (degree_nonneg h h_pos) as HD.
  pose proof (poly_degree_nonneg a ltac:(lia)) as Hdeg.
  destruct (eval_affine_correct a c b a_pos b_nonneg c_range lib affine p
              Hga Hta Hp) as (v1 & Hv1 & He1 & Hr1).
  replace (poly_degree a + b) with (b + poly_degree a) in Hr1 by ring.
  destruct (eval_mod_correct h (b + poly_degree a) h_pos b_wide lib reducer
              v1 h_deg Hgm Htm Hr1) as (v2 & Hv2 & He2 & Hr2).
  exists v2. split; [|split; [|exact Hr2]].
  - unfold poly_affine_mod. rewrite Hv1. exact Hv2.
  - unfold eval_affine_mod, gf2_poly_affine_mod_generator.generate_src.
    cbn [AffineMod.in_bit_length AffineMod.out_bit_length
         AffineMod.affine_in_bit_length AffineMod.affine_out_bit_length
         AffineMod.mod_in_bit_length AffineMod.mod_out_bit_length].
    rewrite (int_bit_length_degree h h_pos).
    rewrite !(truncate_small b b_nonneg p Hp), Hla, He1.
    rewrite !(truncate_small (b + poly_degree a) ltac:(lia) v1 Hr1).
    rewrite Hlm, He2.
    now rewrite !(truncate_small (poly_degree h) HD v2 Hr2).
Qed.

End ComposedCircuit.

Section TreeLookup.

Lemma tree_ok_here (lib : Semantics.library) (N W : Z)
    (m : XorTree.verilog_module) :
  xor_tree_generator.generate_src N W = Ok m ->
  tree_ok ((xor_tree N W, XorTreeSrc m) :: lib) N W.
Proof.
  intros Hgen. exists m. split; [|exact Hgen].
  cbn [lookup module_name_eqb]. now rewrite !Z.eqb_refl.
Qed.

Lemma tree_ok_skip_tree (lib : Semantics.library) (N W N' W' : Z)
    (m' : XorTree.verilog_module) :
  xor_tree_generator.generate_src N' W' = Ok m' ->
  tree_ok lib N W ->
  tree_ok ((xor_tree N' W', XorTreeSrc m') :: lib) N W.
Proof.
  intros Hgen' (m & Hlook & Hgen). unfold tree_ok.
  cbn [lookup module_name_eqb].
  destruct (Z.eqb_spec N N') as [->|_]; cbn [andb].
  - destruct (Z.eqb_spec W W') as [->|_].
    + exists m'. now split.
    + exists m. now split.
  - exists m. now split.
Qed.

Lemma tree_ok_skip (lib : Semantics.library) (N W : Z)
    (name : module_name) (code : source_file) :
  module_name_eqb (xor_tree N W) name = false ->
  tree_ok lib N W -> tree_ok ((name, code) :: lib) N W.
Proof.
  intros Hname (m & Hlook & Hgen). exists m. split; [|exact Hgen].
  cbn [lookup]. now rewrite Hname.
Qed.

End TreeLookup.

Section PrngRun.

Context `{Random}.

(** A run of the PRNG generator: the composed module with everything below
    it, then the sequential module and its test bench. *)
Lemma prng_run (a c h : Z) :
  1 <= a -> 0 <= c -> 1 <= h ->
  exists affine affine_tree reducer mod_tree tb sub_tb g,
    gf2_poly_affine_generator.generate_src a c (poly_degree h) = Ok affine /\
    xor_tree_generator.generate_src
      (Affine.xor_tree_num_vectors affine)
      (Affine.xor_tree_bit_length affine) = Ok affine_tree /\
    gf2_poly_mod_generator.generate_src h (poly_degree h + poly_degree a)
    = Ok reducer /\
    xor_tree_generator.generate_src
      (ModReducer.xor_tree_num_vectors reducer)
      (ModReducer.xor_tree_bit_length reducer) = Ok mod_tree /\
    Prng.tb_bit_length tb = poly_degree h /\
    Prng.iterations tb = 100 /\
    0 <= Prng.code_input tb < 2 ^ poly_degree h /\
    gf2e_prng_tool.iterate_prng 100 a c h (Prng.code_input tb)
    = Ok (Prng.expected_code_output tb) /\
    forall w,
      gf2e_prng_tool.generate_verilog_and_tb_to_files a c h w
      = (Ok tt,
         after_run w
           [(gf2_prng (poly_degree h),
             PrngSrc (gf2e_prng_tool.generate_src a c h));
            (gf2_poly_affine_mod (poly_degree h),
             AffineModSrc
               (gf2_poly_affine_mod_generator.generate_src
                  a c h (poly_degree h)));
            (gf2_poly_mod (poly_degree h + poly_degree a), ModSrc reducer);
            (xor_tree (ModReducer.xor_tree_num_vectors reducer)
                      (ModReducer.xor_tree_bit_length reducer),
             XorTreeSrc mod_tree);
            (gf2_poly_affine (poly_degree h), AffineSrc affine);
            (xor_tree (Affine.xor_tree_num_vectors affine)
                      (Affine.xor_tree_bit_length affine),
             XorTreeSrc affine_tree)]
           ((gf2_prng (poly_degree h), PrngTb tb) :: sub_tb) g).
Proof.
  intros Ha Hc Hh.
  pose proof (poly_degree_nonneg h ltac:(lia)) as HD.
  pose proof (poly_degree_nonneg a ltac:(lia)) as Hdeg.
  destruct (affine_mod_run a c h (poly_degree h) Ha Hc Hh HD ltac:(lia))
    as (affine & affine_tree & reducer & mod_tree & amtb & atb & attb & mtb
        & mttb & g1 & Haff & Hatree & Hred & Hmtree & _ & _ & _ & _ & Hrun).
  destruct (one_random_integer (poly_degree h) 42 HD)
    as (S & g & HS & Hdraw).
  destruct (iterate_prng_ok a c h ltac:(lia) Hc Hh 100 S ltac:(lia))
    as (v & Hv & _).
  exists affine, affine_tree, reducer, mod_tree.
  exists {| Prng.tb_bit_length := poly_degree h;
            Prng.code_input := S;
            Prng.iterations := 100;
            Prng.expected_code_output := v |}.
  eexists. exists g.
  split; [exact Haff|]. split; [exact Hatree|]. split; [exact Hred|].
  split; [exact Hmtree|].
  cbn [Prng.tb_bit_length Prng.code_input Prng.iterations
       Prng.expected_code_output].
  split; [reflexivity|]. split; [reflexivity|]. split; [exact HS|].
  split; [exact Hv|].
  intros w.
  unfold gf2e_prng_tool.generate_verilog_and_tb_to_files,
    gf2e_prng_tool.generate_submodules_verilog_and_tb_to_files,
    gf2e_prng_tool.generate_tb,
    gf2e_prng_tool.random_computation_example.
  unfold gen_bind at 1. rewrite Hrun.
  unfold gen_bind, makedirs, pure, write_src, write_tb, gen_ret.
  rewrite Hdraw. cbn [first]. rewrite Hv.
  reflexivity.
Qed.

End PrngRun.

Section PrngCircuit.

Import Semantics.

Variables a c h : Z.
Hypothesis a_pos : 1 <= a.
Hypothesis c_range : 0 <= c < 2 ^ (poly_degree a + poly_degree h).
Hypothesis h_pos : 1 <= h.
Hypothesis h_deg : 1 <= poly_degree h.

(** A library in which the PRNG module finds the modules of its
    parameters. *)
Definition prng_ok (lib : library) : Prop :=
  lookup (gf2_poly_affine_mod (poly_degree h)) lib
  = Some (AffineModSrc
            (gf2_poly_affine_mod_generator.generate_src
               a c h (poly_degree h))) /\
  affine_ok lib a c (poly_degree h) /\
  mod_ok lib h (poly_degree h + poly_degree a).

Lemma next_state_correct (lib : library) (state : Z) :
  prng_ok lib -> 0 <= state < 2 ^ poly_degree h ->
  exists v,
    poly_affine_mod a state c h = Ok v /\
    next_state lib (gf2e_prng_tool.generate_src a c h) state = Some v /\
    0 <= v < 2 ^ poly_degree h.
Proof.
  intros (Hlook & Haff & Hmod) Hstate.
  pose proof (degree_nonneg h h_pos) as HD.
  pose proof (poly_degree_nonneg a ltac:(lia)) as Hdeg.
  destruct (eval_affine_mod_correct a c h (poly_degree h) a_pos c_range
              h_pos h_deg HD ltac:(lia) lib state Haff Hmod Hstate)
    as (v & Hv & Heval & Hr).
  exists v. split; [exact Hv|]. split; [|exact Hr].
  unfold next_state, gf2e_prng_tool.generate_src. cbn [Prng.bit_length].
  rewrite Hlook, Heval. now rewrite (truncate_small _ HD v Hr).
Qed.

(** [k] enabled clock edges are [k] iterations of [poly_affine_mod]. *)
Lemma run_enabled_correct (lib : library) (k : nat) :
  prng_ok lib ->
  forall state, 0 <= state < 2 ^ poly_degree h ->
    exists v,
      gf2e_prng_tool.iterate_prng k a c h state = Ok v /\
      run_enabled lib (gf2e_prng_tool.generate_src a c h) k state = Some v /\
      0 <= v < 2 ^ poly_degree h.
Proof.
  intros Hlib. induction k as [|k IH]; intros state Hstate.
  - exists state. repeat split; lia.
  - destruct (next_state_correct lib state Hlib Hstate)
      as (v & Hv & Hnext & Hr).
    destruct (IH v Hr) as (v' & Hv' & Hrun & Hr').
    exists v'. split; [|split; [|exact Hr']].
    + cbn [gf2e_prng_tool.iterate_prng]. rewrite Hv. exact Hv'.
    + cbn [run_enabled clock]. rewrite Hnext. exact Hrun.
Qed.

End PrngCircuit.

Section RunLibraries.

Import Semantics.

Lemma affine_run_library (a c b : Z) (m : Affine.verilog_module)
    (tree : XorTree.verilog_module) (lib : library) :
  gf2_poly_affine_generator.generate_src a c b = Ok m ->
  xor_tree_generator.generate_src
    (Affine.xor_tree_num_vectors m) (Affine.xor_tree_bit_length m)
  = Ok tree ->
  affine_ok
    ([(gf2_poly_affine b, AffineSrc m);
      (xor_tree (Affine.xor_tree_num_vectors m)
                (Affine.xor_tree_bit_length m), XorTreeSrc tree)] ++ lib)
    a c b.
Proof.
  intros Hm Htree. exists m. cbn [app]. split; [|split; [exact Hm|]].
  - cbn [lookup module_name_eqb]. now rewrite Z.eqb_refl.
  - apply tree_ok_skip; [reflexivity|]. now apply tree_ok_here.
Qed.

Lemma mod_run_library (h b : Z) (m : ModReducer.verilog_module)
    (tree : XorTree.verilog_module) (lib : library) :
  gf2_poly_mod_generator.generate_src h b = Ok m ->
  xor_tree_generator.generate_src
    (ModReducer.xor_tree_num_vectors m) (ModReducer.xor_tree_bit_length m)
  = Ok tree ->
  mod_ok
    ([(gf2_poly_mod b, ModSrc m);
      (xor_tree (ModReducer.xor_tree_num_vectors m)
                (ModReducer.xor_tree_bit_length m), XorTreeSrc tree)] ++ lib)
    h b.
Proof.
  intros Hm Htree. exists m. cbn [app]. split; [|split; [exact Hm|]].
  - cbn [lookup module_name_eqb]. now rewrite Z.eqb_refl.
  - apply tree_ok_skip; [reflexivity|]. now apply tree_ok_here.
Qed.

(** The source files of a run of the composed generator, below the
    files [above] of the modules that use them. *)
Lemma composed_run_library (a c h b : Z) (affine : Affine.verilog_module)
    (affine_tree : XorTree.verilog_module)
    (reducer : ModReducer.verilog_module) (mod_tree : XorTree.verilog_module)
    (above lib : library) :
  (forall name code, In (name, code) above ->
     (forall N W, module_name_eqb (xor_tree N W) name = false) /\
     module_name_eqb (gf2_poly_affine b) name = false /\
     module_name_eqb (gf2_poly_mod (b + poly_degree a)) name = false) ->
  gf2_poly_affine_generator.generate_src a c b = Ok affine ->
  xor_tree_generator.generate_src
    (Affine.xor_tree_num_vectors affine)
    (Affine.xor_tree_bit_length affine) = Ok affine_tree ->
  gf2_poly_mod_generator.generate_src h (b + poly_degree a) = Ok reducer ->
  xor_tree_generator.generate_src
    (ModReducer.xor_tree_num_vectors reducer)
    (ModReducer.xor_tree_bit_length reducer) = Ok mod_tree ->
  let lib' :=
    above ++
    [(gf2_poly_mod (b + poly_degree a), ModSrc reducer);
     (xor_tree (ModReducer.xor_tree_num_vectors reducer)
               (ModReducer.xor_tree_bit_length reducer),
      XorTreeSrc mod_tree);
     (gf2_poly_affine b, AffineSrc affine);
     (xor_tree (Affine.xor_tree_num_vectors affine)
               (Affine.xor_tree_bit_length affine),
      XorTreeSrc affine_tree)] ++ lib in
  affine_ok lib' a c b /\ mod_ok lib' h (b + poly_degree a).
Proof.
  intros Habove Haff Hatree Hred Hmtree. cbn zeta.
  induction above as [|(name & code) above IH].
  - cbn [app]. split.
    + exists affine. split; [|split; [exact Haff|]].
      * cbn [lookup module_name_eqb]. now rewrite Z.eqb_refl.
      * apply tree_ok_skip; [reflexivity|].
        apply tree_ok_skip_tree; [exact Hmtree|].
        apply tree_ok_skip; [reflexivity|]. now apply tree_ok_here.
    + exists reducer. split; [|split; [exact Hred|]].
      * cbn [lookup module_name_eqb]. now rewrite Z.eqb_refl.
      * apply tree_ok_skip; [reflexivity|]. now apply tree_ok_here.
  - destruct (Habove name code ltac:(now left)) as (Htree & Hna & Hnm).
    destruct IH as ((m1 & Hl1 & Hg1 & Ht1) & (m2 & Hl2 & Hg2 & Ht2)).
    { intros name' code' Hin. apply (Habove name' code'). now right. }
    cbn [app]. split.
    + exists m1. split; [|split; [exact Hg1|]].
      * cbn [lookup]. now rewrite Hna.
      * apply tree_ok_skip; [apply Htree|exact Ht1].
    + exists m2. split; [|split; [exact Hg2|]].
      * cbn [lookup]. now rewrite Hnm.
      * apply tree_ok_skip; [apply Htree|exact Ht2].
Qed.

End RunLibraries.

(** * The written modules and their test benches *)

Lemma xor_tree_eval_concatenation (num_vectors bit_length : Z)
    (int_list : list Z) (m : XorTree.verilog_module) :
  1 <= num_vectors -> 0 <= bit_length ->
  Z.of_nat (length int_list) = num_vectors ->
  Forall (fun v => 0 <= v < 2 ^ bit_length) int_list ->
  xor_tree_generator.generate_src num_vectors bit_length = Ok m ->
  XorTree.eval m (XorTree.concatenation bit_length int_list)
  = Some (xor_tree_generator.xor_integers int_list).
Proof.
  intros HN HW Hlen Hvs Hgen.
  destruct (xor_tree_eval num_vectors bit_length
              (XorTree.concatenation bit_length int_list) HN HW)
    as (m' & Hgen' & _ & _ & Heval).
  rewrite Hgen in Hgen'. injection Hgen' as <-.
  rewrite Heval. f_equal. subst num_vectors.
  rewrite concatenation_port, concatenation_slots by assumption.
  rewrite xor_integers_rev. f_equal.
  rewrite <- (map_id int_list) at 2. apply map_ext_in.
  intros v Hv. rewrite Forall_forall in Hvs. specialize (Hvs v Hv).
  rewrite Z.land_ones by assumption. now apply Z.mod_small.
Qed.

Lemma lookup_head {A : Type} (name : module_name) (code : A)
    (files : list (module_name * A)) :
  module_name_eqb name name = true ->
  lookup name ((name, code) :: files) = Some code.
Proof. intros Hname. cbn [lookup]. now rewrite Hname. Qed.

Lemma module_name_eqb_refl (name : module_name) :
  module_name_eqb name name = true.
Proof.
  destruct name; cbn [module_name_eqb]; now rewrite ?Z.eqb_refl.
Qed.

(** A run of the XOR tree generator writes a module and a test bench that
    agree: the stimulus has [num_vectors] values of [bit_length] bits, and
    the module's output on their concatenation is the expected value. *)
Theorem xor_tree_test_bench_passes {R : Random} (num_vectors bit_length : Z)
    (w : world) :
  1 <= num_vectors -> 0 <= bit_length ->
  exists m tb w',
    xor_tree_generator.generate_verilog_and_tb_to_files
      num_vectors bit_length w = (Ok tt, w') /\
    lookup (xor_tree num_vectors bit_length) (src_files w')
    = Some (XorTreeSrc m) /\
    lookup (xor_tree num_vectors bit_length) (tb_files w')
    = Some (XorTreeTb tb) /\
    Z.of_nat (length (XorTree.code_input tb)) = num_vectors /\
    Forall (fun v => 0 <= v < 2 ^ bit_length) (XorTree.code_input tb) /\
    XorTree.eval m
      (XorTree.concatenation bit_length (XorTree.code_input tb))
    = Some (XorTree.expected_code_output tb).
Proof.
  intros HN HW.
  destruct (xor_tree_run num_vectors bit_length HN HW)
    as (m & tb & g & Hgen & _ & _ & Hlen & Hall & Hexp & Hrun).
  exists m, tb. eexists. split; [apply Hrun|].
  cbn [after_run src_files tb_files app].
  split; [apply lookup_head, module_name_eqb_refl|].
  split; [apply lookup_head, module_name_eqb_refl|].
  split; [exact Hlen|]. split; [exact Hall|].
  rewrite Hexp. now apply xor_tree_eval_concatenation with num_vectors.
Qed.

Lemma xor_tree_test_bench_passes_witness :
  exists m tb (w' : @world lcg),
    xor_tree_generator.generate_verilog_and_tb_to_files 3 4 lcg_world
    = (Ok tt, w') /\
    lookup (xor_tree 3 4) (src_files w') = Some (XorTreeSrc m) /\
    lookup (xor_tree 3 4) (tb_files w') = Some (XorTreeTb tb) /\
    Z.of_nat (length (XorTree.code_input tb)) = 3 /\
    Forall (fun v => 0 <= v < 2 ^ 4) (XorTree.code_input tb) /\
    XorTree.eval m (XorTree.concatenation 4 (XorTree.code_input tb))
    = Some (XorTree.expected_code_output tb).
Proof.
  apply (@xor_tree_test_bench_passes lcg 3 4 lcg_world); lia.
Defined.

(** A run of the affine generator writes a module that computes
    [poly_affine a p c] on every input [p] of [b] bits, when [c] fits the
    output width; the written test bench has such an input and the
    module's output on it is the expected value. *)
Theorem affine_module_computes_poly_affine {R : Random} (a c b : Z)
    (w : world) :
  1 <= a -> 0 <= b -> 0 <= c < 2 ^ (poly_degree a + b) ->
  exists m tb w',
    gf2_poly_affine_generator.generate_verilog_and_tb_to_files a c b w
    = (Ok tt, w') /\
    lookup (gf2_poly_affine b) (src_files w') = Some (AffineSrc m) /\
    lookup (gf2_poly_affine b) (tb_files w') = Some (AffineTb tb) /\
    (forall p, 0 <= p < 2 ^ b ->
       exists v, poly_affine a p c = Ok v /\
                 Semantics.eval_affine (src_files w') m p = Some v) /\
    0 <= Affine.code_input tb < 2 ^ b /\
    Semantics.eval_affine (src_files w') m (Affine.code_input tb)
    = Some (Affine.expected_code_output tb).
Proof.
  intros Ha Hb Hc.
  destruct (affine_run a c b Ha ltac:(lia) Hb)
    as (m & tree & tb & tree_tb & g & Hgen & Htree & _ & _ & Hin & Hexp
        & Hrun).
  exists m, tb. eexists. split; [apply Hrun|].
  cbn [after_run src_files tb_files].
  pose proof (affine_run_library a c b m tree (src_files w) Hgen Htree)
    as (m' & Hlook & Hgen' & Hok).
  rewrite Hgen in Hgen'. injection Hgen' as <-.
  assert (Heval : forall p, 0 <= p < 2 ^ b ->
    exists v, poly_affine a p c = Ok v /\
              Semantics.eval_affine
                ([(gf2_poly_affine b, AffineSrc m);
                  (xor_tree (Affine.xor_tree_num_vectors m)
                            (Affine.xor_tree_bit_length m),
                   XorTreeSrc tree)] ++ src_files w) m p = Some v).
  { intros p Hp.
    destruct (eval_affine_correct a c b Ha Hb Hc _ m p Hgen Hok Hp)
      as (v & Hv & He & _).
    now exists v. }
  split; [exact Hlook|].
  split; [apply lookup_head, module_name_eqb_refl|].
  split; [exact Heval|]. split; [exact Hin|].
  destruct (Heval _ Hin) as (v & Hv & He). congruence.
Qed.

Lemma affine_module_computes_poly_affine_witness :
  exists m tb (w' : @world lcg),
    gf2_poly_affine_generator.generate_verilog_and_tb_to_files 17 1 16
      lcg_world = (Ok tt, w') /\
    lookup (gf2_poly_affine 16) (src_files w') = Some (AffineSrc m) /\
    lookup (gf2_poly_affine 16) (tb_files w') = Some (AffineTb tb) /\
    (forall p, 0 <= p < 2 ^ 16 ->
       exists v, poly_affine 17 p 1 = Ok v /\
                 Semantics.eval_affine (src_files w') m p = Some v) /\
    0 <= Affine.code_input tb < 2 ^ 16 /\
    Semantics.eval_affine (src_files w') m (Affine.code_input tb)
    = Some (Affine.expected_code_output tb).
Proof.
  apply (@affine_module_computes_poly_affine lcg 17 1 16 lcg_world);
    [lia|lia|].
  change (poly_degree 17) with 4. lia.
Defined.

(** A run of the reduction generator for a modulus [h] of degree at least
    1 writes a module that computes [poly_mod y h] on every input [y] of
    [b] bits, for [b] at least the degree of [h]; the written test bench
    has such an input and the module's output on it is the expected
    value. *)
Theorem mod_module_computes_poly_mod {R : Random} (h b : Z) (w : world) :
  1 <= h -> 1 <= poly_degree h -> poly_degree h <= b ->
  exists m tb w',
    gf2_poly_mod_generator.generate_verilog_and_tb_to_files h b w
    = (Ok tt, w') /\
    lookup (gf2_poly_mod b) (src_files w') = Some (ModSrc m) /\
    lookup (gf2_poly_mod b) (tb_files w') = Some (ModTb tb) /\
    (forall y, 0 <= y < 2 ^ b ->
       exists v, poly_mod y h = Ok v /\
                 Semantics.eval_mod (src_files w') m y = Some v) /\
    0 <= ModReducer.code_input tb < 2 ^ b /\
    Semantics.eval_mod (src_files w') m (ModReducer.code_input tb)
    = Some (ModReducer.expected_code_output tb).
Proof.
  intros Hh Hdeg Hb.
  destruct (mod_run h b Hh Hb)
    as (m & tree & tb & tree_tb & g & Hgen & Htree & _ & _ & Hin & Hexp
        & Hrun).
  exists m, tb. eexists. split; [apply Hrun|].
  cbn [after_run src_files tb_files].
  pose proof (mod_run_library h b m tree (src_files w) Hgen Htree)
    as (m' & Hlook & Hgen' & Hok).
  rewrite Hgen in Hgen'. injection Hgen' as <-.
  assert (Heval : forall y, 0 <= y < 2 ^ b ->
    exists v, poly_mod y h = Ok v /\
              Semantics.eval_mod
                ([(gf2_poly_mod b, ModSrc m);
                  (xor_tree (ModReducer.xor_tree_num_vectors m)
                            (ModReducer.xor_tree_bit_length m),
                   XorTreeSrc tree)] ++ src_files w) m y = Some v).
  { intros y Hy.
    destruct (eval_mod_correct h b Hh Hb _ m y Hdeg Hgen Hok Hy)
      as (v & Hv & He & _).
    now exists v. }
  split; [exact Hlook|].
  split; [apply lookup_head, module_name_eqb_refl|].
  split; [exact Heval|]. split; [exact Hin|].
  destruct (Heval _ Hin) as (v & Hv & He). congruence.
Qed.

Lemma mod_module_computes_poly_mod_witness :
  exists m tb (w' : @world lcg),
    gf2_poly_mod_generator.generate_verilog_and_tb_to_files 285 12 lcg_world
    = (Ok tt, w') /\
    lookup (gf2_poly_mod 12) (src_files w') = Some (ModSrc m) /\
    lookup (gf2_poly_mod 12) (tb_files w') = Some (ModTb tb) /\
    (forall y, 0 <= y < 2 ^ 12 ->
       exists v, poly_mod y 285 = Ok v /\
                 Semantics.eval_mod (src_files w') m y = Some v) /\
    0 <= ModReducer.code_input tb < 2 ^ 12 /\
    Semantics.eval_mod (src_files w') m (ModReducer.code_input tb)
    = Some (ModReducer.expected_code_output tb).
Proof.
  apply (@mod_module_computes_poly_mod lcg 285 12 lcg_world);
    [lia| |]; change (poly_degree 285) with 8; lia.
Defined.

Lemma composed_above_names (b deg : Z) (code : source_file) :
  forall name code',
    In (name, code') [(gf2_poly_affine_mod b, code)] ->
    (forall N W, module_name_eqb (xor_tree N W) name = false) /\
    module_name_eqb (gf2_poly_affine b) name = false /\
    module_name_eqb (gf2_poly_mod (b + deg)) name = false.
Proof.
  intros name code' [[= <- <-]|[]]. repeat split.
Qed.

(** A run of the composed generator for a modulus [h] of degree at least
    1 writes, with the affine and the reduction modules, a module that
    computes [poly_affine_mod a p c h] on every input [p] of [b] bits,
    when [c] fits the affine output and that output is at least as wide as
    the degree of [h]; the module's output on the input of the written
    test bench is the expected value. *)
Theorem affine_mod_module_computes_poly_affine_mod {R : Random}
    (a c h b : Z) (w : world) :
  1 <= a -> 1 <= h -> 1 <= poly_degree h -> 0 <= b ->
  0 <= c < 2 ^ (poly_degree a + b) ->
  poly_degree h <= b + poly_degree a ->
  exists tb w',
    gf2_poly_affine_mod_generator.generate_verilog_and_tb_to_files a c h b w
    = (Ok tt, w') /\
    lookup (gf2_poly_affine_mod b) (src_files w')
    = Some (AffineModSrc
              (gf2_poly_affine_mod_generator.generate_src a c h b)) /\
    lookup (gf2_poly_affine_mod b) (tb_files w') = Some (AffineModTb tb) /\
    (forall p, 0 <= p < 2 ^ b ->
       exists v,
         poly_affine_mod a p c h = Ok v /\
         Semantics.eval_affine_mod (src_files w')
           (gf2_poly_affine_mod_generator.generate_src a c h b) p
         = Some v) /\
    0 <= AffineMod.code_input tb < 2 ^ b /\
    Semantics.eval_affine_mod (src_files w')
      (gf2_poly_affine_mod_generator.generate_src a c h b)
      (AffineMod.code_input tb)
    = Some (AffineMod.expected_code_output tb).
Proof.
  intros Ha Hh Hdeg Hb Hc Hwide.
  destruct (affine_mod_run a c h b Ha ltac:(lia) Hh Hb Hwide)
    as (affine & affine_tree & reducer & mod_tree & tb & atb & attb & mtb
        & mttb & g & Haff & Hatree & Hred & Hmtree & _ & _ & Hin & Hexp
        & Hrun).
  exists tb. eexists. split; [apply Hrun|].
  cbn [after_run src_files tb_files].
  set (lib := _ ++ src_files w).
  destruct (composed_run_library a c h b affine affine_tree reducer mod_tree
              [(gf2_poly_affine_mod b,
                AffineModSrc
                  (gf2_poly_affine_mod_generator.generate_src a c h b))]
              (src_files w)
              (composed_above_names b (poly_degree a) _)
              Haff Hatree Hred Hmtree) as (Haok & Hmok).
  change (affine_ok lib a c b) in Haok.
  change (mod_ok lib h (b + poly_degree a)) in Hmok.
  assert (Heval : forall p, 0 <= p < 2 ^ b ->
    exists v,
      poly_affine_mod a p c h = Ok v /\
      Semantics.eval_affine_mod lib
        (gf2_poly_affine_mod_generator.generate_src a c h b) p = Some v).
  { intros p Hp.
    destruct (eval_affine_mod_correct a c h b Ha Hc Hh Hdeg Hb Hwide lib p
                Haok Hmok Hp) as (v & Hv & He & _).
    now exists v. }
  split; [apply lookup_head, module_name_eqb_refl|].
  split; [apply lookup_head, module_name_eqb_refl|].
  split; [exact Heval|]. split; [exact Hin|].
  destruct (Heval _ Hin) as (v & Hv & He). congruence.
Qed.

Lemma affine_mod_module_computes_poly_affine_mod_witness :
  exists tb (w' : @world lcg),
    gf2_poly_affine_mod_generator.generate_verilog_and_tb_to_files
      23 5 285 8 lcg_world = (Ok tt, w') /\
    lookup (gf2_poly_affine_mod 8) (src_files w')
    = Some (AffineModSrc
              (gf2_poly_affine_mod_generator.generate_src 23 5 285 8)) /\
    lookup (gf2_poly_affine_mod 8) (tb_files w') = Some (AffineModTb tb) /\
    (forall p, 0 <= p < 2 ^ 8 ->
       exists v,
         poly_affine_mod 23 p 5 285 = Ok v /\
         Semantics.eval_affine_mod (src_files w')
           (gf2_poly_affine_mod_generator.generate_src 23 5 285 8) p
         = Some v) /\
    0 <= AffineMod.code_input tb < 2 ^ 8 /\
    Semantics.eval_affine_mod (src_files w')
      (gf2_poly_affine_mod_generator.generate_src 23 5 285 8)
      (AffineMod.code_input tb)
    = Some (AffineMod.expected_code_output tb).
Proof.
  apply (@affine_mod_module_computes_poly_affine_mod lcg 23 5 285 8
           lcg_world); try lia.
  - change (poly_degree 285) with 8. lia.
  - change (poly_degree 23) with 4. lia.
  - change (poly_degree 23) with 4. change (poly_degree 285) with 8. lia.
Defined.

Lemma prng_above_names (a c h : Z) :
  forall name code,
    In (name, code)
       [(gf2_prng (poly_degree h),
         PrngSrc (gf2e_prng_tool.generate_src a c h));
        (gf2_poly_affine_mod (poly_degree h),
         AffineModSrc
           (gf2_poly_affine_mod_generator.generate_src
              a c h (poly_degree h)))] ->
    (forall N W, module_name_eqb (xor_tree N W) name = false) /\
    module_name_eqb (gf2_poly_affine (poly_degree h)) name = false /\
    module_name_eqb (gf2_poly_mod (poly_degree h + poly_degree a)) name
    = false.
Proof.
  intros name code [[= <- <-]|[[= <- <-]|[]]]; repeat split.
Qed.

(** The library that a run of the PRNG generator leaves. *)
Lemma prng_run_library {R : Random} (a c h : Z) (w : world) :
  1 <= a -> 0 <= c -> 1 <= h ->
  exists tb w',
    gf2e_prng_tool.generate_verilog_and_tb_to_files a c h w = (Ok tt, w') /\
    lookup (gf2_prng (poly_degree h)) (src_files w')
    = Some (PrngSrc (gf2e_prng_tool.generate_src a c h)) /\
    lookup (gf2_prng (poly_degree h)) (tb_files w') = Some (PrngTb tb) /\
    prng_ok a c h (src_files w') /\
    Prng.tb_bit_length tb = poly_degree h /\
    Prng.iterations tb = 100 /\
    0 <= Prng.code_input tb < 2 ^ poly_degree h /\
    gf2e_prng_tool.iterate_prng 100 a c h (Prng.code_input tb)
    = Ok (Prng.expected_code_output tb).
Proof.
  intros Ha Hc Hh.
  destruct (prng_run a c h Ha Hc Hh)
    as (affine & affine_tree & reducer & mod_tree & tb & sub_tb & g & Haff
        & Hatree & Hred & Hmtree & Hwidth & Hiter & Hin & Hexp & Hrun).
  exists tb. eexists. split; [apply Hrun|].
  cbn [after_run src_files tb_files].
  destruct (composed_run_library a c h (poly_degree h) affine affine_tree
              reducer mod_tree _ (src_files w) (prng_above_names a c h)
              Haff Hatree Hred Hmtree) as (Haok & Hmok).
  split; [apply lookup_head, module_name_eqb_refl|].
  split; [apply lookup_head, module_name_eqb_refl|].
  split; [|now repeat split].
  split; [|split; [exact Haok|exact Hmok]].
  cbn [app lookup module_name_eqb]. now rewrite Z.eqb_refl.
Qed.

(** A run of the PRNG generator for a modulus [h] of degree [D] at least
    1 writes a sequential module whose state, after [k] enabled clock
    edges from a state [S] of [D] bits, is the [k]-fold iteration of
    [poly_affine_mod a _ c h] from [S] ([S] itself for [k = 0]); a clock
    edge under reset loads the seed and a disabled one keeps the state. *)
Theorem prng_module_iterates_poly_affine_mod {R : Random} (a c h : Z)
    (w : world) :
  1 <= a -> 1 <= h -> 1 <= poly_degree h ->
  0 <= c < 2 ^ (poly_degree a + poly_degree h) ->
  exists w',
    gf2e_prng_tool.generate_verilog_and_tb_to_files a c h w = (Ok tt, w') /\
    lookup (gf2_prng (poly_degree h)) (src_files w')
    = Some (PrngSrc (gf2e_prng_tool.generate_src a c h)) /\
    (forall k state, 0 <= state < 2 ^ poly_degree h ->
       exists v,
         gf2e_prng_tool.iterate_prng k a c h state = Ok v /\
         Semantics.run_enabled (src_files w')
           (gf2e_prng_tool.generate_src a c h) k state = Some v) /\
    (forall state,
       Semantics.run_enabled (src_files w')
         (gf2e_prng_tool.generate_src a c h) 0 state = Some state) /\
    (forall enable seed state, 0 <= seed < 2 ^ poly_degree h ->
       Semantics.clock (src_files w') (gf2e_prng_tool.generate_src a c h)
         true enable seed state = Some seed) /\
    (forall seed state,
       Semantics.clock (src_files w') (gf2e_prng_tool.generate_src a c h)
         false false seed state = Some state).
Proof.
  intros Ha Hh Hdeg Hc.
  destruct (prng_run_library a c h w Ha ltac:(lia) Hh)
    as (tb & w' & Hrun & Hsrc & _ & Hok & _).
  exists w'. split; [exact Hrun|]. split; [exact Hsrc|].
  split; [|split; [reflexivity|split; [|reflexivity]]].
  - intros k state Hstate.
    destruct (run_enabled_correct a c h Ha Hc Hh Hdeg (src_files w') k Hok
                state Hstate) as (v & Hv & He & _).
    now exists v.
  - intros enable seed state Hseed. cbn [Semantics.clock].
    unfold gf2e_prng_tool.generate_src. cbn [Prng.bit_length].
    now rewrite (truncate_small _ (degree_nonneg h Hh) seed Hseed).
Qed.

Lemma prng_module_iterates_poly_affine_mod_witness :
  exists w' : @world lcg,
    gf2e_prng_tool.generate_verilog_and_tb_to_files 23 5 285 lcg_world
    = (Ok tt, w') /\
    lookup (gf2_prng (poly_degree 285)) (src_files w')
    = Some (PrngSrc (gf2e_prng_tool.generate_src 23 5 285)) /\
    (forall k state, 0 <= state < 2 ^ poly_degree 285 ->
       exists v,
         gf2e_prng_tool.iterate_prng k 23 5 285 state = Ok v /\
         Semantics.run_enabled (src_files w')
           (gf2e_prng_tool.generate_src 23 5 285) k state = Some v) /\
    (forall state,
       Semantics.run_enabled (src_files w')
         (gf2e_prng_tool.generate_src 23 5 285) 0 state = Some state) /\
    (forall enable seed state, 0 <= seed < 2 ^ poly_degree 285 ->
       Semantics.clock (src_files w') (gf2e_prng_tool.generate_src 23 5 285)
         true enable seed state = Some seed) /\
    (forall seed state,
       Semantics.clock (src_files w') (gf2e_prng_tool.generate_src 23 5 285)
         false false seed state = Some state).
Proof.
  apply (@prng_module_iterates_poly_affine_mod lcg 23 5 285 lcg_world);
    [lia|lia| |]; change (poly_degree 23) with 4;
    change (poly_degree 285) with 8; lia.
Defined.

(** For [a >= 1], a modulus [h] of degree [D] at least 1 and [c] of at
    most [deg a + D] bits, the test bench that a run of the PRNG generator
    writes seeds the module with a value of [D] bits, asks for 100 clock
    edges and expects the 100-fold software iteration of
    [poly_affine_mod] from the seed; the written module, reset to that
    seed and enabled for 100 edges, holds the expected value. *)
Theorem prng_test_bench_passes {R : Random} (a c h : Z) (w : world) :
  1 <= a -> 1 <= h -> 1 <= poly_degree h ->
  0 <= c < 2 ^ (poly_degree a + poly_degree h) ->
  exists tb w',
    gf2e_prng_tool.generate_verilog_and_tb_to_files a c h w = (Ok tt, w') /\
    lookup (gf2_prng (poly_degree h)) (tb_files w') = Some (PrngTb tb) /\
    Prng.tb_bit_length tb = poly_degree h /\
    Prng.iterations tb = 100 /\
    0 <= Prng.code_input tb < 2 ^ poly_degree h /\
    gf2e_prng_tool.iterate_prng 100 a c h (Prng.code_input tb)
    = Ok (Prng.expected_code_output tb) /\
    exists state,
      Semantics.clock (src_files w') (gf2e_prng_tool.generate_src a c h)
        true false (Prng.code_input tb) 0 = Some state /\
      Semantics.run_enabled (src_files w')
        (gf2e_prng_tool.generate_src a c h)
        (Z.to_nat (Prng.iterations tb)) state
      = Some (Prng.expected_code_output tb).
Proof.
  intros Ha Hh Hdeg Hc.
  destruct (prng_run_library a c h w Ha ltac:(lia) Hh)
    as (tb & w' & Hrun & _ & Htb & Hok & Hwidth & Hiter & Hin & Hexp).
  exists tb, w'. repeat (split; [assumption|]).
  exists (Prng.code_input tb). split.
  - cbn [Semantics.clock]. unfold gf2e_prng_tool.generate_src.
    cbn [Prng.bit_length].
    now rewrite (truncate_small _ (degree_nonneg h Hh) _ Hin).
  - rewrite Hiter.
    destruct (run_enabled_correct a c h Ha Hc Hh Hdeg (src_files w')
                (Z.to_nat 100) Hok _ Hin) as (v & Hv & He & _).
    change (Z.to_nat 100) with 100%nat in *. congruence.
Qed.

Lemma prng_test_bench_passes_witness :
  exists tb (w' : @world lcg),
    gf2e_prng_tool.generate_verilog_and_tb_to_files 23 5 285 lcg_world
    = (Ok tt, w') /\
    lookup (gf2_prng (poly_degree 285)) (tb_files w') = Some (PrngTb tb) /\
    Prng.tb_bit_length tb = poly_degree 285 /\
    Prng.iterations tb = 100 /\
    0 <= Prng.code_input tb < 2 ^ poly_degree 285 /\
    gf2e_prng_tool.iterate_prng 100 23 5 285 (Prng.code_input tb)
    = Ok (Prng.expected_code_output tb) /\
    exists state,
      Semantics.clock (src_files w') (gf2e_prng_tool.generate_src 23 5 285)
        true false (Prng.code_input tb) 0 = Some state /\
      Semantics.run_enabled (src_files w')
        (gf2e_prng_tool.generate_src 23 5 285)
        (Z.to_nat (Prng.iterations tb)) state
      = Some (Prng.expected_code_output tb).
Proof.
  apply (@prng_test_bench_passes lcg 23 5 285 lcg_world);
    [lia|lia| |]; change (poly_degree 23) with 4;
    change (poly_degree 285) with 8; lia.
Defined.

(** * The command line of the PRNG tool *)

(** Reducing [a] and [c] modulo [h] leaves [poly_affine_mod] unchanged. *)
Lemma poly_affine_mod_remainders (a c h p : Z) :
  0 <= a -> 0 <= c -> 1 <= h -> 0 <= p ->
  poly_affine_mod (remainder h a) p (remainder h c) h
  = poly_affine_mod a p c h.
Proof.
  intros Ha Hc Hh Hp. assert (h_pos : 0 < h) by lia.
  destruct (poly_mod_spec h h_pos a Ha) as (a' & Hrun_a & Ha' & _ & Hma).
  destruct (poly_mod_spec h h_pos c Hc) as (c' & Hrun_c & Hc' & _ & Hmc).
  unfold remainder. rewrite Hrun_a, Hrun_c.
  unfold poly_affine_mod. rewrite !poly_affine_clmul by assumption.
  cbn [bind].
  rewrite <- (poly_mod_absorb h h_pos (Z.lxor (clmul a' p) c')
                (Z.lxor (clmul p (Z.lxor a a')) (Z.lxor c c'))).
  - f_equal. rewrite clmul_lxor_r.
    rewrite (clmul_comm p a), (clmul_comm p a') by assumption. lxor_ac.
  - apply lxor_nonneg'; [now apply clmul_nonneg|assumption].
  - apply multiple_lxor; [now apply multiple_clmul|assumption].
Qed.

Lemma iterate_prng_remainders (a c h : Z) (k : nat) :
  0 <= a -> 0 <= c -> 1 <= h ->
  forall p, 0 <= p ->
    gf2e_prng_tool.iterate_prng k (remainder h a) (remainder h c) h p
    = gf2e_prng_tool.iterate_prng k a c h p.
Proof.
  intros Ha Hc Hh. induction k as [|k IH]; intros p Hp; [reflexivity|].
  cbn [gf2e_prng_tool.iterate_prng].
  rewrite poly_affine_mod_remainders by assumption.
  destruct (poly_affine_mod_ok a c h Ha Hc Hh p Hp) as (v & -> & Hv).
  cbn [bind]. apply IH. lia.
Qed.

Lemma main_parameters_ok (arg_a arg_c arg_h : Z) :
  1 <= arg_a -> 0 <= arg_c -> 1 <= arg_h ->
  gf2e_prng_tool.main_parameters arg_a arg_c arg_h
  = Ok (remainder arg_h arg_a, remainder arg_h arg_c, arg_h).
Proof.
  intros Ha Hc Hh.
  unfold gf2e_prng_tool.main_parameters, gf2e_prng_tool.argument_parser,
    gf2e_prng_tool.positive_int, gf2e_prng_tool.nonnegative_int.
  destruct (Z.leb_spec arg_a 0); [lia|]. cbn [bind].
  destruct (Z.ltb_spec arg_c 0); [lia|]. cbn [bind].
  destruct (Z.leb_spec arg_h 0); [lia|]. cbn [bind].
  destruct (poly_mod_remainder arg_h Hh arg_a ltac:(lia)) as (-> & _).
  destruct (poly_mod_remainder arg_h Hh arg_c ltac:(lia)) as (-> & _).
  reflexivity.
Qed.

(** The command line of the PRNG tool, for [a >= 1], [c >= 0] and
    [h >= 1] with [a] not a multiple of [h]: the written PRNG module steps
    its state by [poly_affine_mod] of the parameters as given, although
    the modules are generated from [a] and [c] reduced modulo [h]. *)
Theorem main_project_iterates_recurrence {R : Random}
    (arg_a arg_c arg_h : Z) (w : world) :
  1 <= arg_a -> 0 <= arg_c -> 1 <= arg_h ->
  poly_mod arg_a arg_h <> Ok 0 ->
  exists m w',
    gf2e_prng_tool.main arg_a arg_c arg_h w = (Ok tt, w') /\
    lookup (gf2_prng (poly_degree arg_h)) (src_files w')
    = Some (PrngSrc m) /\
    forall k state, 0 <= state < 2 ^ poly_degree arg_h ->
      exists v,
        gf2e_prng_tool.iterate_prng k arg_a arg_c arg_h state = Ok v /\
        Semantics.run_enabled (src_files w') m k state = Some v.
Proof.
  intros Ha Hc Hh Hnz.
  destruct (poly_mod_remainder arg_h Hh arg_a ltac:(lia)) as (Hra & Hra').
  destruct (poly_mod_remainder arg_h Hh arg_c ltac:(lia)) as (Hrc & Hrc').
  set (a := remainder arg_h arg_a) in *.
  set (c := remainder arg_h arg_c) in *.
  assert (Ha1 : 1 <= a).
  { destruct (Z.eq_dec a 0) as [Ha0|]; [|lia].
    rewrite Ha0 in Hra. contradiction. }
  pose proof (poly_degree_nonneg a ltac:(lia)) as Hdeg.
  pose proof (degree_nonneg arg_h Hh) as HD.
  assert (Hc' : 0 <= c < 2 ^ (poly_degree a + poly_degree arg_h)).
  { split; [lia|].
    apply Z.lt_le_trans with (2 ^ poly_degree arg_h); [lia|].
    apply Z.pow_le_mono_r; lia. }
  assert (HD1 : 1 <= poly_degree arg_h).
  { destruct (Z.eq_dec (poly_degree arg_h) 0) as [HD0|]; [|lia].
    rewrite HD0 in Hra'. change (2 ^ 0) with 1 in Hra'. lia. }
  destruct (prng_run_library a c arg_h w Ha1 ltac:(lia) Hh)
    as (tb & w' & Hrun & Hsrc & _ & Hok & _).
  exists (gf2e_prng_tool.generate_src a c arg_h), w'.
  split; [|split; [exact Hsrc|]].
  - unfold gf2e_prng_tool.main, gen_bind, pure.
    rewrite main_parameters_ok by assumption. exact Hrun.
  - intros k state Hstate.
    destruct (run_enabled_correct a c arg_h Ha1 Hc' Hh HD1 (src_files w') k
                Hok state Hstate) as (v & Hv & He & _).
    exists v. split; [|exact He].
    rewrite <- Hv. symmetry.
    apply iterate_prng_remainders; lia.
Qed.

Lemma main_project_iterates_recurrence_witness :
  exists m (w' : @world lcg),
    gf2e_prng_tool.main 1000 700 285 lcg_world = (Ok tt, w') /\
    lookup (gf2_prng (poly_degree 285)) (src_files w') = Some (PrngSrc m) /\
    forall k state, 0 <= state < 2 ^ poly_degree 285 ->
      exists v,
        gf2e_prng_tool.iterate_prng k 1000 700 285 state = Ok v /\
        Semantics.run_enabled (src_files w') m k state = Some v.
Proof.
  apply (@main_project_iterates_recurrence lcg 1000 700 285 lcg_world);
    try lia.
  vm_compute. discriminate.
Defined.

(** The command line of the PRNG tool accepts a parameter [a >= 1] that is
    a multiple of [h], reduces it to 0 and then fails: the run raises
    [IndexError] in the affine generator, before the [src] and [tb]
    directories or any file in them are created. *)
Theorem main_fails_on_multiple_of_modulus {R : Random}
    (arg_a arg_c arg_h : Z) (w : world) :
  1 <= arg_a -> 0 <= arg_c -> 1 <= arg_h ->
  poly_mod arg_a arg_h = Ok 0 ->
  (exists c, gf2e_prng_tool.main_parameters arg_a arg_c arg_h
             = Ok (0, c, arg_h)) /\
  gf2e_prng_tool.main arg_a arg_c arg_h w = (Raise IndexError, w).
Proof.
  intros Ha Hc Hh Hzero.
  pose proof (main_parameters_ok arg_a arg_c arg_h Ha Hc Hh) as Hparams.
  assert (Hrem : remainder arg_h arg_a = 0)
    by (unfold remainder; now rewrite Hzero).
  rewrite Hrem in Hparams. split; [eexists; exact Hparams|].
  unfold gf2e_prng_tool.main, gen_bind, pure. rewrite Hparams.
  reflexivity.
Qed.

Lemma main_fails_on_multiple_of_modulus_witness :
  (exists c, gf2e_prng_tool.main_parameters 570 3 285 = Ok (0, c, 285)) /\
  gf2e_prng_tool.main 570 3 285 lcg_world = (Raise IndexError, lcg_world).
Proof.
  apply (@main_fails_on_multiple_of_modulus lcg 570 3 285 lcg_world);
    try lia.
  reflexivity.
Defined.

(** * The command lines of the four module generators *)

(** The functions [argument_parser] and [main] of [xor_tree_generator.py],
    [gf2_poly_affine_generator.py], [gf2_poly_mod_generator.py] and
    [gf2_poly_affine_mod_generator.py]. Each file has its own copy of
    [positive_int] and [nonnegative_int], the same as in
    [gf2e_prng_tool.py]; the option [--dir] is the [save_dir] that the
    world leaves out. *)
Module command_lines.

Import gf2e_prng_tool.

Definition xor_tree_argument_parser (arg_num_vectors arg_bit_length : Z)
    : result (Z * Z) :=
  (num_vectors <- positive_int arg_num_vectors ;;
   bit_length <- positive_int arg_bit_length ;;
   Ok (num_vectors, bit_length))%result.

Definition xor_tree_main `{Random} (arg_num_vectors arg_bit_length : Z)
    : gen unit :=
  (args <- pure (xor_tree_argument_parser arg_num_vectors arg_bit_length) ;;
   let '(num_vectors, bit_length) := args in
   xor_tree_generator.generate_verilog_and_tb_to_files
     num_vectors bit_length)%gen.

Definition affine_argument_parser (arg_a arg_c arg_bit_length : Z)
    : result (Z * Z * Z) :=
  (a <- positive_int arg_a ;;
   c <- nonnegative_int arg_c ;;
   bit_length <- positive_int arg_bit_length ;;
   Ok (a, c, bit_length))%result.

Definition affine_main `{Random} (arg_a arg_c arg_bit_length : Z)
    : gen unit :=
  (args <- pure (affine_argument_parser arg_a arg_c arg_bit_length) ;;
   let '(a, c, bit_length) := args in
   gf2_poly_affine_generator.generate_verilog_and_tb_to_files
     a c bit_length)%gen.

Definition mod_argument_parser (arg_h arg_y_bit_length : Z)
    : result (Z * Z) :=
  (h <- positive_int arg_h ;;
   y_bit_length <- positive_int arg_y_bit_length ;;
   Ok (h, y_bit_length))%result.

Definition mod_main `{Random} (arg_h arg_y_bit_length : Z) : gen unit :=
  (args <- pure (mod_argument_parser arg_h arg_y_bit_length) ;;
   let '(h, y_bit_length) := args in
   gf2_poly_mod_generator.generate_verilog_and_tb_to_files
     h y_bit_length)%gen.

Definition affine_mod_argument_parser
    (arg_a arg_c arg_h arg_bit_length : Z) : result (Z * Z * Z * Z) :=
  (a <- positive_int arg_a ;;
   c <- nonnegative_int arg_c ;;
   h <- positive_int arg_h ;;
   bit_length <- positive_int arg_bit_length ;;
   Ok (a, c, h, bit_length))%result.

Definition affine_mod_main `{Random} (arg_a arg_c arg_h arg_bit_length : Z)
    : gen unit :=
  (args <- pure (affine_mod_argument_parser
                   arg_a arg_c arg_h arg_bit_length) ;;
   let '(args_a, args_c, args_h, args_bit_length) := args in
   let h := args_h in
   a <- pure (poly_mod args_a h) ;; (* simplify a(x) if possible *)
   c <- pure (poly_mod args_c h) ;; (* simplify c(x) if possible *)
   let bit_length := args_bit_length in
   gf2_poly_affine_mod_generator.generate_verilog_and_tb_to_files
     a c h bit_length)%gen.

End command_lines.

Section NarrowRuns.

Context `{Random}.

(** The reduction generator asked for an input narrower than the modulus:
    the directories are created, the tree generator fails. *)
Lemma mod_run_narrow (h b : Z) (w : world) :
  1 <= h -> b < poly_degree h ->
  gf2_poly_mod_generator.generate_verilog_and_tb_to_files h b w
  = (Raise IndexError,
     {| src_dir := true; tb_dir := true;
        src_files := src_files w; tb_files := tb_files w; rng := rng w |}).
Proof.
  intros Hh Hb.
  unfold gf2_poly_mod_generator.generate_verilog_and_tb_to_files,
    gf2_poly_mod_generator.generate_submodules_verilog_and_tb_to_files,
    xor_tree_generator.generate_verilog_and_tb_to_files.
  rewrite (int_bit_length_degree h Hh).
  replace (Z.max (b - poly_degree h + 1) 0) with 0 by lia.
  unfold gen_bind, makedirs, pure.
  now rewrite xor_tree_generate_src_empty by lia.
Qed.

Lemma affine_mod_run_narrow (a c h b : Z) :
  1 <= a -> 0 <= c -> 1 <= h -> 0 <= b ->
  b + poly_degree a < poly_degree h ->
  exists m tree tb tree_tb g,
    gf2_poly_affine_generator.generate_src a c b = Ok m /\
    forall w,
      gf2_poly_affine_mod_generator.generate_verilog_and_tb_to_files
        a c h b w
      = (Raise IndexError,
         after_run w
           [(gf2_poly_affine b, AffineSrc m);
            (xor_tree (Affine.xor_tree_num_vectors m)
                      (Affine.xor_tree_bit_length m), XorTreeSrc tree)]
           [(gf2_poly_affine b, AffineTb tb);
            (xor_tree (Affine.xor_tree_num_vectors m)
                      (Affine.xor_tree_bit_length m), XorTreeTb tree_tb)]
           g).
Proof.
  intros Ha Hc Hh Hb Hnarrow.
  destruct (affine_run a c b Ha Hc Hb)
    as (m & tree & tb & tree_tb & g & Hgen & _ & _ & _ & _ & _ & Hrun).
  exists m, tree, tb, tree_tb, g. split; [exact Hgen|]. intros w.
  unfold gf2_poly_affine_mod_generator.generate_verilog_and_tb_to_files,
    gf2_poly_affine_mod_generator.generate_submodules_verilog_and_tb_to_files.
  unfold gen_bind at 1 2. rewrite Hrun.
  now rewrite (mod_run_narrow h (b + poly_degree a) _ Hh Hnarrow).
Qed.

End NarrowRuns.

(** The composed generator, asked for an input so narrow that the affine
    output has fewer bits than the degree of [h], fails after it has
    written the affine module, its tree and their test benches: the run
    raises [IndexError] and leaves these four files, without a composed
    module. *)
Theorem affine_mod_generator_fails_midway {R : Random} (a c h b : Z)
    (w : world) :
  1 <= a -> 0 <= c -> 1 <= h -> 0 <= b ->
  b + poly_degree a < poly_degree h ->
  exists w',
    gf2_poly_affine_mod_generator.generate_verilog_and_tb_to_files a c h b w
    = (Raise IndexError, w') /\
    (exists m tree,
       gf2_poly_affine_generator.generate_src a c b = Ok m /\
       src_files w'
       = (gf2_poly_affine b, AffineSrc m)
         :: (xor_tree (Affine.xor_tree_num_vectors m)
                      (Affine.xor_tree_bit_length m), XorTreeSrc tree)
         :: src_files w) /\
    (exists tb tree_tb,
       tb_files w'
       = (gf2_poly_affine b, AffineTb tb) :: tree_tb :: tb_files w) /\
    lookup (gf2_poly_affine_mod b) (src_files w')
    = lookup (gf2_poly_affine_mod b) (src_files w).
Proof.
  intros Ha Hc Hh Hb Hnarrow.
  destruct (affine_mod_run_narrow a c h b Ha Hc Hh Hb Hnarrow)
    as (m & tree & tb & tree_tb & g & Hgen & Hrun).
  eexists. split; [apply Hrun|].
  cbn [after_run src_files tb_files app].
  split; [now exists m, tree|]. split; [now eexists; eexists|].
  reflexivity.
Qed.

Lemma affine_mod_generator_fails_midway_witness :
  exists w' : @world lcg,
    gf2_poly_affine_mod_generator.generate_verilog_and_tb_to_files
      3 1 285 4 lcg_world = (Raise IndexError, w') /\
    (exists m tree,
       gf2_poly_affine_generator.generate_src 3 1 4 = Ok m /\
       src_files w'
       = (gf2_poly_affine 4, AffineSrc m)
         :: (xor_tree (Affine.xor_tree_num_vectors m)
                      (Affine.xor_tree_bit_length m), XorTreeSrc tree)
         :: src_files lcg_world) /\
    (exists tb tree_tb,
       tb_files w'
       = (gf2_poly_affine 4, AffineTb tb) :: tree_tb :: tb_files lcg_world) /\
    lookup (gf2_poly_affine_mod 4) (src_files w')
    = lookup (gf2_poly_affine_mod 4) (src_files lcg_world).
Proof.
  apply (@affine_mod_generator_fails_midway lcg 3 1 285 4 lcg_world);
    try lia.
  change (poly_degree 3) with 1. change (poly_degree 285) with 8. lia.
Defined.

Section CommandLines.

Import command_lines.

Context `{Random}.

Lemma positive_int_cases (ivalue : Z) :
  (ivalue <= 0 /\ gf2e_prng_tool.positive_int ivalue = Raise ArgumentTypeError)
  \/ (1 <= ivalue /\ gf2e_prng_tool.positive_int ivalue = Ok ivalue).
Proof.
  unfold gf2e_prng_tool.positive_int.
  destruct (Z.leb_spec ivalue 0); [left|right]; split; (lia || reflexivity).
Qed.

Lemma nonnegative_int_cases (ivalue : Z) :
  (ivalue < 0
   /\ gf2e_prng_tool.nonnegative_int ivalue = Raise ArgumentTypeError)
  \/ (0 <= ivalue /\ gf2e_prng_tool.nonnegative_int ivalue = Ok ivalue).
Proof.
  unfold gf2e_prng_tool.nonnegative_int.
  destruct (Z.ltb_spec ivalue 0); [left|right]; split; (lia || reflexivity).
Qed.

Lemma xor_tree_main_cases (arg_num_vectors arg_bit_length : Z) (w : world) :
  ((arg_num_vectors <= 0 \/ arg_bit_length <= 0) /\
   xor_tree_main arg_num_vectors arg_bit_length w
   = (Raise ArgumentTypeError, w))
  \/ (1 <= arg_num_vectors /\ 1 <= arg_bit_length /\
      xor_tree_main arg_num_vectors arg_bit_length w
      = xor_tree_generator.generate_verilog_and_tb_to_files
          arg_num_vectors arg_bit_length w).
Proof.
  unfold xor_tree_main, xor_tree_argument_parser, gen_bind, pure.
  destruct (positive_int_cases arg_num_vectors) as [(Hn & ->)|(Hn & ->)];
    cbn [bind]; [left; split; [lia|reflexivity]|].
  destruct (positive_int_cases arg_bit_length) as [(Hw & ->)|(Hw & ->)];
    cbn [bind]; [left; split; [lia|reflexivity]|].
  right. repeat split; assumption.
Qed.

Lemma affine_main_cases (arg_a arg_c arg_bit_length : Z) (w : world) :
  ((arg_a <= 0 \/ arg_c < 0 \/ arg_bit_length <= 0) /\
   affine_main arg_a arg_c arg_bit_length w = (Raise ArgumentTypeError, w))
  \/ (1 <= arg_a /\ 0 <= arg_c /\ 1 <= arg_bit_length /\
      affine_main arg_a arg_c arg_bit_length w
      = gf2_poly_affine_generator.generate_verilog_and_tb_to_files
          arg_a arg_c arg_bit_length w).
Proof.
  unfold affine_main, affine_argument_parser, gen_bind, pure.
  destruct (positive_int_cases arg_a) as [(Ha & ->)|(Ha & ->)];
    cbn [bind]; [left; split; [lia|reflexivity]|].
  destruct (nonnegative_int_cases arg_c) as [(Hc & ->)|(Hc & ->)];
    cbn [bind]; [left; split; [lia|reflexivity]|].
  destruct (positive_int_cases arg_bit_length) as [(Hb & ->)|(Hb & ->)];
    cbn [bind]; [left; split; [lia|reflexivity]|].
  right. repeat split; assumption.
Qed.

Lemma mod_main_cases (arg_h arg_y_bit_length : Z) (w : world) :
  ((arg_h <= 0 \/ arg_y_bit_length <= 0) /\
   mod_main arg_h arg_y_bit_length w = (Raise ArgumentTypeError, w))
  \/ (1 <= arg_h /\ 1 <= arg_y_bit_length /\
      mod_main arg_h arg_y_bit_length w
      = gf2_poly_mod_generator.generate_verilog_and_tb_to_files
          arg_h arg_y_bit_length w).
Proof.
  unfold mod_main, mod_argument_parser, gen_bind, pure.
  destruct (positive_int_cases arg_h) as [(Hh & ->)|(Hh & ->)];
    cbn [bind]; [left; split; [lia|reflexivity]|].
  destruct (positive_int_cases arg_y_bit_length) as [(Hb & ->)|(Hb & ->)];
    cbn [bind]; [left; split; [lia|reflexivity]|].
  right. repeat split; assumption.
Qed.

Lemma affine_mod_main_cases (arg_a arg_c arg_h arg_bit_length : Z)
    (w : world) :
  ((arg_a <= 0 \/ arg_c < 0 \/ arg_h <= 0 \/ arg_bit_length <= 0) /\
   affine_mod_main arg_a arg_c arg_h arg_bit_length w
   = (Raise ArgumentTypeError, w))
  \/ (1 <= arg_a /\ 0 <= arg_c /\ 1 <= arg_h /\ 1 <= arg_bit_length /\
      affine_mod_main arg_a arg_c arg_h arg_bit_length w
      = gf2_poly_affine_mod_generator.generate_verilog_and_tb_to_files
          (remainder arg_h arg_a) (remainder arg_h arg_c) arg_h
          arg_bit_length w).
Proof.
  unfold affine_mod_main, affine_mod_argument_parser.
  unfold gen_bind at 1. unfold pure at 1.
  destruct (positive_int_cases arg_a) as [(Ha & ->)|(Ha & ->)];
    cbn [bind]; [left; split; [lia|reflexivity]|].
  destruct (nonnegative_int_cases arg_c) as [(Hc & ->)|(Hc & ->)];
    cbn [bind]; [left; split; [lia|reflexivity]|].
  destruct (positive_int_cases arg_h) as [(Hh & ->)|(Hh & ->)];
    cbn [bind]; [left; split; [lia|reflexivity]|].
  destruct (positive_int_cases arg_bit_length) as [(Hb & ->)|(Hb & ->)];
    cbn [bind]; [left; split; [lia|reflexivity]|].
  right. repeat (split; [assumption|]).
  unfold gen_bind, pure.
  destruct (poly_mod_remainder arg_h Hh arg_a ltac:(lia)) as (-> & _).
  destruct (poly_mod_remainder arg_h Hh arg_c ltac:(lia)) as (-> & _).
  reflexivity.
Qed.

End CommandLines.

(** The command line of the XOR tree generator succeeds exactly when both
    arguments are positive; otherwise the arguments are rejected and
    nothing is created. In particular it never reaches the [IndexError]
    of an empty tree. *)
Theorem xor_tree_command_line_succeeds_iff {R : Random}
    (arg_num_vectors arg_bit_length : Z) (w : world) :
  ((exists w',
      command_lines.xor_tree_main arg_num_vectors arg_bit_length w
      = (Ok tt, w'))
   <-> 1 <= arg_num_vectors /\ 1 <= arg_bit_length) /\
  (arg_num_vectors <= 0 \/ arg_bit_length <= 0 ->
   command_lines.xor_tree_main arg_num_vectors arg_bit_length w
   = (Raise ArgumentTypeError, w)).
Proof.
  destruct (xor_tree_main_cases arg_num_vectors arg_bit_length w)
    as [(Hbad & Hrun)|(HN & HW & Hrun)]; rewrite Hrun.
  - split; [|reflexivity]. split; [intros (w' & [=])|lia].
  - split; [|lia]. split; [now split|]. intros _.
    destruct (xor_tree_run arg_num_vectors arg_bit_length HN ltac:(lia))
      as (m & tb & g & _ & _ & _ & _ & _ & _ & Hgen).
    rewrite Hgen. now eexists.
Qed.

Lemma xor_tree_command_line_succeeds_iff_witness :
  exists w' : @world lcg,
    command_lines.xor_tree_main 5 8 lcg_world = (Ok tt, w').
Proof.
  apply (proj2 (proj1
    (@xor_tree_command_line_succeeds_iff lcg 5 8 lcg_world))). lia.
Defined.

(** The command line of the affine generator succeeds exactly when
    [a >= 1], [c >= 0] and the input width is positive; otherwise the
    arguments are rejected and nothing is created. *)
Theorem affine_command_line_succeeds_iff {R : Random}
    (arg_a arg_c arg_bit_length : Z) (w : world) :
  ((exists w',
      command_lines.affine_main arg_a arg_c arg_bit_length w = (Ok tt, w'))
   <-> 1 <= arg_a /\ 0 <= arg_c /\ 1 <= arg_bit_length) /\
  (arg_a <= 0 \/ arg_c < 0 \/ arg_bit_length <= 0 ->
   command_lines.affine_main arg_a arg_c arg_bit_length w
   = (Raise ArgumentTypeError, w)).
Proof.
  destruct (affine_main_cases arg_a arg_c arg_bit_length w)
    as [(Hbad & Hrun)|(Ha & Hc & Hb & Hrun)]; rewrite Hrun.
  - split; [|reflexivity]. split; [intros (w' & [=])|lia].
  - split; [|lia]. split; [now repeat split|]. intros _.
    destruct (affine_run arg_a arg_c arg_bit_length Ha Hc ltac:(lia))
      as (m & tree & tb & tree_tb & g & _ & _ & _ & _ & _ & _ & Hgen).
    rewrite Hgen. now eexists.
Qed.

Lemma affine_command_line_succeeds_iff_witness :
  exists w' : @world lcg,
    command_lines.affine_main 17 1 16 lcg_world = (Ok tt, w').
Proof.
  apply (proj2 (proj1
    (@affine_command_line_succeeds_iff lcg 17 1 16 lcg_world))). lia.
Defined.

(** The command line of the reduction generator succeeds exactly when
    [h >= 1] and the input width is positive and at least the degree of
    [h]; non-positive arguments are rejected, and a narrower input ends
    in [IndexError]. *)
Theorem mod_command_line_succeeds_iff {R : Random}
    (arg_h arg_y_bit_length : Z) (w : world) :
  ((exists w',
      command_lines.mod_main arg_h arg_y_bit_length w = (Ok tt, w'))
   <-> 1 <= arg_h /\ 1 <= arg_y_bit_length
       /\ poly_degree arg_h <= arg_y_bit_length) /\
  (arg_h <= 0 \/ arg_y_bit_length <= 0 ->
   command_lines.mod_main arg_h arg_y_bit_length w
   = (Raise ArgumentTypeError, w)) /\
  (1 <= arg_h -> 1 <= arg_y_bit_length ->
   arg_y_bit_length < poly_degree arg_h ->
   fst (command_lines.mod_main arg_h arg_y_bit_length w)
   = Raise IndexError).
Proof.
  destruct (mod_main_cases arg_h arg_y_bit_length w)
    as [(Hbad & Hrun)|(Hh & Hb & Hrun)]; rewrite Hrun.
  - split; [|split; [reflexivity|lia]].
    split; [intros (w' & [=])|lia].
  - destruct (Z.le_gt_cases (poly_degree arg_h) arg_y_bit_length)
      as [Hwide|Hnarrow].
    + destruct (mod_run arg_h arg_y_bit_length Hh Hwide)
        as (m & tree & tb & tree_tb & g & _ & _ & _ & _ & _ & _ & Hgen).
      rewrite Hgen. split; [|split; lia].
      split; [now repeat split|]. intros _. now eexists.
    + rewrite (mod_run_narrow arg_h arg_y_bit_length w Hh Hnarrow).
      split; [|split; [lia|reflexivity]].
      split; [intros (w' & [=])|lia].
Qed.

Lemma mod_command_line_succeeds_iff_witness :
  exists w' : @world lcg,
    command_lines.mod_main 285 16 lcg_world = (Ok tt, w').
Proof.
  apply (proj2 (proj1
    (@mod_command_line_succeeds_iff lcg 285 16 lcg_world))).
  change (poly_degree 285) with 8. lia.
Defined.

(** The command line of the composed generator reduces [a] and [c] modulo
    [h] first. It succeeds exactly when the arguments are valid, [a] is
    not a multiple of [h], and the input width plus the degree of the
    reduced [a] is at least the degree of [h]. *)
Theorem affine_mod_command_line_succeeds_iff {R : Random}
    (arg_a arg_c arg_h arg_bit_length : Z) (w : world) :
  ((exists w',
      command_lines.affine_mod_main arg_a arg_c arg_h arg_bit_length w
      = (Ok tt, w'))
   <-> 1 <= arg_a /\ 0 <= arg_c /\ 1 <= arg_h /\ 1 <= arg_bit_length /\
       exists a,
         poly_mod arg_a arg_h = Ok a /\ a <> 0 /\
         poly_degree arg_h <= arg_bit_length + poly_degree a) /\
  (arg_a <= 0 \/ arg_c < 0 \/ arg_h <= 0 \/ arg_bit_length <= 0 ->
   command_lines.affine_mod_main arg_a arg_c arg_h arg_bit_length w
   = (Raise ArgumentTypeError, w)).
Proof.
  destruct (affine_mod_main_cases arg_a arg_c arg_h arg_bit_length w)
    as [(Hbad & Hrun)|(Ha & Hc & Hh & Hb & Hrun)]; rewrite Hrun.
  - split; [|reflexivity]. split; [intros (w' & [=])|lia].
  - split; [|lia].
    destruct (poly_mod_remainder arg_h Hh arg_a ltac:(lia)) as (Hra & Hra').
    destruct (poly_mod_remainder arg_h Hh arg_c ltac:(lia)) as (Hrc & Hrc').
    set (a := remainder arg_h arg_a) in *.
    set (c := remainder arg_h arg_c) in *.
    destruct (Z.eq_dec a 0) as [Ha0|Ha0].
    { rewrite Ha0. split; [intros (w' & [=])|].
      intros (_ & _ & _ & _ & a' & Ha' & Hnz & _). congruence. }
    destruct (Z.le_gt_cases (poly_degree arg_h)
                (arg_bit_length + poly_degree a)) as [Hwide|Hnarrow].
    + destruct (affine_mod_run a c arg_h arg_bit_length ltac:(lia)
                  ltac:(lia) Hh ltac:(lia) Hwide)
        as (m1 & m2 & m3 & m4 & tb & t1 & t2 & t3 & t4 & g & _ & _ & _ & _
            & _ & _ & _ & _ & Hgen).
      rewrite Hgen. split; [|intros _; now eexists].
      intros _. repeat (split; [assumption|]). now exists a.
    + destruct (affine_mod_run_narrow a c arg_h arg_bit_length ltac:(lia)
                  ltac:(lia) Hh ltac:(lia) Hnarrow)
        as (m & tree & tb & tree_tb & g & _ & Hgen).
      rewrite Hgen. split; [intros (w' & [=])|].
      intros (_ & _ & _ & _ & a' & Ha' & _ & Hdeg).
      assert (a' = a) by congruence. subst a'. lia.
Qed.

Lemma affine_mod_command_line_succeeds_iff_witness :
  exists w' : @world lcg,
    command_lines.affine_mod_main 1000 700 285 8 lcg_world = (Ok tt, w').
Proof.
  apply (proj2 (proj1
    (@affine_mod_command_line_succeeds_iff lcg 1000 700 285 8 lcg_world))).
  repeat (split; [lia|]). exists 207.
  split; [reflexivity|]. split; [lia|].
  change (poly_degree 285) with 8. change (poly_degree 207) with 7. lia.
Defined.

(** * More properties of the polynomial arithmetic *)

Section Quotients.

Variable h : Z.
Hypothesis h_pos : 1 <= h.

Lemma clmul_shiftl_1 (s : Z) : 0 <= s -> clmul (Z.shiftl 1 s) h = Z.shiftl h s.
Proof.
  intros Hs. rewrite clmul_comm by (try apply Z.shiftl_nonneg; lia).
  destruct h as [|h'|h'] eqn:Eh; try lia. cbn [clmul].
  now rewrite clmul_pos_shiftl_r, clmul_pos_1_r.
Qed.

(** A multiple of [h] is [h] times a quotient. *)
Lemma multiple_quotient (z : Z) :
  multiple_of h z -> exists q, 0 <= q /\ z = clmul q h.
Proof.
  induction 1 as [|z s Hs _ (q & Hq & ->)].
  - exists 0. split; [lia|reflexivity].
  - exists (Z.lxor q (Z.shiftl 1 s)).
    assert (0 <= Z.shiftl 1 s) by (apply Z.shiftl_nonneg; lia).
    split; [now apply lxor_nonneg'|].
    rewrite clmul_lxor_l by lia. now rewrite clmul_shiftl_1.
Qed.

Lemma quotient_multiple (q : Z) : multiple_of h (clmul q h).
Proof.
  apply multiple_clmul. rewrite <- (Z.shiftl_0_r h).
  apply multiple_self_shiftl; lia.
Qed.

End Quotients.

(** [poly_mod] is polynomial division: for [y >= 0] and [h >= 1] it
    returns the one [r] of degree below the degree of [h] such that
    [y = q(x) h(x) + r(x)] for some quotient [q], in the words of the code
    [poly_affine q h r = y]. *)
Theorem poly_mod_is_division_remainder (y h : Z) :
  0 <= y -> 1 <= h ->
  exists q r,
    poly_mod y h = Ok r /\
    0 <= q /\ 0 <= r /\ poly_degree r < poly_degree h /\
    poly_affine q h r = Ok y /\
    (forall q' r',
       0 <= q' -> 0 <= r' -> poly_degree r' < poly_degree h ->
       poly_affine q' h r' = Ok y -> r' = r).
Proof.
  intros Hy Hh. assert (h_pos : 0 < h) by lia.
  destruct (poly_mod_spec h h_pos y Hy) as (r & Hrun & Hr & Hd & Hm).
  destruct (multiple_quotient h Hh _ Hm) as (q & Hq & Hz).
  exists q, r. repeat (split; [assumption|]). split.
  - rewrite poly_affine_clmul by assumption. f_equal.
    rewrite <- Hz. lxor_ac.
  - intros q' r' Hq' Hr' Hd' Haff.
    rewrite poly_affine_clmul in Haff by assumption.
    injection Haff as Hy'.
    assert (Hrun' : poly_mod y h = Ok r').
    { apply poly_mod_unique; try assumption.
      replace (Z.lxor y r') with (clmul q' h)
        by (rewrite <- Hy'; lxor_ac).
      now apply quotient_multiple. }
    congruence.
Qed.

Lemma poly_mod_is_division_remainder_witness :
  exists q r,
    poly_mod 4096 285 = Ok r /\
    0 <= q /\ 0 <= r /\ poly_degree r < poly_degree 285 /\
    poly_affine q 285 r = Ok 4096 /\
    (forall q' r',
       0 <= q' -> 0 <= r' -> poly_degree r' < poly_degree 285 ->
       poly_affine q' 285 r' = Ok 4096 -> r' = r).
Proof. apply (poly_mod_is_division_remainder 4096 285); lia. Defined.

(** [poly_mod] is additive: the remainder of [x ^ y] is the XOR of the
    remainders of [x] and [y]. *)
Theorem poly_mod_is_linear (x y h : Z) :
  0 <= x -> 0 <= y -> 1 <= h ->
  exists rx ry,
    poly_mod x h = Ok rx /\ poly_mod y h = Ok ry /\
    poly_mod (Z.lxor x y) h = Ok (Z.lxor rx ry).
Proof.
  intros Hx Hy Hh. assert (h_pos : 0 < h) by lia.
  destruct (poly_mod_spec h h_pos x Hx) as (rx & Hrx & _).
  destruct (poly_mod_spec h h_pos y Hy) as (ry & Hry & _).
  exists rx, ry. repeat split; try assumption.
  now apply poly_mod_lxor.
Qed.

Lemma poly_mod_is_linear_witness :
  exists rx ry,
    poly_mod 4096 285 = Ok rx /\ poly_mod 1000 285 = Ok ry /\
    poly_mod (Z.lxor 4096 1000) 285 = Ok (Z.lxor rx ry).
Proof. apply (poly_mod_is_linear 4096 1000 285); lia. Defined.

Section ProductDegree.

Lemma clmul_pos_degree (a : positive) (p : Z) :
  0 < p ->
  0 < clmul_pos a p /\
  poly_degree (clmul_pos a p) = Z.log2 (Zpos a) + poly_degree p.
Proof.
  intros Hp. pose proof (poly_degree_nonneg p Hp) as Hdp.
  induction a as [a' (Hpos & IH)|a' (Hpos & IH)|]; cbn [clmul_pos].
  - pose proof (Z.log2_nonneg (Zpos a')) as Hlog.
    assert (Hsh : 0 < Z.shiftl (clmul_pos a' p) 1)
      by (apply shiftl_pos; lia).
    assert (Hdsh : poly_degree (Z.shiftl (clmul_pos a' p) 1)
                   = Z.log2 (Zpos a') + poly_degree p + 1)
      by (rewrite poly_degree_shiftl by lia; lia).
    assert (Hdeg : poly_degree (Z.lxor p (Z.shiftl (clmul_pos a' p) 1))
                   = Z.log2 (Zpos a'~1) + poly_degree p).
    { rewrite Z.lxor_comm, poly_degree_lxor_lt by lia.
      rewrite log2_xI. lia. }
    split; [|exact Hdeg].
    assert (0 <= Z.lxor p (Z.shiftl (clmul_pos a' p) 1))
      by (apply lxor_nonneg'; lia).
    destruct (Z.eq_dec (Z.lxor p (Z.shiftl (clmul_pos a' p) 1)) 0)
      as [Hz|Hnz]; [|lia].
    rewrite Hz, poly_degree_0, log2_xI in Hdeg. lia.
  - split; [apply shiftl_pos; lia|].
    rewrite poly_degree_shiftl by lia. rewrite log2_xO. lia.
  - split; [assumption|]. change (Z.log2 1) with 0. lia.
Qed.

End ProductDegree.

(** [poly_affine] is the product over GF(2) plus [c]: the product is
    commutative, distributes over XOR, and for non-zero factors its degree
    is the sum of the degrees. *)
Theorem poly_affine_is_product (a p q c : Z) :
  0 <= a -> 0 <= p -> 0 <= q ->
  exists u v,
    poly_affine a p 0 = Ok u /\ poly_affine p a 0 = Ok u /\
    poly_affine a q 0 = Ok v /\
    poly_affine a (Z.lxor p q) c = Ok (Z.lxor (Z.lxor u v) c) /\
    poly_affine a p c = Ok (Z.lxor u c) /\
    (1 <= a -> 1 <= p -> poly_degree u = poly_degree a + poly_degree p).
Proof.
  intros Ha Hp Hq. exists (clmul a p), (clmul a q).
  rewrite !poly_affine_clmul by (try apply lxor_nonneg'; assumption).
  rewrite !Z.lxor_0_r, clmul_lxor_r, (clmul_comm p a) by assumption.
  repeat split.
  intros Ha1 Hp1. destruct a as [|a'|a']; try lia. cbn [clmul].
  rewrite (poly_degree_pos (Zpos a')) by lia.
  apply clmul_pos_degree. lia.
Qed.

Lemma poly_affine_is_product_witness :
  exists u v,
    poly_affine 23 200 0 = Ok u /\ poly_affine 200 23 0 = Ok u /\
    poly_affine 23 77 0 = Ok v /\
    poly_affine 23 (Z.lxor 200 77) 5 = Ok (Z.lxor (Z.lxor u v) 5) /\
    poly_affine 23 200 5 = Ok (Z.lxor u 5) /\
    (1 <= 23 -> 1 <= 200 -> poly_degree u = poly_degree 23 + poly_degree 200).
Proof. apply (poly_affine_is_product 23 200 77 5); lia. Defined.

Section BitPositionsSpec.

Lemma testbit_xO (q : positive) (n : Z) :
  0 <= n ->
  Z.testbit (Zpos q~0) n = if n =? 0 then false else Z.testbit (Zpos q) (n - 1).
Proof.
  intros Hn. rewrite Pos2Z.inj_xO. destruct (Z.eqb_spec n 0) as [->|Hne].
  - apply Z.testbit_even_0.
  - replace n with (Z.succ (n - 1)) at 1 by lia.
    apply Z.testbit_even_succ. lia.
Qed.

Lemma testbit_xI (q : positive) (n : Z) :
  0 <= n ->
  Z.testbit (Zpos q~1) n = if n =? 0 then true else Z.testbit (Zpos q) (n - 1).
Proof.
  intros Hn. rewrite Pos2Z.inj_xI. destruct (Z.eqb_spec n 0) as [->|Hne].
  - apply Z.testbit_odd_0.
  - replace n with (Z.succ (n - 1)) at 1 by lia.
    apply Z.testbit_odd_succ. lia.
Qed.

Lemma testbit_xH (n : Z) : 0 <= n -> Z.testbit 1 n = (n =? 0).
Proof.
  intros Hn. change 1 with (2 ^ 0).
  rewrite Z.pow2_bits_eqb by lia. apply Z.eqb_sym.
Qed.

Lemma bit_positions_pos_in (p : positive) :
  forall k i,
    In i (bit_positions_pos p k)
    <-> k <= i /\ Z.testbit (Zpos p) (i - k) = true.
Proof.
  induction p as [q IH|q IH|]; intros k i; cbn [bit_positions_pos In].
  - rewrite IH. split.
    + intros [<-|(Hle & Hbit)].
      * split; [lia|]. rewrite testbit_xI, Z.sub_diag by lia. reflexivity.
      * split; [lia|]. rewrite testbit_xI by lia.
        destruct (Z.eqb_spec (i - k) 0); [lia|].
        now replace (i - k - 1) with (i - (k + 1)) by ring.
    + intros (Hle & Hbit). rewrite testbit_xI in Hbit by lia.
      destruct (Z.eqb_spec (i - k) 0); [left; lia|right].
      split; [lia|]. now replace (i - (k + 1)) with (i - k - 1) by ring.
  - rewrite IH. split.
    + intros (Hle & Hbit). split; [lia|]. rewrite testbit_xO by lia.
      destruct (Z.eqb_spec (i - k) 0); [lia|].
      now replace (i - k - 1) with (i - (k + 1)) by ring.
    + intros (Hle & Hbit). rewrite testbit_xO in Hbit by lia.
      destruct (Z.eqb_spec (i - k) 0); [discriminate|].
      split; [lia|]. now replace (i - (k + 1)) with (i - k - 1) by ring.
  - split.
    + intros [<-|[]]. split; [lia|]. now rewrite Z.sub_diag.
    + intros (Hle & Hbit). rewrite testbit_xH in Hbit by lia.
      apply Z.eqb_eq in Hbit. left. lia.
Qed.

Lemma bit_positions_pos_sorted (p : positive) :
  forall k, StronglySorted Z.lt (bit_positions_pos p k).
Proof.
  induction p as [q IH|q IH|]; intros k; cbn [bit_positions_pos].
  - constructor; [apply IH|]. apply Forall_forall. intros i Hi.
    apply bit_positions_pos_bounds in Hi. lia.
  - apply IH.
  - repeat constructor.
Qed.

End BitPositionsSpec.

(** [get_bit_positions] on [n >= 0] returns, in increasing order and
    without repetition, exactly the positions of the bits of [n] that are
    1; on a negative [n] its loop never ends, since [n >>= 1] stays
    negative. *)
Theorem get_bit_positions_characterised (n : Z) :
  (0 <= n ->
   exists positions,
     get_bit_positions n = Ok positions /\
     StronglySorted Z.lt positions /\
     forall i, In i positions <-> 0 <= i /\ Z.testbit n i = true) /\
  (n < 0 ->
   forall fuel position positions,
     get_bit_positions_loop fuel n position positions = OutOfFuel).
Proof.
  split.
  - intros Hn. exists (bit_positions n).
    split; [now apply get_bit_positions_nonneg|].
    destruct n as [|p|p]; try lia; cbn [bit_positions].
    + split; [constructor|]. intros i. rewrite Z.bits_0. cbn [In].
      split; [tauto|intros (_ & [=])].
    + split; [apply bit_positions_pos_sorted|]. intros i.
      rewrite bit_positions_pos_in. now rewrite Z.sub_0_r.
  - intros Hn fuel position positions.
    now apply get_bit_positions_loop_neg.
Qed.

Lemma get_bit_positions_characterised_witness :
  exists positions,
    get_bit_positions 22 = Ok positions /\
    StronglySorted Z.lt positions /\
    forall i, In i positions <-> 0 <= i /\ Z.testbit 22 i = true.
Proof. apply (proj1 (get_bit_positions_characterised 22)). lia. Defined.

(** For [bit_length >= 0], [generate_random_integers] seeds the generator
    and returns [num_vectors] integers of at most [bit_length] bits (none
    when [num_vectors] is not positive) without touching a file. *)
Theorem generate_random_integers_in_range {R : Random}
    (num_vectors bit_length seed : Z) (w : world) :
  0 <= bit_length ->
  exists vs w',
    generate_random_integers num_vectors bit_length seed w = (Ok vs, w') /\
    length vs = Z.to_nat num_vectors /\
    Forall (fun v => 0 <= v < 2 ^ bit_length) vs /\
    src_files w' = src_files w /\ tb_files w' = tb_files w.
Proof.
  intros Hb.
  destruct (generate_random_integers_ok num_vectors bit_length seed Hb)
    as (vs & g & Hlen & Hall & Hrun).
  exists vs. eexists. split; [apply Hrun|]. now repeat split.
Qed.

Lemma generate_random_integers_in_range_witness :
  exists vs (w' : @world lcg),
    generate_random_integers 5 8 42 lcg_world = (Ok vs, w') /\
    length vs = Z.to_nat 5 /\
    Forall (fun v => 0 <= v < 2 ^ 8) vs /\
    src_files w' = src_files lcg_world /\ tb_files w' = tb_files lcg_world.
Proof.
  apply (@generate_random_integers_in_range lcg 5 8 42 lcg_world). lia.
Defined.

(** * The size of the XOR tree *)

(** The two-input XOR assignments and the part selects of a module body. *)
Definition two_input_xors (body : list XorTree.stmt) : nat :=
  length (filter (fun st => match st with
                            | XorTree.Xor2 _ _ _ => true
                            | _ => false
                            end) body).

Definition part_selects (body : list XorTree.stmt) : nat :=
  length (filter (fun st => match st with
                            | XorTree.Unpack _ _ _ => true
                            | _ => false
                            end) body).

Section TreeSize.

Import XorTree xor_tree_generator.

Lemma two_input_xors_app (l1 l2 : list stmt) :
  two_input_xors (l1 ++ l2) = (two_input_xors l1 + two_input_xors l2)%nat.
Proof. unfold two_input_xors. now rewrite filter_app, length_app. Qed.

Lemma part_selects_app (l1 l2 : list stmt) :
  part_selects (l1 ++ l2) = (part_selects l1 + part_selects l2)%nat.
Proof. unfold part_selects. now rewrite filter_app, length_app. Qed.

Lemma stage_stmts_size (stage : Z) (current_level : list wire) :
  forall k,
    two_input_xors (stage_stmts stage current_level k)
    = Nat.div2 (length current_level) /\
    part_selects (stage_stmts stage current_level k) = 0%nat.
Proof.
  induction current_level as [|a|a b rest IH] using pair_induction;
    intros k; cbn [stage_stmts]; try (split; reflexivity).
  destruct (IH (S k)) as (Hx & Hu). split.
  - change (two_input_xors (Xor2 (stage, Z.of_nat k) a b
                              :: stage_stmts stage rest (S k)))
      with (S (two_input_xors (stage_stmts stage rest (S k)))).
    rewrite Hx. reflexivity.
  - exact Hu.
Qed.

Lemma div2_halves (n : nat) : (Nat.div2 n + Nat.div2 (S n) = n)%nat.
Proof.
  induction n as [|n IH]; [reflexivity|].
  cbn [Nat.div2]. destruct n as [|n]; [reflexivity|].
  cbn [Nat.div2] in IH |- *. lia.
Qed.

Lemma tree_loop_size (n : nat) :
  forall stage current_level lines,
    (length current_level <= n)%nat -> (1 <= length current_level)%nat ->
    (two_input_xors (snd (tree_loop stage current_level lines)) + 1
     = two_input_xors lines + length current_level)%nat /\
    part_selects (snd (tree_loop stage current_level lines))
    = part_selects lines /\
    length (fst (tree_loop stage current_level lines)) = 1%nat.
Proof.
  induction n as [|n IH]; intros stage current_level lines Hn Hpos; [lia|].
  destruct (le_lt_dec (length current_level) 1) as [Hone|Hmore].
  - rewrite tree_loop_done by assumption. cbn [fst snd].
    repeat split; lia.
  - rewrite tree_loop_step by assumption.
    pose proof (tree_stage_length stage current_level [] lines) as Hlen.
    pose proof (tree_stage_shrinks stage current_level lines Hmore) as Hlt.
    cbn [length Nat.add] in Hlen.
    assert (Hdiv : (1 <= Nat.div2 (S (length current_level)))%nat).
    { destruct (length current_level) as [|[|k]]; cbn [Nat.div2]; lia. }
    destruct (IH (stage + 1)
                (fst (tree_stage stage current_level [] lines))
                (snd (tree_stage stage current_level [] lines))
                ltac:(lia) ltac:(lia)) as (Hx & Hu & Hone).
    rewrite tree_stage_eq in Hx, Hu, Hone, Hlen |- *. cbn [fst snd] in *.
    rewrite two_input_xors_app in Hx. rewrite part_selects_app in Hu.
    destruct (stage_stmts_size stage current_level (length (@nil wire)))
      as (Hsx & Hsu).
    rewrite Hsx in Hx. rewrite Hsu in Hu. cbn [app] in *.
    rewrite Hlen in Hx.
    pose proof (div2_halves (length current_level)).
    repeat split; [lia|lia|exact Hone].
Qed.

Lemma unpack_size (f : Z -> Z * Z) (idxs : list Z) :
  two_input_xors (map (fun i => Unpack (0, i) (fst (f i)) (snd (f i))) idxs)
  = 0%nat /\
  part_selects (map (fun i => Unpack (0, i) (fst (f i)) (snd (f i))) idxs)
  = length idxs.
Proof.
  induction idxs as [|i idxs (IHx & IHu)]; [split; reflexivity|].
  split; [exact IHx|]. cbn [map length]. rewrite <- IHu. reflexivity.
Qed.

End TreeSize.

(** The module that the XOR tree generator builds for [N >= 1] vectors has
    one part select per vector and exactly [N - 1] two-input XOR
    assignments. *)
Theorem xor_tree_gate_count (num_vectors bit_length : Z) :
  1 <= num_vectors ->
  exists m,
    xor_tree_generator.generate_src num_vectors bit_length = Ok m /\
    Z.of_nat (part_selects (XorTree.body m)) = num_vectors /\
    Z.of_nat (two_input_xors (XorTree.body m)) = num_vectors - 1.
Proof.
  intros HN. unfold xor_tree_generator.generate_src.
  set (level := map (fun i => (0, i)) (range num_vectors)).
  change (map (fun i => XorTree.Unpack (0, i) ((i + 1) * bit_length - 1)
                        (i * bit_length)) (range num_vectors))
    with (map (fun i => XorTree.Unpack (0, i)
                          (fst ((i + 1) * bit_length - 1, i * bit_length))
                          (snd ((i + 1) * bit_length - 1, i * bit_length)))
              (range num_vectors)).
  set (lines := map _ (range num_vectors)).
  assert (Hlen : @length XorTree.wire level = Z.to_nat num_vectors).
  { unfold level, range. now rewrite !length_map, length_seq. }
  assert (Hlines : two_input_xors lines = 0%nat
                   /\ part_selects lines = Z.to_nat num_vectors).
  { rewrite <- Hlen. unfold level.
    rewrite (length_map (fun i : Z => ((0, i) : XorTree.wire))).
    apply unpack_size. }
  destruct Hlines as (Hx0 & Hu0).
  assert (Hpos : (1 <= @length XorTree.wire level)%nat)
    by (rewrite Hlen; lia).
  destruct (tree_loop_size (length level) 1 level lines (le_n _) Hpos)
    as (Hx & Hu & Hone).
  destruct (xor_tree_generator.tree_loop 1 level lines)
    as [final body] eqn:Hloop.
  cbn [fst snd] in *.
  destruct final as [|out [|]]; try discriminate Hone.
  cbn [first bind]. eexists. split; [reflexivity|].
  cbn [XorTree.body]. clear Hloop. clearbody level lines.
  rewrite Hu, Hu0. rewrite Hx0, Hlen in Hx. split; lia.
Qed.

Lemma xor_tree_gate_count_witness :
  exists m,
    xor_tree_generator.generate_src 5 8 = Ok m /\
    Z.of_nat (part_selects (XorTree.body m)) = 5 /\
    Z.of_nat (two_input_xors (XorTree.body m)) = 5 - 1.
Proof. apply (xor_tree_gate_count 5 8). lia. Defined.

(** * Polynomials as text *)

(** The format ["alg"] of [int_poly_to_str] and [str_poly_to_int] in
    [gf2_poly_utils.py], as in ["x^4 + 1"]. A Python string is the list of
    its characters, here the characters below 256; among these the digits
    that [\d] and [int] accept are the ASCII digits. Integers are
    unbounded: the limit of 4300 digits that Python puts by default on the
    conversions between [int] and [str] concerns exponents that no integer
    in memory has. The other formats rest on Python's [int(s, base)],
    [hex] and [bin] and are left out. *)
Module poly_text.

Local Open Scope string_scope.

(** [f"{order}"] for [order >= 0]: the decimal digits. *)
Definition decimal (order : Z) : string :=
  NilEmpty.string_of_uint (N.to_uint (Z.to_N order)).

(** [sep.join(terms)] *)
Fixpoint join (sep : string) (terms : list string) : string :=
  match terms with
  | [] => ""
  | [term] => term
  | term :: rest => term ++ sep ++ join sep rest
  end.

(** The loop body of [int_poly_to_str]: the term of an exponent. *)
Definition poly_term (order : Z) : string :=
  if (order =? 0)%Z then "1"
  else if (order =? 1)%Z then "x"
  else "x^" ++ decimal order.

(** [int_poly_to_str(poly_int, "alg")] *)
Definition int_poly_to_str_alg (poly_int : Z) : result string :=
  ((* Guarantee that int polynomial is positive/valid *)
   let poly_int := Z.abs poly_int in
   (* If the polynomial given is 0, return "0" *)
   if (poly_int =? 0)%Z then Ok "0"
   else
     (* bit positions with non-zero coefficients in decreasing order *)
     positions <- get_bit_positions poly_int ;;
     let poly_ones := rev positions in
     let poly_terms := map poly_term poly_ones in
     Ok (join " + " poly_terms))%result.

(** [poly_str.replace(" ", "")] *)
Fixpoint remove_spaces (poly_str : string) : string :=
  match poly_str with
  | EmptyString => EmptyString
  | String c rest =>
      if Ascii.eqb c " " then remove_spaces rest
      else String c (remove_spaces rest)
  end.

(** [\d] *)
Definition is_digit (c : ascii) : bool :=
  (48 <=? nat_of_ascii c)%nat && (nat_of_ascii c <=? 57)%nat.

(** The longest run of digits at the start of a string: what a greedy
    [\d+] takes when nothing follows it in the pattern. *)
Fixpoint leading_digits (s : string) : string :=
  match s with
  | EmptyString => EmptyString
  | String c rest =>
      if is_digit c then String c (leading_digits rest) else EmptyString
  end.

(** The match of [x\^\d+|x|1] at the start of a string: the first
    alternative that matches. *)
Definition match_at (s : string) : option string :=
  match s with
  | EmptyString => None
  | String c s1 =>
      if Ascii.eqb c "x" then
        match s1 with
        | EmptyString => Some "x"
        | String c1 s2 =>
            if Ascii.eqb c1 "^" then
              let digits := leading_digits s2 in
              if String.eqb digits "" then Some "x"
              else Some ("x^" ++ digits)
            else Some "x"
        end
      else if Ascii.eqb c "1" then Some "1"
      else None
  end.

(** [re.findall(r'x\^\d+|x|1', s)]: the matches from left to right,
    without overlap. [covered] counts the characters that the previous
    match still covers. *)
Fixpoint findall (s : string) (covered : nat) : list string :=
  match s with
  | EmptyString => []
  | String c rest =>
      match covered with
      | S covered' => findall rest covered'
      | O =>
          match match_at s with
          | Some term => term :: findall rest (String.length term - 1)
          | None => findall rest 0
          end
      end
  end.

(** [term[2:]] *)
Definition drop2 (term : string) : string :=
  match term with
  | String _ (String _ rest) => rest
  | _ => EmptyString
  end.

(** [int(digits)] on a string of digits; Python raises [ValueError] on the
    empty string and on any other character. *)
Definition int_of_digits (digits : string) : result Z :=
  if String.eqb digits "" then Raise ValueError
  else
    match NilEmpty.uint_of_string digits with
    | Some d => Ok (Z.of_N (N.of_uint d))
    | None => Raise ValueError
    end.

(** The degree that the loop of [str_poly_to_int] reads off a term. *)
Definition term_degree (term : string) : result Z :=
  if String.eqb term "1" then Ok 0%Z
  else if String.eqb term "x" then Ok 1%Z
  else (* term like x^n *) int_of_digits (drop2 term).

(** The loop [for term in terms: ...; value |= 1 << degree]. *)
Fixpoint accumulate (terms : list string) (value : Z) : result Z :=
  match terms with
  | [] => Ok value
  | term :: rest =>
      (degree <- term_degree term ;;
       bit <- py_shl 1 degree ;;
       accumulate rest (Z.lor value bit))%result
  end.

(** [str_poly_to_int(poly_str, "alg")] *)
Definition str_poly_to_int_alg (poly_str : string) : result Z :=
  ((* Remove spaces for easier processing *)
   let poly_str := remove_spaces poly_str in
   (* Match terms like x^n, x, or 1 *)
   let terms := findall poly_str 0 in
   accumulate terms 0%Z)%result.

End poly_text.

Example int_poly_to_str_11 :
  poly_text.int_poly_to_str_alg 11 = Ok "x^3 + x + 1"%string.
Proof. reflexivity. Qed.

Example str_poly_to_int_11 :
  poly_text.str_poly_to_int_alg "x^3 + x + 1" = Ok 11.
Proof. reflexivity. Qed.

Example str_poly_to_int_285 :
  poly_text.str_poly_to_int_alg "x^8+x^4 + x^3 +x^2+1" = Ok 285.
Proof. reflexivity. Qed.

Example str_poly_to_int_large_order :
  poly_text.str_poly_to_int_alg "x^31 + x^13 + x^8 + x^3 + 1"
  = Ok 2147492105.
Proof. reflexivity. Qed.

Section PolyText.

Import poly_text.

Local Open Scope string_scope.

Lemma string_of_uint_no_space (u : Decimal.uint) :
  remove_spaces (NilEmpty.string_of_uint u) = NilEmpty.string_of_uint u.
Proof.
  induction u; cbn [NilEmpty.string_of_uint remove_spaces];
    try reflexivity; cbn; now rewrite IHu.
Qed.

Lemma string_of_uint_digits (u : Decimal.uint) (rest : string) :
  leading_digits rest = "" ->
  leading_digits (NilEmpty.string_of_uint u ++ rest)
  = NilEmpty.string_of_uint u.
Proof.
  intros Hrest.
  induction u; cbn [NilEmpty.string_of_uint append leading_digits];
    try assumption; cbn; now rewrite IHu.
Qed.

Lemma decimal_nonempty (order : Z) : decimal order <> "".
Proof.
  unfold decimal. destruct (Z.to_N order) as [|p]; [discriminate|].
  pose proof (DecimalPos.Unsigned.to_uint_nonnil p) as Hnil.
  cbn [N.to_uint]. destruct (Pos.to_uint p); try discriminate.
  now contradiction Hnil.
Qed.

Lemma int_of_decimal (order : Z) :
  (0 <= order)%Z -> int_of_digits (decimal order) = Ok order.
Proof.
  intros Horder. unfold int_of_digits.
  destruct (String.eqb_spec (decimal order) "") as [Hempty|_];
    [now apply decimal_nonempty in Hempty|].
  unfold decimal. rewrite NilEmpty.usu, DecimalN.Unsigned.of_to.
  now rewrite Z2N.id.
Qed.

Lemma remove_spaces_app (s t : string) :
  remove_spaces (s ++ t) = remove_spaces s ++ remove_spaces t.
Proof.
  induction s as [|c s IH]; [reflexivity|].
  cbn [append remove_spaces]. destruct (Ascii.eqb c " "); [assumption|].
  cbn [append]. now rewrite IH.
Qed.

Lemma poly_term_no_space (order : Z) :
  remove_spaces (poly_term order) = poly_term order.
Proof.
  unfold poly_term.
  destruct (order =? 0)%Z; [reflexivity|].
  destruct (order =? 1)%Z; [reflexivity|].
  rewrite remove_spaces_app. unfold decimal.
  now rewrite string_of_uint_no_space.
Qed.

Lemma join_cons (sep term : string) (next : Z) (orders : list Z) :
  join sep (term :: map poly_term (next :: orders))
  = term ++ sep ++ join sep (map poly_term (next :: orders)).
Proof. reflexivity. Qed.

Lemma remove_spaces_join (orders : list Z) :
  remove_spaces (join " + " (map poly_term orders))
  = join "+" (map poly_term orders).
Proof.
  induction orders as [|order [|next orders] IH]; [reflexivity| |].
  - apply poly_term_no_space.
  - change (map poly_term (order :: next :: orders))
      with (poly_term order :: map poly_term (next :: orders)).
    rewrite !join_cons, !remove_spaces_app, poly_term_no_space, IH.
    reflexivity.
Qed.

Lemma append_empty_r (s : string) : s ++ "" = s.
Proof.
  induction s as [|c s IH]; [reflexivity|]. cbn [append]. now rewrite IH.
Qed.

(** The characters of a match are skipped. *)
Lemma findall_covered (term rest : string) :
  findall (term ++ rest) (String.length term) = findall rest 0.
Proof.
  induction term as [|c term IH]; [reflexivity|].
  cbn [append String.length findall]. exact IH.
Qed.

(** A string at whose start no term goes on: it is empty or starts with a
    character that is neither a digit nor [^]. *)
Definition term_ends (rest : string) : Prop :=
  leading_digits rest = "" /\
  match rest with
  | EmptyString => True
  | String c _ => Ascii.eqb c "^" = false
  end.

Lemma findall_poly_term (order : Z) (rest : string) :
  (0 <= order)%Z -> term_ends rest ->
  findall (poly_term order ++ rest) 0 = poly_term order :: findall rest 0.
Proof.
  intros Horder (Hdigits & Hcaret). unfold poly_term.
  destruct (order =? 0)%Z; [reflexivity|].
  destruct (order =? 1)%Z.
  - cbn [append findall]. unfold match_at.
    change (Ascii.eqb "x" "x") with true. cbv iota.
    destruct rest as [|c rest]; [reflexivity|]. now rewrite Hcaret.
  - assert (Hld : leading_digits (decimal order ++ rest) = decimal order)
      by (unfold decimal; now apply string_of_uint_digits).
    change (("x^" ++ decimal order) ++ rest)
      with (String "x" (String "^" (decimal order ++ rest))).
    cbn [findall]. unfold match_at.
    change (Ascii.eqb "x" "x") with true.
    change (Ascii.eqb "^" "^") with true. cbv iota zeta.
    rewrite Hld.
    destruct (String.eqb_spec (decimal order) "") as [Hempty|_];
      [now apply decimal_nonempty in Hempty|].
    f_equal.
    replace (String.length ("x^" ++ decimal order) - 1)%nat
      with (S (String.length (decimal order)))
      by (cbn [append String.length]; lia).
    cbn [findall]. apply findall_covered.
Qed.

Lemma findall_join (orders : list Z) :
  Forall (fun order => 0 <= order)%Z orders ->
  findall (join "+" (map poly_term orders)) 0 = map poly_term orders.
Proof.
  induction orders as [|order [|next orders] IH]; intros Hall;
    [reflexivity| |].
  - cbn [map join]. inversion_clear Hall as [|? ? Horder _].
    rewrite <- (append_empty_r (poly_term order)) at 1.
    rewrite findall_poly_term; [reflexivity|assumption|].
    split; [reflexivity|exact I].
  - inversion_clear Hall as [|? ? Horder Hrest].
    change (map poly_term (order :: next :: orders))
      with (poly_term order :: map poly_term (next :: orders)).
    rewrite join_cons, findall_poly_term;
      [|assumption|split; [reflexivity|reflexivity]].
    f_equal. exact (IH Hrest).
Qed.

Lemma term_degree_poly_term (order : Z) :
  (0 <= order)%Z -> term_degree (poly_term order) = Ok order.
Proof.
  intros Horder. unfold poly_term.
  destruct (Z.eqb_spec order 0) as [->|_]; [reflexivity|].
  destruct (Z.eqb_spec order 1) as [->|_]; [reflexivity|].
  unfold term_degree.
  change ("x^" ++ decimal order) with (String "x" (String "^" (decimal order))).
  cbn [String.eqb]. change (Ascii.eqb "x" "1") with false.
  change (Ascii.eqb "x" "x") with true. cbv iota.
  cbn [drop2]. now apply int_of_decimal.
Qed.

Lemma accumulate_poly_terms (orders : list Z) :
  Forall (fun order => 0 <= order)%Z orders ->
  forall value,
    accumulate (map poly_term orders) value
    = Ok (fold_left (fun v order => Z.lor v (Z.shiftl 1 order)) orders value).
Proof.
  induction 1 as [|order orders Horder _ IH]; intros value; [reflexivity|].
  cbn [map accumulate fold_left].
  rewrite term_degree_poly_term by assumption. cbn [bind].
  unfold py_shl. destruct (Z.ltb_spec order 0); [lia|]. cbn [bind].
  apply IH.
Qed.

Lemma fold_lor_testbit (orders : list Z) :
  Forall (fun order => 0 <= order)%Z orders ->
  forall value i,
    (0 <= i)%Z ->
    Z.testbit (fold_left (fun v order => Z.lor v (Z.shiftl 1 order))
                         orders value) i
    = Z.testbit value i || existsb (Z.eqb i) orders.
Proof.
  induction 1 as [|order orders Horder _ IH]; intros value i Hi;
    cbn [fold_left existsb]; [now rewrite orb_false_r|].
  rewrite IH, Z.lor_spec, Z.shiftl_1_l, Z.pow2_bits_eqb by assumption.
  rewrite (Z.eqb_sym order i). now rewrite orb_assoc.
Qed.

Lemma fold_lor_bit_positions (n : Z) :
  (0 <= n)%Z ->
  fold_left (fun v order => Z.lor v (Z.shiftl 1 order))
            (rev (bit_positions n)) 0%Z = n.
Proof.
  intros Hn.
  assert (Hin : forall i, In i (bit_positions n)
                          <-> (0 <= i)%Z /\ Z.testbit n i = true).
  { destruct n as [|p|p]; try lia; cbn [bit_positions]; intros i.
    - rewrite Z.bits_0. cbn [In]. split; [tauto|intros (_ & [=])].
    - rewrite bit_positions_pos_in. now rewrite Z.sub_0_r. }
  assert (Hall : Forall (fun order => 0 <= order)%Z (rev (bit_positions n))).
  { apply Forall_forall. intros i Hi. apply in_rev in Hi.
    now apply Hin in Hi. }
  apply Z.bits_inj'. intros i Hi.
  rewrite fold_lor_testbit, Z.bits_0 by assumption. cbn [orb].
  destruct (Z.testbit n i) eqn:Hbit.
  - apply existsb_exists. exists i. split; [|apply Z.eqb_refl].
    apply in_rev. rewrite rev_involutive. now apply Hin.
  - destruct (existsb (Z.eqb i) (rev (bit_positions n))) eqn:Hex;
      [|reflexivity].
    apply existsb_exists in Hex. destruct Hex as (j & Hj & Heq).
    apply Z.eqb_eq in Heq. subst j. apply in_rev in Hj.
    apply Hin in Hj. destruct Hj as (_ & Hj). congruence.
Qed.

End PolyText.

(** The text that [int_poly_to_str] writes in the format ["alg"] is read
    back by [str_poly_to_int] as the absolute value of the integer. *)
Theorem alg_text_round_trip (poly_int : Z) :
  exists poly_str,
    poly_text.int_poly_to_str_alg poly_int = Ok poly_str /\
    poly_text.str_poly_to_int_alg poly_str = Ok (Z.abs poly_int).
Proof.
  unfold poly_text.int_poly_to_str_alg.
  pose proof (Z.abs_nonneg poly_int) as Hn.
  destruct (Z.eqb_spec (Z.abs poly_int) 0) as [->|Hnz].
  - eexists. split; reflexivity.
  - rewrite get_bit_positions_nonneg by assumption. cbn [bind].
    eexists. split; [reflexivity|].
    unfold poly_text.str_poly_to_int_alg.
    assert (Hall : Forall (fun order => 0 <= order)
                          (rev (bit_positions (Z.abs poly_int)))).
    { apply Forall_forall. intros i Hi. apply in_rev in Hi.
      destruct (Z.abs poly_int) as [|p|p]; try lia.
      cbn [bit_positions] in Hi. apply bit_positions_pos_in in Hi. lia. }
    rewrite remove_spaces_join, findall_join, accumulate_poly_terms
      by assumption.
    f_equal. now apply fold_lor_bit_positions.
Qed.

(** Python's [c in s] for a character [c]. *)
Fixpoint has_char (c : ascii) (s : string) : bool :=
  match s with
  | EmptyString => false
  | String c' rest => Ascii.eqb c' c || has_char c rest
  end.

Section TextWithoutTerms.

Import poly_text.

Local Open Scope string_scope.

Lemma has_char_remove_spaces (c : ascii) (s : string) :
  has_char c s = false -> has_char c (remove_spaces s) = false.
Proof.
  induction s as [|c' s IH]; [reflexivity|].
  cbn [has_char remove_spaces]. intros Hc.
  apply orb_false_elim in Hc. destruct Hc as (Hhead & Hrest).
  destruct (Ascii.eqb c' " "); [now apply IH|].
  cbn [has_char]. now rewrite Hhead, IH.
Qed.

Lemma findall_without_terms (s : string) :
  has_char "x" s = false -> has_char "1" s = false ->
  forall covered, findall s covered = [].
Proof.
  induction s as [|c s IH]; intros Hx H1 covered; [reflexivity|].
  cbn [has_char] in Hx, H1.
  apply orb_false_elim in Hx. destruct Hx as (Hx & Hxs).
  apply orb_false_elim in H1. destruct H1 as (H1 & H1s).
  cbn [findall]. destruct covered as [|covered]; [|now apply IH].
  unfold match_at. rewrite Hx, H1. now apply IH.
Qed.

End TextWithoutTerms.

(** [str_poly_to_int] in the format ["alg"] reads a text with no [x] and
    no [1] in it as the zero polynomial, whatever else the text holds: it
    raises no error on such a text. *)
Theorem alg_text_without_terms_is_zero (poly_str : string) :
  has_char "x" poly_str = false -> has_char "1" poly_str = false ->
  poly_text.str_poly_to_int_alg poly_str = Ok 0.
Proof.
  intros Hx H1. unfold poly_text.str_poly_to_int_alg.
  rewrite findall_without_terms
    by (apply has_char_remove_spaces; assumption).
  reflexivity.
Qed.

Lemma alg_text_without_terms_is_zero_witness :
  poly_text.str_poly_to_int_alg "X^4 + y + 2" = Ok 0.
Proof.
  apply (alg_text_without_terms_is_zero "X^4 + y + 2"); reflexivity.
Defined.

(** * The graphical front end *)

(** [generate_project] of [gf2e_prng_tool_app.py], the handler of the
    button that generates a project, from the point where the three
    entries have been converted to integers (line 225 on). The message
    boxes that the handler has shown stand beside its outcome, so that
    they are there when it fails or does not return. The lines written to
    the log of the window, which are built by [int_poly_to_str] and cannot
    fail, and what [generate_project] of [gf2e_prng_tool.py] adds around
    the RTL files are left out, as in [gf2e_prng_tool.main]. *)
Module gf2e_prng_tool_app.

(** The calls of [messagebox.showinfo]. *)
Inductive message : Type :=
| h_cannot_be (h : Z)    (* Polynomial h(x) cannot be {h}, ... *)
| a_cannot_be_zero       (* Polynomial a(x) cannot be 0 (mod h(x))! *)
| project_generated.     (* Project generated successfully! *)

Definition generate_project `{Random} (a c h : Z) (w : world)
    : list message * (result unit * world) :=
  (* Check if h(x) is irreducible *)
  (* For now just checking that it is not 0 *)
  let shown := if h =? 0 then [h_cannot_be h] else [] in
  (* Reduce polynomials a(x) and c(x) by h(x) if possible *)
  match poly_mod a h with
  | Ok a =>
      match poly_mod c h with
      | Ok c =>
          (* Check if a(x) is not 0 *)
          if a =? 0 then (shown ++ [a_cannot_be_zero], (Ok tt, w))
          else
            (* Contruct PRNG project inside save_dir *)
            match gf2e_prng_tool.generate_verilog_and_tb_to_files a c h w
            with
            | (Ok tt, w') => (shown ++ [project_generated], (Ok tt, w'))
            | (Raise e, w') => (shown, (Raise e, w'))
            | (OutOfFuel, w') => (shown, (OutOfFuel, w'))
            end
      | Raise e => (shown, (Raise e, w))
      | OutOfFuel => (shown, (OutOfFuel, w))
      end
  | Raise e => (shown, (Raise e, w))
  | OutOfFuel => (shown, (OutOfFuel, w))
  end.

End gf2e_prng_tool_app.

(** C7: the graphical front end does not reject [h = 0] before it calls
    [poly_mod]. The text ["0"] of the entry is converted to 0; the handler
    shows its error box, does not return, and calls [poly_mod a 0], whose
    loop ends for no amount of fuel; the command line rejects the same
    [h]. *)
Theorem gui_calls_poly_mod_with_zero_modulus {R : Random} (a c : Z)
    (w : world) :
  poly_text.str_poly_to_int_alg "0" = Ok 0 /\
  gf2e_prng_tool_app.generate_project a c 0 w
  = ([gf2e_prng_tool_app.h_cannot_be 0], (OutOfFuel, w)) /\
  (forall fuel, poly_mod_loop fuel 0 (poly_degree 0) a = OutOfFuel) /\
  gf2e_prng_tool.main_parameters a c 0 = Raise ArgumentTypeError.
Proof.
  split; [reflexivity|]. split; [|split].
  - unfold gf2e_prng_tool_app.generate_project, poly_mod.
    now rewrite poly_mod_loop_zero_modulus.
  - intros fuel. apply poly_mod_loop_zero_modulus.
  - unfold gf2e_prng_tool.main_parameters, gf2e_prng_tool.argument_parser.
    unfold gf2e_prng_tool.positive_int, gf2e_prng_tool.nonnegative_int.
    destruct (a <=? 0); [reflexivity|].
    destruct (c <? 0); reflexivity.
Qed.

(** The graphical front end, for [a >= 0], [c >= 0] and [h >= 1]: when [a]
    is a multiple of [h] it shows that [a(x)] cannot be 0 and returns
    without writing anything; otherwise it leaves the files and the
    outcome that the command line leaves for the same three numbers, and
    reports success when the generation succeeded. *)
Theorem gui_agrees_with_command_line {R : Random} (a c h : Z) (w : world) :
  0 <= a -> 0 <= c -> 1 <= h ->
  (poly_mod a h = Ok 0 ->
   gf2e_prng_tool_app.generate_project a c h w
   = ([gf2e_prng_tool_app.a_cannot_be_zero], (Ok tt, w))) /\
  (poly_mod a h <> Ok 0 ->
   snd (gf2e_prng_tool_app.generate_project a c h w)
   = gf2e_prng_tool.main a c h w /\
   (fst (gf2e_prng_tool.main a c h w) = Ok tt ->
    fst (gf2e_prng_tool_app.generate_project a c h w)
    = [gf2e_prng_tool_app.project_generated])).
Proof.
  intros Ha Hc Hh.
  destruct (poly_mod_remainder h Hh a Ha) as (Hra & _).
  destruct (poly_mod_remainder h Hh c Hc) as (Hrc & _).
  unfold gf2e_prng_tool_app.generate_project.
  destruct (Z.eqb_spec h 0) as [|_]; [lia|].
  rewrite Hra, Hrc. split.
  - intros Hzero. injection Hzero as ->. reflexivity.
  - intros Hnz.
    destruct (Z.eqb_spec (remainder h a) 0) as [Hzero|_];
      [now rewrite Hzero in Hnz|].
    assert (Ha1 : 1 <= a).
    { destruct (Z.eq_dec a 0) as [Ha0|]; [|lia].
      contradiction Hnz. rewrite <- Hra, Ha0.
      apply poly_mod_small; [lia|lia|].
      rewrite poly_degree_0. pose proof (degree_nonneg h Hh). lia. }
    unfold gf2e_prng_tool.main, gen_bind, pure.
    rewrite main_parameters_ok by assumption.
    destruct (gf2e_prng_tool.generate_verilog_and_tb_to_files
                (remainder h a) (remainder h c) h w) as [[[]|e|] w'];
      cbn [fst snd]; split; try reflexivity; discriminate.
Qed.

Lemma gui_agrees_with_command_line_witness :
  gf2e_prng_tool_app.generate_project 570 5 285 lcg_world
  = ([gf2e_prng_tool_app.a_cannot_be_zero], (Ok tt, lcg_world)).
Proof.
  apply (proj1 (@gui_agrees_with_command_line lcg 570 5 285 lcg_world
                  ltac:(lia) ltac:(lia) ltac:(lia))).
  reflexivity.
Defined.

(** * The sequential wrapper and its test harness *)

(** C5, as stated, fails: the generator takes a constant [c] wider than
    the output of the affine module as it is, the module keeps the low
    bits of it only, and the software iteration uses all of it. With
    [a = 2], [c = 8] and [h = 7] one enabled clock step from the state 1
    gives 2, and the software iteration gives 3. *)
Lemma prng_wrapper_wide_constant_counterexample :
  ~ (forall (a c h : Z) (k : nat) (S : Z) (w : @world lcg),
       1 <= a -> 0 <= c -> 1 <= poly_degree h ->
       0 <= S < 2 ^ poly_degree h ->
       exists v,
         gf2e_prng_tool.iterate_prng k a c h S = Ok v /\
         Semantics.run_enabled
           (src_files
              (snd (gf2e_prng_tool.generate_verilog_and_tb_to_files
                      a c h w)))
           (gf2e_prng_tool.generate_src a c h) k S = Some v).
Proof.
  intros Hall.
  destruct (Hall 2 8 7 1%nat 1 lcg_world ltac:(lia) ltac:(lia))
    as (v & Hsoft & Hhard).
  - change (poly_degree 7) with 2. lia.
  - change (poly_degree 7) with 2. lia.
  - vm_compute in Hsoft. vm_compute in Hhard. congruence.
Qed.

(** C5, amended: for [a >= 1], a modulus [h] of degree [D >= 1] and a
    constant [c] of at most [deg a + D] bits, the golden value of the test
    harness that the PRNG generator writes is the 100-fold software
    iteration of [poly_affine_mod a _ c h] from the seed of [D] bits that
    it drew; and the written module, loaded with a seed [S] of [D] bits by
    a clock step under reset, holds after [k] enabled clock steps the
    [k]-fold iteration from [S], for every [k], the seed itself for
    [k = 0]. *)
Theorem prng_wrapper_follows_software_iteration {R : Random} (a c h : Z)
    (w : world) :
  1 <= a -> 1 <= h -> 1 <= poly_degree h ->
  0 <= c < 2 ^ (poly_degree a + poly_degree h) ->
  exists tb w',
    gf2e_prng_tool.generate_verilog_and_tb_to_files a c h w = (Ok tt, w') /\
    lookup (gf2_prng (poly_degree h)) (src_files w')
    = Some (PrngSrc (gf2e_prng_tool.generate_src a c h)) /\
    lookup (gf2_prng (poly_degree h)) (tb_files w') = Some (PrngTb tb) /\
    Prng.tb_bit_length tb = poly_degree h /\
    Prng.iterations tb = 100 /\
    0 <= Prng.code_input tb < 2 ^ poly_degree h /\
    gf2e_prng_tool.iterate_prng 100 a c h (Prng.code_input tb)
    = Ok (Prng.expected_code_output tb) /\
    (forall k S, 0 <= S < 2 ^ poly_degree h ->
       exists v state,
         gf2e_prng_tool.iterate_prng k a c h S = Ok v /\
         Semantics.clock (src_files w') (gf2e_prng_tool.generate_src a c h)
           true false S 0 = Some state /\
         Semantics.run_enabled (src_files w')
           (gf2e_prng_tool.generate_src a c h) k state = Some v) /\
    (forall S, 0 <= S < 2 ^ poly_degree h ->
       gf2e_prng_tool.iterate_prng 0 a c h S = Ok S /\
       exists state,
         Semantics.clock (src_files w') (gf2e_prng_tool.generate_src a c h)
           true false S 0 = Some state /\
         Semantics.run_enabled (src_files w')
           (gf2e_prng_tool.generate_src a c h) 0 state = Some S).
Proof.
  intros Ha Hh Hdeg Hc.
  destruct (prng_run_library a c h w Ha ltac:(lia) Hh)
    as (tb & w' & Hrun & Hsrc & Htb & Hok & Hwidth & Hiter & Hin & Hexp).
  exists tb, w'. repeat (split; [assumption|]).
  assert (Hreset : forall S, 0 <= S < 2 ^ poly_degree h ->
    Semantics.clock (src_files w') (gf2e_prng_tool.generate_src a c h)
      true false S 0 = Some S).
  { intros S HS. cbn [Semantics.clock].
    unfold gf2e_prng_tool.generate_src. cbn [Prng.bit_length].
    now rewrite (truncate_small _ (degree_nonneg h Hh) S HS). }
  split.
  - intros k S HS.
    destruct (run_enabled_correct a c h Ha Hc Hh Hdeg (src_files w') k Hok
                S HS) as (v & Hv & He & _).
    exists v, S. split; [exact Hv|]. split; [now apply Hreset|exact He].
  - intros S HS. split; [reflexivity|].
    exists S. split; [now apply Hreset|reflexivity].
Qed.

Lemma prng_wrapper_follows_software_iteration_witness :
  exists tb (w' : @world lcg),
    gf2e_prng_tool.generate_verilog_and_tb_to_files 23 5 285 lcg_world
    = (Ok tt, w') /\
    lookup (gf2_prng (poly_degree 285)) (src_files w')
    = Some (PrngSrc (gf2e_prng_tool.generate_src 23 5 285)) /\
    lookup (gf2_prng (poly_degree 285)) (tb_files w') = Some (PrngTb tb) /\
    Prng.tb_bit_length tb = poly_degree 285 /\
    Prng.iterations tb = 100 /\
    0 <= Prng.code_input tb < 2 ^ poly_degree 285 /\
    gf2e_prng_tool.iterate_prng 100 23 5 285 (Prng.code_input tb)
    = Ok (Prng.expected_code_output tb) /\
    (forall k S, 0 <= S < 2 ^ poly_degree 285 ->
       exists v state,
         gf2e_prng_tool.iterate_prng k 23 5 285 S = Ok v /\
         Semantics.clock (src_files w')
           (gf2e_prng_tool.generate_src 23 5 285) true false S 0
         = Some state /\
         Semantics.run_enabled (src_files w')
           (gf2e_prng_tool.generate_src 23 5 285) k state = Some v) /\
    (forall S, 0 <= S < 2 ^ poly_degree 285 ->
       gf2e_prng_tool.iterate_prng 0 23 5 285 S = Ok S /\
       exists state,
         Semantics.clock (src_files w')
           (gf2e_prng_tool.generate_src 23 5 285) true false S 0
         = Some state /\
         Semantics.run_enabled (src_files w')
           (gf2e_prng_tool.generate_src 23 5 285) 0 state = Some S).
Proof.
  apply (@prng_wrapper_follows_software_iteration lcg 23 5 285 lcg_world);
    [lia|lia| |]; change (poly_degree 23) with 4;
    change (poly_degree 285) with 8; lia.
Defined.
